(** * Kaleidoscope chapter 2 front end (toy_ch2.cpp): lexer and parser

    A shallow embedding of [src/toy_ch2.cpp].  The program keeps its
    state in globals ([IdentifierStr], [NumVal], [CurTok],
    [BinopPrecedence]), in the function-local static [LastChar] of
    [gettok], and in the two streams it touches (standard input, standard
    error).  All of them are fields of one record [state] that every
    function threads explicitly.

    - characters read by [getchar] are C [int]s, modelled as [Z]: the
      value of an [unsigned char] (0..255) or [EOF] (-1);
    - tokens are C [int]s as well: the negative [enum Token] codes or
      the character itself;
    - [std::string] is [string], [char] is [ascii] (an 8 bit pattern),
      [double] is the kernel's binary64 [float];
    - [std::map<char,int>] is [gmap ascii Z]; [operator[]] inserts a
      zero entry on a missing key, which is written out in [map_index];
    - [std::unique_ptr<T>] results are [option T]: [None] is [nullptr]. *)

From Stdlib Require Import ZArith Lia Bool List String Ascii.
From Stdlib Require Import PrimFloat SpecFloat FloatOps.
From stdpp Require Import base decidable option countable strings gmap.
From Equations Require Import Equations.

Local Open Scope string_scope.
Local Open Scope Z_scope.

Set Default Proof Using "Type".
Set Warnings "-register-all,-inexact-float".

(** ** Characters and the <cctype> classification (C locale) *)

Definition EOF : Z := -1.

(** The [int] that [getchar] yields for a character: its value as an
    [unsigned char]. *)
Definition chr (a : ascii) : Z := Z.of_N (N_of_ascii a).

(** Conversion of an [int] to [char]: the low 8 bits. *)
Definition to_char (c : Z) : ascii := ascii_of_N (Z.to_N (c mod 256)).

Definition isspace (c : Z) : bool := (c =? 32) || ((9 <=? c) && (c <=? 13)).
Definition isdigit (c : Z) : bool := (48 <=? c) && (c <=? 57).
Definition isalpha (c : Z) : bool :=
  ((65 <=? c) && (c <=? 90)) || ((97 <=? c) && (c <=? 122)).
Definition isalnum (c : Z) : bool := isalpha c || isdigit c.
Definition isascii (c : Z) : bool := (0 <=? c) && (c <=? 127).

(** ** strtod on the strings the lexer builds

    [gettok] hands [strtod] a string over the alphabet [0-9.] only.  On
    such a string the C library converts the longest prefix of the form
    digits, optional '.', digits that holds at least one digit, rounds the
    decimal value to the nearest binary64 (ties to even), and returns
    zero when no conversion can be performed. *)

Definition digit_val (a : ascii) : option Z :=
  if isdigit (chr a) then Some (chr a - 48) else None.

(** Reads a run of digits: the mantissa so far, the number of digits
    read, and the rest of the string. *)
Fixpoint read_digits (s : string) (m : Z) (n : nat) : Z * nat * string :=
  match s with
  | String a r =>
      match digit_val a with
      | Some d => read_digits r (10 * m + d) (S n)
      | None => (m, n, s)
      end
  | EmptyString => (m, n, s)
  end.

(** [m / 10^k] rounded to nearest, ties to even. *)
Definition dec2float (m : Z) (k : nat) : float :=
  match m with
  | Zpos p =>
      SF2Prim (SFdiv prec emax (S754_finite false p 0)
                 (S754_finite false (Z.to_pos (10 ^ Z.of_nat k)) 0))
  | _ => 0%float
  end.

Definition strtod (s : string) : float :=
  let '(m1, n1, r1) := read_digits s 0 0 in
  let '(m2, n2) :=
    match r1 with
    | String "."%char r2 => let '(m2, n2, _) := read_digits r2 m1 0 in (m2, n2)
    | _ => (m1, 0%nat)
    end in
  match (n1 + n2)%nat with
  | O => 0%float
  | S _ => dec2float m2 n2
  end.

(** ** Program state *)

Record state := mkState {
  stdin : string;                   (* characters getchar has not returned yet *)
  LastChar : Z;                     (* static local of gettok *)
  IdentifierStr : string;
  NumVal : float;
  CurTok : Z;
  BinopPrecedence : gmap ascii Z;
  stderr : list string              (* messages handed to LogError, oldest first *)
}.

Definition set_lexer (s : state) (inp : string) (last : Z) : state :=
  mkState inp last (IdentifierStr s) (NumVal s) (CurTok s) (BinopPrecedence s) (stderr s).
Definition set_IdentifierStr (s : state) (v : string) : state :=
  mkState (stdin s) (LastChar s) v (NumVal s) (CurTok s) (BinopPrecedence s) (stderr s).
Definition set_NumVal (s : state) (v : float) : state :=
  mkState (stdin s) (LastChar s) (IdentifierStr s) v (CurTok s) (BinopPrecedence s) (stderr s).
Definition set_CurTok (s : state) (v : Z) : state :=
  mkState (stdin s) (LastChar s) (IdentifierStr s) (NumVal s) v (BinopPrecedence s) (stderr s).
Definition set_BinopPrecedence (s : state) (v : gmap ascii Z) : state :=
  mkState (stdin s) (LastChar s) (IdentifierStr s) (NumVal s) (CurTok s) v (stderr s).
Definition set_stderr (s : state) (v : list string) : state :=
  mkState (stdin s) (LastChar s) (IdentifierStr s) (NumVal s) (CurTok s) (BinopPrecedence s) v.

(** ** Lexer *)

Definition tok_eof : Z := -1.
Definition tok_def : Z := -2.
Definition tok_extern : Z := -3.
Definition tok_identifier : Z := -4.
Definition tok_number : Z := -5.

(** [getchar()]: the next character of standard input, or [EOF] once the
    input is exhausted (and on every later call). *)
Definition getchar (inp : string) : Z * string :=
  match inp with
  | String a r => (chr a, r)
  | EmptyString => (EOF, EmptyString)
  end.

(** [while (isspace(LastChar)) LastChar = getchar();]
    On exhausted input [getchar] yields [EOF], which is no space, so the
    loop ends there. *)
Fixpoint skip_space (last : Z) (inp : string) {struct inp} : Z * string :=
  if isspace last then
    match inp with
    | String a r => skip_space (chr a) r
    | EmptyString => (EOF, EmptyString)
    end
  else (last, inp).

(** [while (isalnum((LastChar = getchar()))) IdentifierStr += LastChar;] *)
Fixpoint read_ident (id : string) (inp : string) {struct inp} : string * Z * string :=
  match inp with
  | String a r =>
      if isalnum (chr a) then read_ident (id +:+ String a EmptyString) r
      else (id, chr a, r)
  | EmptyString => (id, EOF, EmptyString)
  end.

(** [do { NumStr += LastChar; LastChar = getchar(); }
     while (isdigit(LastChar) || LastChar == '.');] *)
Fixpoint read_number (num : string) (last : Z) (inp : string) {struct inp}
  : string * Z * string :=
  let num := num +:+ String (to_char last) EmptyString in
  match inp with
  | String a r =>
      if isdigit (chr a) || (chr a =? chr ".") then read_number num (chr a) r
      else (num, chr a, r)
  | EmptyString => (num, EOF, EmptyString)
  end.

(** [do LastChar = getchar();
     while (LastChar != EOF && LastChar != '\n' && LastChar != '\r');] *)
Fixpoint skip_comment (inp : string) : Z * string :=
  match inp with
  | String a r =>
      if negb (chr a =? EOF) && negb (chr a =? 10) && negb (chr a =? 13)
      then skip_comment r
      else (chr a, r)
  | EmptyString => (EOF, EmptyString)
  end.

Lemma skip_space_length last inp :
  (String.length (skip_space last inp).2 <= String.length inp)%nat.
Proof.
  revert last; induction inp as [|a r IH]; intros last; simpl.
  - destruct (isspace last); simpl; lia.
  - destruct (isspace last); simpl; [specialize (IH (chr a)); lia | lia].
Qed.

Lemma skip_comment_length inp :
  (skip_comment inp).1 <> EOF ->
  (String.length (skip_comment inp).2 < String.length inp)%nat.
Proof.
  induction inp as [|a r IH]; simpl; [intros H; exfalso; apply H; reflexivity|].
  destruct (_ && _); simpl; intros H; [specialize (IH H); lia | lia].
Qed.

(** The four stretches of [gettok], each on the whole state. *)

(** Skipping white space. *)
Definition skip_whitespace (s : state) : state :=
  let p := skip_space (LastChar s) (stdin s) in
  set_lexer s p.2 p.1.

(** [if (isalpha(LastChar)) { IdentifierStr = LastChar; while ...;
     if (IdentifierStr == "def") return tok_def;
     if (IdentifierStr == "extern") return tok_extern;
     return tok_identifier; }] *)
Definition lex_identifier (s : state) : Z * state :=
  let q := read_ident (String (to_char (LastChar s)) EmptyString) (stdin s) in
  let s' := set_lexer (set_IdentifierStr s q.1.1) q.2 q.1.2 in
  if String.eqb (IdentifierStr s') "def" then (tok_def, s')
  else if String.eqb (IdentifierStr s') "extern" then (tok_extern, s')
  else (tok_identifier, s').

(** [if (isdigit(LastChar) || LastChar == '.') { std::string NumStr;
     do ... while ...; NumVal = strtod(NumStr.c_str(), nullptr);
     return tok_number; }] *)
Definition lex_number (s : state) : Z * state :=
  let q := read_number EmptyString (LastChar s) (stdin s) in
  (tok_number, set_NumVal (set_lexer s q.2 q.1.2) (strtod q.1.1)).

(** The [do ... while] of the comment case. *)
Definition skip_line_comment (s : state) : state :=
  let c := skip_comment (stdin s) in
  set_lexer s c.2 c.1.

(** The end of [gettok], reached when the current character starts
    neither an identifier nor a number and (no longer) a comment:
    [if (LastChar == EOF) return tok_eof;
     int ThisChar = LastChar; LastChar = getchar(); return ThisChar;] *)
Definition gettok_symbol (s : state) : Z * state :=
  if LastChar s =? EOF then (tok_eof, s)
  else
    let ThisChar := LastChar s in
    let g := getchar (stdin s) in
    (ThisChar, set_lexer s g.2 g.1).

(** [gettok()]: the next token.  The payload of an identifier or number
    token is left in [IdentifierStr] or [NumVal].  After a comment that
    does not end the input the function calls itself; the input is
    shorter by then. *)
Equations? gettok (s : state) : Z * state by wf (String.length (stdin s)) lt :=
gettok s :=
  if isalpha (LastChar (skip_whitespace s)) then
    lex_identifier (skip_whitespace s)
  else if isdigit (LastChar (skip_whitespace s))
          || (LastChar (skip_whitespace s) =? chr ".") then
    lex_number (skip_whitespace s)
  else if LastChar (skip_whitespace s) =? chr "#" then
    match decide (LastChar (skip_line_comment (skip_whitespace s)) <> EOF) with
    | left H => gettok (skip_line_comment (skip_whitespace s))
    | right _ => gettok_symbol (skip_line_comment (skip_whitespace s))
    end
  else gettok_symbol (skip_whitespace s).
Proof.
  unfold skip_line_comment, skip_whitespace in *; simpl in *.
  pose proof (skip_comment_length _ H).
  pose proof (skip_space_length (LastChar s) (stdin s)). lia.
Qed.

(** ** What the lexer has left to read *)

(** What is left to read: the buffered character, unless it is [EOF],
    and the rest of the input. *)
Definition chars_left (s : state) : nat :=
  ((if (LastChar s =? EOF)%Z then 0 else 1) + String.length (stdin s))%nat.

Lemma set_lexer_id s : set_lexer s (stdin s) (LastChar s) = s.
Proof. destruct s; reflexivity. Qed.

Lemma isspace_EOF : isspace EOF = false.
Proof. reflexivity. Qed.

Lemma chr_range a : 0 <= chr a <= 255.
Proof.
  unfold chr. pose proof (N_ascii_bounded a) as H. lia.
Qed.

Lemma chr_not_EOF a : (chr a =? EOF) = false.
Proof. pose proof (chr_range a). unfold EOF. lia. Qed.

Lemma to_char_chr a : to_char (chr a) = a.
Proof.
  unfold to_char. pose proof (chr_range a).
  rewrite Z.mod_small by lia. unfold chr.
  rewrite N2Z.id. apply ascii_N_embedding.
Qed.

Lemma skip_space_EOF inp : skip_space EOF inp = (EOF, inp).
Proof. destruct inp; reflexivity. Qed.

Lemma skip_whitespace_EOF s : LastChar s = EOF -> skip_whitespace s = s.
Proof.
  intros H. unfold skip_whitespace. rewrite H, skip_space_EOF. simpl.
  rewrite <- H. apply set_lexer_id.
Qed.

Lemma gettok_EOF s : LastChar s = EOF -> gettok s = (tok_eof, s).
Proof.
  intros H. rewrite gettok_equation_1, (skip_whitespace_EOF s H), H.
  change (isalpha EOF) with false.
  change (isdigit EOF || (EOF =? chr ".")) with false.
  change (EOF =? chr "#") with false. cbv iota.
  unfold gettok_symbol. rewrite H. reflexivity.
Qed.

Lemma skip_space_left last inp :
  let p := skip_space last inp in
  ((if (p.1 =? EOF)%Z then 0 else 1) + String.length p.2
   <= (if (last =? EOF)%Z then 0 else 1) + String.length inp)%nat.
Proof.
  revert last; induction inp as [|a r IH]; intros last; simpl.
  - destruct (isspace last); simpl; lia.
  - destruct (isspace last) eqn:E; simpl; [|lia].
    specialize (IH (chr a)). simpl in IH. rewrite chr_not_EOF in IH.
    destruct (last =? EOF) eqn:E'; [apply Z.eqb_eq in E'; subst; discriminate|].
    simpl. lia.
Qed.

Lemma read_ident_left id inp :
  let q := read_ident id inp in
  ((if (q.1.2 =? EOF)%Z then 0 else 1) + String.length q.2 <= String.length inp)%nat.
Proof.
  revert id; induction inp as [|a r IH]; intros id; simpl; [lia|].
  destruct (isalnum (chr a)); simpl.
  - specialize (IH (id +:+ String a EmptyString)). simpl in IH. lia.
  - rewrite chr_not_EOF. lia.
Qed.

Lemma read_number_left num last inp :
  let q := read_number num last inp in
  ((if (q.1.2 =? EOF)%Z then 0 else 1) + String.length q.2 <= String.length inp)%nat.
Proof.
  revert num last; induction inp as [|a r IH]; intros num last; simpl; [lia|].
  destruct (_ || _); simpl.
  - specialize (IH (num +:+ String (to_char last) EmptyString) (chr a)). simpl in IH. lia.
  - rewrite chr_not_EOF. lia.
Qed.

Lemma skip_comment_left inp :
  let c := skip_comment inp in
  ((if (c.1 =? EOF)%Z then 0 else 1) + String.length c.2 <= String.length inp)%nat.
Proof.
  induction inp as [|a r IH]; cbn [skip_comment]; cbv zeta in *; [simpl; lia|].
  destruct (_ && _); cbn [fst snd String.length]; [lia|]. rewrite chr_not_EOF. lia.
Qed.

Lemma skip_whitespace_left s : (chars_left (skip_whitespace s) <= chars_left s)%nat.
Proof. apply skip_space_left. Qed.

Lemma skip_line_comment_left s :
  (chars_left (skip_line_comment s) <= String.length (stdin s))%nat.
Proof. apply skip_comment_left. Qed.

Lemma isalpha_not_EOF c : isalpha c = true -> (c =? EOF) = false.
Proof. unfold isalpha, EOF. lia. Qed.

Lemma isdigit_dot_not_EOF c : isdigit c || (c =? chr ".") = true -> (c =? EOF) = false.
Proof.
  unfold isdigit, EOF. change (chr ".") with 46. lia.
Qed.

Lemma lex_identifier_left s :
  isalpha (LastChar s) = true ->
  (lex_identifier s).1 <> tok_eof /\
  (chars_left (lex_identifier s).2 < chars_left s)%nat.
Proof.
  intros H. unfold lex_identifier.
  pose proof (read_ident_left (String (to_char (LastChar s)) EmptyString) (stdin s)) as L.
  simpl in L.
  assert ((chars_left (set_lexer (set_IdentifierStr s
            (read_ident (String (to_char (LastChar s)) EmptyString) (stdin s)).1.1)
            (read_ident (String (to_char (LastChar s)) EmptyString) (stdin s)).2
            (read_ident (String (to_char (LastChar s)) EmptyString) (stdin s)).1.2)
          < chars_left s)%nat) as K.
  { unfold chars_left at 1 2. simpl. rewrite (isalpha_not_EOF _ H). lia. }
  simpl. repeat destruct (String.eqb _ _); simpl; (split; [discriminate | apply K]).
Qed.

Lemma lex_number_left s :
  isdigit (LastChar s) || (LastChar s =? chr ".") = true ->
  (lex_number s).1 <> tok_eof /\
  (chars_left (lex_number s).2 < chars_left s)%nat.
Proof.
  intros H. unfold lex_number. simpl. split; [discriminate|].
  pose proof (read_number_left EmptyString (LastChar s) (stdin s)) as L.
  simpl in L. unfold chars_left. simpl.
  rewrite (isdigit_dot_not_EOF _ H). lia.
Qed.

Lemma gettok_symbol_left s :
  (chars_left (gettok_symbol s).2 <= chars_left s)%nat /\
  ((gettok_symbol s).1 <> tok_eof -> (chars_left (gettok_symbol s).2 < chars_left s)%nat).
Proof.
  unfold gettok_symbol. destruct (LastChar s =? EOF) eqn:E; simpl.
  - split; [lia | intros H; exfalso; apply H; reflexivity].
  - unfold chars_left. simpl. rewrite E.
    destruct (stdin s) as [|a r]; simpl; [|rewrite chr_not_EOF]; lia.
Qed.

(** A token other than [tok_eof] costs at least one character. *)
Lemma gettok_left s :
  (chars_left (gettok s).2 <= chars_left s)%nat /\
  ((gettok s).1 <> tok_eof -> (chars_left (gettok s).2 < chars_left s)%nat).
Proof.
  apply (gettok_elim (fun s r =>
    (chars_left r.2 <= chars_left s)%nat /\
    (r.1 <> tok_eof -> (chars_left r.2 < chars_left s)%nat))).
  clear s. intros s IH.
  pose proof (skip_whitespace_left s) as W.
  destruct (isalpha _) eqn:Ea.
  { destruct (lex_identifier_left _ Ea). split; [lia | intros; lia]. }
  destruct (_ || _) eqn:Ed.
  { destruct (lex_number_left _ Ed). split; [lia | intros; lia]. }
  destruct (LastChar (skip_whitespace s) =? chr "#") eqn:Eh.
  - pose proof (skip_line_comment_left (skip_whitespace s)) as C.
    assert (String.length (stdin (skip_whitespace s)) < chars_left (skip_whitespace s))%nat as D.
    { unfold chars_left. apply Z.eqb_eq in Eh. rewrite Eh. simpl. lia. }
    destruct (decide _) as [H|H].
    + destruct (IH H). split; [lia | intros; lia].
    + destruct (gettok_symbol_left (skip_line_comment (skip_whitespace s))).
      split; [lia | intros; lia].
  - destruct (gettok_symbol_left (skip_whitespace s)) as [A B].
    split; [lia | intros K; specialize (B K); lia].
Qed.

(** ** AST *)

Inductive ExprAST : Type :=
| NumberExprAST (Val : float)
| VariableExprAST (Name : string)
| BinaryExprAST (Op : ascii) (LHS RHS : ExprAST)
| CallExprAST (Callee : string) (Args : list ExprAST).

Record PrototypeAST := mkPrototypeAST {
  Name : string;
  Args : list string
}.

Record FunctionAST := mkFunctionAST {
  Proto : PrototypeAST;
  Body : ExprAST
}.

(** ** Parser *)

(** [getNextToken()]: [return CurTok = gettok();] *)
Definition getNextToken (s : state) : Z * state :=
  let r := gettok s in (r.1, set_CurTok r.2 r.1).

(** [BinopPrecedence[k]] of a [std::map<char,int>]: a missing key is
    inserted with the value 0. *)
Definition map_index (m : gmap ascii Z) (k : ascii) : Z * gmap ascii Z :=
  match m !! k with
  | Some v => (v, m)
  | None => (0, <[k := 0]> m)
  end.

Definition GetTokPrecedence (s : state) : Z * state :=
  if negb (isascii (CurTok s)) then (-1, s)
  else
    let r := map_index (BinopPrecedence s) (to_char (CurTok s)) in
    let TokPrec := r.1 in
    let s' := set_BinopPrecedence s r.2 in
    if TokPrec <=? 0 then (-1, s') else (TokPrec, s').

(** [LogError] and [LogErrorP]: the message goes to standard error and
    the result is [nullptr]. *)
Definition LogError {A : Type} (Str : string) (s : state) : option A * state :=
  (None, set_stderr s (stderr s ++ [Str])%list).

(** The recursive parse functions take a fuel argument that bounds the
    depth of calls; a computation is a function from the state to
    [None] when the fuel ran out and to the result and the new state
    otherwise. *)
Definition M (A : Type) : Type := state -> option (A * state).

Definition ret {A : Type} (a : A) : M A := fun s => Some (a, s).
Definition bind {A B : Type} (m : M A) (k : A -> M B) : M B :=
  fun s => match m s with
           | Some r => k r.1 r.2
           | None => None
           end.
Definition lift {A : Type} (f : state -> A * state) : M A := fun s => Some (f s).
Definition read {A : Type} (f : state -> A) : M A := fun s => Some (f s, s).
Definition out_of_fuel {A : Type} : M A := fun _ => None.

Notation "x <- m ;; k" := (bind m (fun x => k))
  (at level 100, m at next level, right associativity).
Notation "m ;; k" := (bind m (fun _ => k))
  (at level 100, right associativity).

(** [ParseNumberExpr] *)
Definition ParseNumberExpr : M (option ExprAST) :=
  Result <- read (fun s => NumberExprAST (NumVal s)) ;;
  lift getNextToken ;;
  ret (Some Result).

Fixpoint ParsePrimary (fuel : nat) : M (option ExprAST) :=
  match fuel with
  | O => out_of_fuel
  | S fuel =>
      tok <- read CurTok ;;
      if tok =? tok_identifier then ParseIdentifierExpr fuel
      else if tok =? tok_number then ParseNumberExpr
      else if tok =? chr "(" then ParseParenExpr fuel
      else lift (LogError "unknown token when expecting an expression")
  end

with ParseParenExpr (fuel : nat) : M (option ExprAST) :=
  match fuel with
  | O => out_of_fuel
  | S fuel =>
      lift getNextToken ;;
      V <- ParseExpression fuel ;;
      match V with
      | None => ret None
      | Some V =>
          tok <- read CurTok ;;
          if negb (tok =? chr ")") then lift (LogError "expected ')'")
          else lift getNextToken ;; ret (Some V)
      end
  end

with ParseIdentifierExpr (fuel : nat) : M (option ExprAST) :=
  match fuel with
  | O => out_of_fuel
  | S fuel =>
      IdName <- read IdentifierStr ;;
      lift getNextToken ;;
      tok <- read CurTok ;;
      if negb (tok =? chr "(") then ret (Some (VariableExprAST IdName))
      else
        lift getNextToken ;;
        tok <- read CurTok ;;
        Args <- (if negb (tok =? chr ")") then ParseCallArgs fuel []
                 else ret (Some [])) ;;
        match Args with
        | None => ret None
        | Some Args =>
            lift getNextToken ;;
            ret (Some (CallExprAST IdName Args))
        end
  end

(** The [while (true)] loop of [ParseIdentifierExpr]: [Some Args] when it
    leaves by [break], [None] when it returns [nullptr] from the
    function. *)
with ParseCallArgs (fuel : nat) (Args : list ExprAST) : M (option (list ExprAST)) :=
  match fuel with
  | O => out_of_fuel
  | S fuel =>
      Arg <- ParseExpression fuel ;;
      match Arg with
      | None => ret None
      | Some Arg =>
          let Args := (Args ++ [Arg])%list in
          tok <- read CurTok ;;
          if tok =? chr ")" then ret (Some Args)
          else if negb (tok =? chr ",") then
            lift (LogError "Expected ')' or ',' in argument list")
          else lift getNextToken ;; ParseCallArgs fuel Args
      end
  end

(** [ParseBinOpRHS]: one call per iteration of its [while (true)]. *)
with ParseBinOpRHS (fuel : nat) (ExprPrec : Z) (LHS : ExprAST) : M (option ExprAST) :=
  match fuel with
  | O => out_of_fuel
  | S fuel =>
      TokPrec <- lift GetTokPrecedence ;;
      if TokPrec <? ExprPrec then ret (Some LHS)
      else
        BinOp <- read CurTok ;;
        lift getNextToken ;;
        RHS <- ParsePrimary fuel ;;
        match RHS with
        | None => ret None
        | Some RHS =>
            NextPrec <- lift GetTokPrecedence ;;
            RHS <- (if TokPrec <? NextPrec then ParseBinOpRHS fuel (TokPrec + 1) RHS
                    else ret (Some RHS)) ;;
            match RHS with
            | None => ret None
            | Some RHS =>
                ParseBinOpRHS fuel ExprPrec (BinaryExprAST (to_char BinOp) LHS RHS)
            end
        end
  end

with ParseExpression (fuel : nat) : M (option ExprAST) :=
  match fuel with
  | O => out_of_fuel
  | S fuel =>
      LHS <- ParsePrimary fuel ;;
      match LHS with
      | None => ret None
      | Some LHS => ParseBinOpRHS fuel 0 LHS
      end
  end.

(** The [while (getNextToken() == tok_identifier)
               ArgNames.push_back(IdentifierStr);] of [ParsePrototype].
    Every identifier read takes characters from the input. *)
Equations? ParsePrototype_args (s : state) (ArgNames : list string)
  : list string * state by wf (chars_left s) lt :=
ParsePrototype_args s ArgNames :=
  match decide ((getNextToken s).1 = tok_identifier) with
  | left H =>
      ParsePrototype_args (getNextToken s).2
        (ArgNames ++ [IdentifierStr (getNextToken s).2])%list
  | right _ => (ArgNames, (getNextToken s).2)
  end.
Proof.
  destruct (gettok_left s) as [_ K]. unfold getNextToken in *. simpl in *.
  unfold chars_left in *. simpl. apply K. rewrite H. discriminate.
Qed.

Definition ParsePrototype (s : state) : option PrototypeAST * state :=
  if negb (CurTok s =? tok_identifier) then
    LogError "Expected function name in prototype" s
  else
    let FnName := IdentifierStr s in
    let s1 := (getNextToken s).2 in
    if negb (CurTok s1 =? chr "(") then LogError "Expected '(' in prototype" s1
    else
      let r := ParsePrototype_args s1 [] in
      let ArgNames := r.1 in
      let s2 := r.2 in
      if negb (CurTok s2 =? chr ")") then LogError "Expected ')' in prototype" s2
      else (Some (mkPrototypeAST FnName ArgNames), (getNextToken s2).2).

Definition ParseDefinition (fuel : nat) : M (option FunctionAST) :=
  lift getNextToken ;;
  Proto <- lift ParsePrototype ;;
  match Proto with
  | None => ret None
  | Some Proto =>
      E <- ParseExpression fuel ;;
      match E with
      | Some E => ret (Some (mkFunctionAST Proto E))
      | None => ret None
      end
  end.

Definition ParseTopLevelExpr (fuel : nat) : M (option FunctionAST) :=
  E <- ParseExpression fuel ;;
  match E with
  | Some E =>
      let Proto := mkPrototypeAST "__anon_expr" [] in
      ret (Some (mkFunctionAST Proto E))
  | None => ret None
  end.

Definition ParseExtern (s : state) : option PrototypeAST * state :=
  ParsePrototype (getNextToken s).2.

(** [main] up to the call of [MainLoop]: the table is filled and the
    first token is read. *)
Definition main_table : gmap ascii Z :=
  <["*"%char := 40]> (<["-"%char := 20]> (<["+"%char := 20]> (<["<"%char := 10]> ∅))).

Definition initial_state (inp : string) : state :=
  mkState inp (chr " ") "" 0%float 0 ∅ [].

Definition main_init (inp : string) : state :=
  (getNextToken (set_BinopPrecedence (initial_state inp) main_table)).2.

(** ** Driver

    The driver writes its prompt and its status lines to standard error
    with [fprintf]; each call adds its text to the log that [LogError]
    writes to. *)

Definition newline : string := String "010" EmptyString.

Definition fprintf_stderr (text : string) (s : state) : unit * state :=
  (tt, set_stderr s (stderr s ++ [text])%list).

Definition HandleDefinition (fuel : nat) : M unit :=
  r <- ParseDefinition fuel ;;
  match r with
  | Some _ => lift (fprintf_stderr ("Parsed a function definition." +:+ newline))
  | None => lift getNextToken ;; ret tt
  end.

Definition HandleExtern : M unit :=
  r <- lift ParseExtern ;;
  match r with
  | Some _ => lift (fprintf_stderr ("Parsed an extern" +:+ newline))
  | None => lift getNextToken ;; ret tt
  end.

Definition HandleTopLevelExpression (fuel : nat) : M unit :=
  r <- ParseTopLevelExpr fuel ;;
  match r with
  | Some _ => lift (fprintf_stderr ("Parsed a top-level expr" +:+ newline))
  | None => lift getNextToken ;; ret tt
  end.

(** [MainLoop]: one call per iteration of its [while (true)]. *)
Fixpoint MainLoop (fuel : nat) : M unit :=
  match fuel with
  | O => out_of_fuel
  | S fuel =>
      lift (fprintf_stderr "ready> ") ;;
      tok <- read CurTok ;;
      if tok =? tok_eof then ret tt
      else if tok =? chr ";" then lift getNextToken ;; MainLoop fuel
      else if tok =? tok_def then HandleDefinition fuel ;; MainLoop fuel
      else if tok =? tok_extern then HandleExtern ;; MainLoop fuel
      else HandleTopLevelExpression fuel ;; MainLoop fuel
  end.

(** [main] on the standard input [inp]: its return value and the state
    it ends in. *)
Definition main (fuel : nat) (inp : string) : option (Z * state) :=
  (lift (fun s => (tt, set_BinopPrecedence s main_table)) ;;
   lift (fprintf_stderr "ready> ") ;;
   lift getNextToken ;;
   MainLoop fuel ;;
   ret 0) (initial_state inp).

(** [n] calls of [gettok] in a row: the tokens and the last state. *)
Fixpoint gettok_n (n : nat) (s : state) : list Z * state :=
  match n with
  | O => ([], s)
  | S n => let r := gettok s in
           let rs := gettok_n n r.2 in
           (r.1 :: rs.1, rs.2)
  end.

(** What is left to parse: the current token, unless it is [tok_eof],
    and the characters behind it.  Three units of fuel for each, and two,
    are enough for every parse function ([parse_fuel_enough] below). *)
Definition tokens_left (s : state) : nat :=
  ((if (CurTok s =? tok_eof)%Z then 0 else 1) + chars_left s)%nat.

Definition enough_fuel (s : state) : nat := (3 * tokens_left s + 2)%nat.

(** Parsing the input as an expression: [main]'s start, then
    [ParseExpression]. *)
Definition parse_as_expression (inp : string) : option (option ExprAST * state) :=
  ParseExpression (enough_fuel (main_init inp)) (main_init inp).

(** The same, as far as the tree and the messages are concerned. *)
Definition parse_tree (inp : string) : option (option ExprAST) :=
  fst <$> parse_as_expression inp.
Definition parse_messages (inp : string) : option (list string) :=
  (fun r => stderr r.2) <$> parse_as_expression inp.

(** The first [n] tokens of an input: [main]'s first [getNextToken] and
    the calls that follow. *)
Definition tokens_of (n : nat) (inp : string) : list Z :=
  (gettok_n n (set_BinopPrecedence (initial_state inp) main_table)).1.

(** * Vocabulary of the properties *)

(** The table as [main] fills it, up to the zero entries that lookups
    leave behind. *)
Definition table_of_main (m : gmap ascii Z) : Prop :=
  forall k : ascii, default 0 (m !! k) = default 0 (main_table !! k).

(** What [GetTokPrecedence] returns, read off the table. *)
Definition precedence_in (m : gmap ascii Z) (tok : Z) : Z :=
  if isascii tok then
    match m !! to_char tok with
    | Some v => if 0 <? v then v else -1
    | None => -1
    end
  else -1.

(** The tokens each message complains about: those that fail the test
    made just before the message is logged. *)
Definition offending (msg : string) (tok : Z) : Prop :=
  (msg = "unknown token when expecting an expression" /\
   tok <> tok_identifier /\ tok <> tok_number /\ tok <> chr "(") \/
  (msg = "expected ')'" /\ tok <> chr ")") \/
  (msg = "Expected ')' or ',' in argument list" /\ tok <> chr ")" /\ tok <> chr ",") \/
  (msg = "Expected function name in prototype" /\ tok <> tok_identifier) \/
  (msg = "Expected '(' in prototype" /\ tok <> chr "(") \/
  (msg = "Expected ')' in prototype" /\ tok <> chr ")" /\ tok <> tok_identifier).

(** A failed parse from [s] to [s']: one message was logged, and the
    current token is one the message complains about. *)
Definition failed_at (s s' : state) : Prop :=
  exists msg, stderr s' = (stderr s ++ [msg])%list /\ offending msg (CurTok s').

(** The outcome of a parse as far as messages go: none on success. *)
Definition outcome {A : Type} (s : state) (r : option A) (s' : state) : Prop :=
  match r with
  | Some _ => stderr s' = stderr s
  | None => failed_at s s'
  end.

(** The state in which a computation ends ([s] itself without fuel). *)
Definition final_state {A : Type} (m : M A) (s : state) : state :=
  match m s with
  | Some r => r.2
  | None => s
  end.

Fixpoint all_chars (P : ascii -> bool) (s : string) : bool :=
  match s with
  | String a r => P a && all_chars P r
  | EmptyString => true
  end.

(** The string is empty or starts with a character that satisfies [P]. *)
Definition stops_at (P : ascii -> bool) (s : string) : bool :=
  match s with
  | String a _ => P a
  | EmptyString => true
  end.

Definition numeric (a : ascii) : bool := isdigit (chr a) || (chr a =? chr ".").

Definition end_of_line (a : ascii) : bool := (chr a =? 10) || (chr a =? 13).

(** The two inputs of the comment example; "010" is the newline. *)
Definition commented_input : string := "1 # comment" +:+ String "010" "+2".

Definition plain_input : string := "1" +:+ String "010" "+2".

(** A token with its payload, as the globals hold it. *)
Record item := mkItem {
  tok : Z;
  ident : string;
  num : float
}.

Definition current_item (s : state) : item :=
  mkItem (CurTok s) (IdentifierStr s) (NumVal s).

(** The tokens that [gettok] is still to return, up to [tok_eof]. *)
Equations? unread (s : state) : list item by wf (chars_left s) lt :=
unread s :=
  match decide ((gettok s).1 = tok_eof) with
  | left _ => []
  | right H =>
      mkItem (gettok s).1 (IdentifierStr (gettok s).2) (NumVal (gettok s).2)
      :: unread (gettok s).2
  end.
Proof. apply gettok_left, H. Qed.

(** The tokens the parser has not consumed: the current one, which is the
    lookahead, and those behind it. *)
Definition pending (s : state) : list item :=
  if CurTok s =? tok_eof then [] else current_item s :: unread s.

(** The part of the state the lexer does not look at. *)
Definition set_frame (s : state) (c : Z) (m : gmap ascii Z) (e : list string) : state :=
  mkState (stdin s) (LastChar s) (IdentifierStr s) (NumVal s) c m e.

(** The table up to the zero entries that lookups insert. *)
Definition same_table (s s' : state) : Prop :=
  forall t, precedence_in (BinopPrecedence s') t = precedence_in (BinopPrecedence s) t.

(** ** The grammar on tokens

    The grammar of the file's head comment, read off the parse functions
    (commas between arguments, as [ParseIdentifierExpr] wants them), with
    the tree each phrase stands for.  Every relation also names the token
    that follows the phrase: a variable is an identifier that no '('
    follows, and the left operand of an operator is followed by that
    operator. *)

Section Grammar.

Variable prec : Z -> Z.

Inductive primary_tokens : list item -> Z -> ExprAST -> Prop :=
| G_number t next :
    tok t = tok_number ->
    primary_tokens [t] next (NumberExprAST (num t))
| G_variable t next :
    tok t = tok_identifier -> next <> chr "(" ->
    primary_tokens [t] next (VariableExprAST (ident t))
| G_call_empty t lp rp next :
    tok t = tok_identifier -> tok lp = chr "(" -> tok rp = chr ")" ->
    primary_tokens [t; lp; rp] next (CallExprAST (ident t) [])
| G_call t lp ts args rp next :
    tok t = tok_identifier -> tok lp = chr "(" ->
    arguments_tokens ts args -> tok rp = chr ")" ->
    primary_tokens (t :: lp :: ts ++ [rp]) next (CallExprAST (ident t) args)
| G_paren lp ts e rp next :
    tok lp = chr "(" -> expression_tokens ts (chr ")") e -> tok rp = chr ")" ->
    primary_tokens (lp :: ts ++ [rp]) next e

with expression_tokens : list item -> Z -> ExprAST -> Prop :=
| G_primary ts next e :
    primary_tokens ts next e -> expression_tokens ts next e
| G_binary ts1 e1 op ts2 e2 next :
    expression_tokens ts1 (tok op) e1 -> 0 < prec (tok op) ->
    expression_tokens ts2 next e2 ->
    expression_tokens (ts1 ++ op :: ts2) next (BinaryExprAST (to_char (tok op)) e1 e2)

(** One argument or more, the closing parenthesis behind them. *)
with arguments_tokens : list item -> list ExprAST -> Prop :=
| G_last_argument ts e :
    expression_tokens ts (chr ")") e -> arguments_tokens ts [e]
| G_argument ts e comma ts' es :
    expression_tokens ts (chr ",") e -> tok comma = chr "," ->
    arguments_tokens ts' es ->
    arguments_tokens (ts ++ comma :: ts') (e :: es).

End Grammar.

Inductive prototype_tokens : list item -> PrototypeAST -> Prop :=
| G_prototype t lp params rp :
    tok t = tok_identifier -> tok lp = chr "(" ->
    Forall (fun p => tok p = tok_identifier) params ->
    tok rp = chr ")" ->
    prototype_tokens (t :: lp :: params ++ [rp]) (mkPrototypeAST (ident t) (map ident params)).

Inductive definition_tokens (prec : Z -> Z) : list item -> Z -> FunctionAST -> Prop :=
| G_definition d tp te next p e :
    tok d = tok_def -> prototype_tokens tp p -> expression_tokens prec te next e ->
    definition_tokens prec (d :: tp ++ te) next (mkFunctionAST p e).

Inductive extern_tokens : list item -> PrototypeAST -> Prop :=
| G_extern x tp p :
    tok x = tok_extern -> prototype_tokens tp p -> extern_tokens (x :: tp) p.

Inductive toplevel_tokens (prec : Z -> Z) : list item -> Z -> FunctionAST -> Prop :=
| G_toplevel ts next e :
    expression_tokens prec ts next e ->
    toplevel_tokens prec ts next (mkFunctionAST (mkPrototypeAST "__anon_expr" []) e).

(** The table of the state, as a function on tokens. *)
Definition table_is (prec : Z -> Z) (s : state) : Prop :=
  forall t, precedence_in (BinopPrecedence s) t = prec t.

(** From [s] to [s'] the parser has consumed the tokens [ts]. *)
Definition consumed (s s' : state) (ts : list item) : Prop :=
  pending s = (ts ++ pending s')%list.

(** The token at the head of a list, [tok_eof] for none. *)
Definition head_tok (q : list item) : Z :=
  match q with
  | [] => tok_eof
  | t :: _ => tok t
  end.

Definition is_atom (x : item) : bool :=
  (tok x =? tok_number) || (tok x =? tok_identifier).

Definition atom_ast (x : item) : ExprAST :=
  if tok x =? tok_number then NumberExprAST (num x) else VariableExprAST (ident x).

Definition chain_tail (l : list (item * item)) : list item :=
  flat_map (fun p => [p.1; p.2]) l.

(** The tree of a chain, built operand by operand.  The next operator
    and operand go down the right spine of the tree as long as the
    operators there bind less than the new one; the subtree reached
    becomes the left operand of the new operator. *)
Fixpoint insert_right (prec : Z -> Z) (e : ExprAST) (o : item) (x : ExprAST) : ExprAST :=
  match e with
  | BinaryExprAST op l r =>
      if prec (chr op) <? prec (tok o)
      then BinaryExprAST op l (insert_right prec r o x)
      else BinaryExprAST (to_char (tok o)) e x
  | _ => BinaryExprAST (to_char (tok o)) e x
  end.

Definition nest (prec : Z -> Z) (e : ExprAST) (l : list (item * item)) : ExprAST :=
  fold_left (fun e p => insert_right prec e p.1 (atom_ast p.2)) l e.

(** The tree that groups a chain from the left. *)
Definition left_nest (e : ExprAST) (l : list (item * item)) : ExprAST :=
  fold_left (fun e p => BinaryExprAST (to_char (tok p.1)) e (atom_ast p.2)) l e.

(** An operator of the table, other than '(', and an atom behind it. *)
Definition operator_atom (prec : Z -> Z) (p : item * item) : Prop :=
  0 < prec (tok p.1) /\ tok p.1 <> chr "(" /\ is_atom p.2 = true.

(** What may follow a chain: no operator and no '('. *)
Definition chain_end (prec : Z -> Z) (rest : list item) : Prop :=
  prec (head_tok rest) < 0 /\ head_tok rest <> chr "(".

(** The left operand in hand binds at least as much as the operator that
    is to come. *)
Definition binds_before (prec : Z -> Z) (LHS : ExprAST) (next : Z) : Prop :=
  match LHS with
  | BinaryExprAST op _ _ => prec next <= prec (chr op)
  | _ => True
  end.

(** Every operator has, on its right, an operand that is no binary
    expression or one whose operator binds more, and on its left one that
    is no binary expression or whose operator binds at least as much. *)
Fixpoint nested_by_precedence (prec : Z -> Z) (e : ExprAST) : Prop :=
  match e with
  | BinaryExprAST op l r =>
      nested_by_precedence prec l /\ nested_by_precedence prec r /\
      match l with
      | BinaryExprAST opl _ _ => prec (chr op) <= prec (chr opl)
      | _ => True
      end /\
      match r with
      | BinaryExprAST opr _ _ => prec (chr op) < prec (chr opr)
      | _ => True
      end
  | _ => True
  end.

(** ** The lexer's tokens *)

Definition space (a : ascii) : bool := isspace (chr a).

Definition alnum (a : ascii) : bool := isalnum (chr a).

(** [a-zA-Z][a-zA-Z0-9]* *)
Definition identifier_name (id : string) : bool :=
  match id with
  | String a r => isalpha (chr a) && all_chars alnum r
  | EmptyString => false
  end.

(** The token of a name: the two keywords have tokens of their own. *)
Definition name_token (id : string) : Z :=
  if String.eqb id "def" then tok_def
  else if String.eqb id "extern" then tok_extern
  else tok_identifier.

(** The tokens that are characters: no white space, letter or digit, and
    neither '.' nor '#'. *)
Definition symbol (t : Z) : Prop :=
  0 <= t <= 255 /\ isspace t = false /\ isalnum t = false /\
  t <> chr "." /\ t <> chr "#".

(** [LastChar] holds a value of [getchar]. *)
Definition char_or_EOF (c : Z) : Prop := -1 <= c <= 255.

(** What a call of [gettok] returns and leaves behind. *)
Definition lexed (r : Z * state) : Prop :=
  char_or_EOF (LastChar r.2) /\
  (r.1 = tok_eof \/
   r.1 = tok_def /\ IdentifierStr r.2 = "def" \/
   r.1 = tok_extern /\ IdentifierStr r.2 = "extern" \/
   r.1 = tok_identifier /\ identifier_name (IdentifierStr r.2) = true /\
     IdentifierStr r.2 <> "def" /\ IdentifierStr r.2 <> "extern" \/
   r.1 = tok_number \/
   symbol r.1).

(** ** What the driver writes *)

(** The status lines of the three handlers. *)
Definition status_definition : string := "Parsed a function definition." +:+ newline.
Definition status_extern : string := "Parsed an extern" +:+ newline.
Definition status_toplevel : string := "Parsed a top-level expr" +:+ newline.

(** The state after the prompt. *)
Definition prompted (s : state) : state := (fprintf_stderr "ready> " s).2.

(** A line that a handler writes: a status, or the message of the
    failure. *)
Definition report (line : string) : Prop :=
  line = status_definition \/ line = status_extern \/ line = status_toplevel \/
  exists t, offending line t.

(** What [MainLoop] writes: a prompt for every iteration, and behind each
    prompt but the last the one line of a handler, or nothing (a ';'). *)
Inductive transcript : list string -> Prop :=
| transcript_end : transcript ["ready> "]
| transcript_semicolon out : transcript out -> transcript ("ready> " :: out)
| transcript_report line out :
    report line -> transcript out -> transcript ("ready> " :: line :: out).

(** ** Invariants of the state *)

(** [m'] is [m] with more keys, all at zero. *)
Definition table_grows (m m' : gmap ascii Z) : Prop :=
  m ⊆ m' /\ forall k v, m !! k = None -> m' !! k = Some v -> v = 0.

(** Once [getchar] has returned [EOF] nothing is left of the input, and
    [tok_eof] is current only then. *)
Definition input_consistent (s : state) : Prop :=
  (LastChar s = EOF -> stdin s = EmptyString) /\
  (CurTok s = tok_eof -> LastChar s = EOF).

(** ** Runs of the parse functions *)

(** A run of one of the parse functions that the driver and the other
    parse functions call for a whole construct, from [s] to [s'], with
    whether it returned a node. *)
Inductive toplevel_run (fuel : nat) (s : state) : bool -> state -> Prop :=
| run_expression r s' :
    ParseExpression fuel s = Some (r, s') ->
    toplevel_run fuel s (bool_decide (is_Some r)) s'
| run_definition r s' :
    ParseDefinition fuel s = Some (r, s') ->
    toplevel_run fuel s (bool_decide (is_Some r)) s'
| run_extern r s' :
    ParseExtern s = (r, s') ->
    toplevel_run fuel s (bool_decide (is_Some r)) s'
| run_toplevel r s' :
    ParseTopLevelExpr fuel s = Some (r, s') ->
    toplevel_run fuel s (bool_decide (is_Some r)) s'.

(** The functions that parse, as runs from [s] to [s']. *)
Inductive parser_run (fuel : nat) (s s' : state) : Prop :=
| run_ParseExpression r : ParseExpression fuel s = Some (r, s') -> parser_run fuel s s'
| run_ParseBinOpRHS ExprPrec LHS r :
    ParseBinOpRHS fuel ExprPrec LHS s = Some (r, s') -> parser_run fuel s s'
| run_ParsePrimary r : ParsePrimary fuel s = Some (r, s') -> parser_run fuel s s'
| run_ParsePrototype r : ParsePrototype s = (r, s') -> parser_run fuel s s'
| run_ParseDefinition r : ParseDefinition fuel s = Some (r, s') -> parser_run fuel s s'
| run_ParseExtern r : ParseExtern s = (r, s') -> parser_run fuel s s'
| run_ParseTopLevelExpr r :
    ParseTopLevelExpr fuel s = Some (r, s') -> parser_run fuel s s'
| run_MainLoop r : MainLoop fuel s = Some (r, s') -> parser_run fuel s s'.

(** ** Sentences

    The expressions of the grammar with the tree that precedence gives
    them.  An operand is a number, a variable, a call or an expression in
    parentheses; whatever its own tree is, it is one operand of the
    operators around it. *)

(** A tree over operands that are closed: an operator put in later does
    not go into an operand. *)
Inductive grouped : Type :=
| operand_of (e : ExprAST)
| group (op : ascii) (l r : grouped).

Fixpoint ungroup (g : grouped) : ExprAST :=
  match g with
  | operand_of e => e
  | group op l r => BinaryExprAST op (ungroup l) (ungroup r)
  end.

(** The next operator and operand go down the right spine as long as the
    operators there bind less than the new one. *)
Fixpoint insert_operand (prec : Z -> Z) (g : grouped) (o : Z) (x : ExprAST) : grouped :=
  match g with
  | group op l r =>
      if prec (chr op) <? prec o
      then group op l (insert_operand prec r o x)
      else group (to_char o) g (operand_of x)
  | operand_of _ => group (to_char o) g (operand_of x)
  end.

Definition grouping (prec : Z -> Z) (g : grouped) (l : list (Z * ExprAST)) : grouped :=
  fold_left (fun g p => insert_operand prec g p.1 p.2) l g.

(** The tree of an operand followed by operators, each with its operand. *)
Definition climb (prec : Z -> Z) (e0 : ExprAST) (l : list (Z * ExprAST)) : ExprAST :=
  ungroup (grouping prec (operand_of e0) l).

(** The token at the head of [ts], or [next] behind them. *)
Definition head_or (ts : list item) (next : Z) : Z :=
  match ts with
  | [] => next
  | t :: _ => tok t
  end.

Section Sentences.

Variable prec : Z -> Z.

Inductive operand : list item -> Z -> ExprAST -> Prop :=
| S_number t next :
    tok t = tok_number ->
    operand [t] next (NumberExprAST (num t))
| S_variable t next :
    tok t = tok_identifier -> next <> chr "(" ->
    operand [t] next (VariableExprAST (ident t))
| S_call_empty t lp rp next :
    tok t = tok_identifier -> tok lp = chr "(" -> tok rp = chr ")" ->
    operand [t; lp; rp] next (CallExprAST (ident t) [])
| S_call t lp ts args rp next :
    tok t = tok_identifier -> tok lp = chr "(" ->
    arguments ts args -> tok rp = chr ")" ->
    operand (t :: lp :: ts ++ [rp]) next (CallExprAST (ident t) args)
| S_paren lp ts e rp next :
    tok lp = chr "(" -> sentence ts (chr ")") e -> tok rp = chr ")" ->
    operand (lp :: ts ++ [rp]) next e

(** An operand and the operators behind it; the token that follows is no
    operator. *)
with sentence : list item -> Z -> ExprAST -> Prop :=
| S_sentence ts0 e0 ts l next :
    operand ts0 (head_or ts next) e0 -> operands ts next l -> prec next < 0 ->
    sentence (ts0 ++ ts) next (climb prec e0 l)

with operands : list item -> Z -> list (Z * ExprAST) -> Prop :=
| S_no_operand next : operands [] next []
| S_operand o tx x ts l next :
    0 < prec (tok o) -> operand tx (head_or ts next) x -> operands ts next l ->
    operands (o :: tx ++ ts) next ((tok o, x) :: l)

(** One argument or more, with commas between them and the closing
    parenthesis behind them. *)
with arguments : list item -> list ExprAST -> Prop :=
| S_last_argument ts e :
    sentence ts (chr ")") e -> arguments ts [e]
| S_argument ts e comma ts' es :
    sentence ts (chr ",") e -> tok comma = chr "," -> arguments ts' es ->
    arguments (ts ++ comma :: ts') (e :: es).

End Sentences.

(** The left operand in hand binds at least as much as the operator that
    is to come. *)
Definition group_binds_before (prec : Z -> Z) (g : grouped) (next : Z) : Prop :=
  match g with
  | group op _ _ => prec next <= prec (chr op)
  | operand_of _ => True
  end.

(** ** Programs

    A sequence of definitions, externs, expressions and semicolons, with
    what [MainLoop] writes for it: a prompt for each, a status line for
    each but the semicolons, and the prompt at the end of the input. *)
Inductive program (prec : Z -> Z) : list item -> list string -> Prop :=
| P_end : program prec [] ["ready> "]
| P_semicolon t ts out :
    tok t = chr ";" -> program prec ts out ->
    program prec (t :: ts) ("ready> " :: out)
| P_definition d tp p te e ts out :
    tok d = tok_def -> prototype_tokens tp p -> sentence prec te (head_tok ts) e ->
    program prec ts out ->
    program prec (d :: tp ++ te ++ ts) ("ready> " :: status_definition :: out)
| P_extern x tp p ts out :
    tok x = tok_extern -> prototype_tokens tp p ->
    program prec ts out ->
    program prec (x :: tp ++ ts) ("ready> " :: status_extern :: out)
| P_expression te e ts out :
    sentence prec te (head_tok ts) e ->
    program prec ts out ->
    program prec (te ++ ts) ("ready> " :: status_toplevel :: out).

(** ** Names

    A name that may stand in a tree: an identifier that is no keyword. *)
Definition name_ok (id : string) : Prop :=
  identifier_name id = true /\ id <> "def" /\ id <> "extern".

(** The names of the variables and callees of a tree. *)
Fixpoint names_ok (e : ExprAST) : Prop :=
  match e with
  | NumberExprAST _ => True
  | VariableExprAST n => name_ok n
  | BinaryExprAST _ l r => names_ok l /\ names_ok r
  | CallExprAST c args => name_ok c /\ fold_right (fun a P => names_ok a /\ P) True args
  end.

(** The lexer's part of the state as [getNextToken] leaves it: [LastChar]
    holds a value of [getchar], and with [tok_identifier] current
    [IdentifierStr] holds a name. *)
Definition lexer_ok (s : state) : Prop :=
  char_or_EOF (LastChar s) /\
  (CurTok s = tok_identifier -> name_ok (IdentifierStr s)).

(** ** Error messages *)

(** A line that is one of the messages of [LogError]. *)
Definition error_message (line : string) : Prop := exists t, offending line t.

(** One iteration of [MainLoop] on a construct: what was consumed and
    written when the construct was parsed, and an error message
    otherwise. *)
Definition handled (prec : Z -> Z) (s s1 : state) : Prop :=
  table_is prec s1 /\
  ((exists line ts,
      stderr s1 = (stderr s ++ [line])%list /\
      pending s = (ts ++ pending s1)%list /\
      forall out, program prec (pending s1) out ->
                  program prec (pending s) ("ready> " :: line :: out)) \/
   (exists msg, stderr s1 = (stderr s ++ [msg])%list /\ error_message msg)).

(** The state in which [main] ends (the initial one without fuel). *)
Definition main_state (fuel : nat) (inp : string) : state :=
  match main fuel inp with
  | Some r => r.2
  | None => initial_state inp
  end.

(** ** Writing to standard error *)

(** The state [s] with [text] written to standard error: every other
    field, the input, [LastChar] and [CurTok] among them, is as in [s]. *)
Definition written (text : string) (s : state) : state :=
  mkState (stdin s) (LastChar s) (IdentifierStr s) (NumVal s) (CurTok s)
    (BinopPrecedence s) (stderr s ++ [text])%list.

(** The argument loop of [ParseIdentifierExpr], entered in [s], has parsed
    an argument and stands in [s1] before the test of the token behind
    it; the arguments before it were each followed by a comma. *)
Inductive argument_parsed : nat -> state -> state -> Prop :=
| argument_first fuel s Arg s1 :
    ParseExpression fuel s = Some (Some Arg, s1) ->
    argument_parsed (S fuel) s s1
| argument_next fuel s Arg s1 s2 :
    ParseExpression fuel s = Some (Some Arg, s1) -> CurTok s1 = chr "," ->
    argument_parsed fuel (getNextToken s1).2 s2 ->
    argument_parsed (S fuel) s s2.

(** What a handler entered in [s] writes, and the state it leaves: the
    status line of its construct when the construct is parsed, with
    nothing logged by the parse; when the parse fails, the one message it
    has logged, which complains about the token current at the failure,
    and that token is the one the handler skips. *)
Inductive handler_writes : state -> string -> state -> Prop :=
| definition_parsed fuel s f s1 :
    CurTok s = tok_def ->
    ParseDefinition fuel s = Some (Some f, s1) -> stderr s1 = stderr s ->
    handler_writes s status_definition (written status_definition s1)
| definition_failed fuel s s1 msg :
    CurTok s = tok_def ->
    ParseDefinition fuel s = Some (None, s1) ->
    stderr s1 = (stderr s ++ [msg])%list -> offending msg (CurTok s1) ->
    handler_writes s msg (getNextToken s1).2
| extern_parsed s p s1 :
    CurTok s = tok_extern ->
    ParseExtern s = (Some p, s1) -> stderr s1 = stderr s ->
    handler_writes s status_extern (written status_extern s1)
| extern_failed s s1 msg :
    CurTok s = tok_extern ->
    ParseExtern s = (None, s1) ->
    stderr s1 = (stderr s ++ [msg])%list -> offending msg (CurTok s1) ->
    handler_writes s msg (getNextToken s1).2
| expression_parsed fuel s f s1 :
    CurTok s <> tok_eof -> CurTok s <> chr ";" ->
    CurTok s <> tok_def -> CurTok s <> tok_extern ->
    ParseTopLevelExpr fuel s = Some (Some f, s1) -> stderr s1 = stderr s ->
    handler_writes s status_toplevel (written status_toplevel s1)
| expression_failed fuel s s1 msg :
    CurTok s <> tok_eof -> CurTok s <> chr ";" ->
    CurTok s <> tok_def -> CurTok s <> tok_extern ->
    ParseTopLevelExpr fuel s = Some (None, s1) ->
    stderr s1 = (stderr s ++ [msg])%list -> offending msg (CurTok s1) ->
    handler_writes s msg (getNextToken s1).2.

(** What [MainLoop] entered in [s] writes, iteration by iteration: the
    prompt, and then nothing on a ';', the line of the handler that the
    current token selects otherwise; on [tok_eof] the prompt is the
    last line. *)
Inductive run_transcript : state -> list string -> Prop :=
| run_end s :
    CurTok s = tok_eof -> run_transcript s ["ready> "]
| run_semicolon s out :
    CurTok s = chr ";" ->
    run_transcript (getNextToken (written "ready> " s)).2 out ->
    run_transcript s ("ready> " :: out)
| run_construct s line s1 out :
    handler_writes (written "ready> " s) line s1 ->
    run_transcript s1 out ->
    run_transcript s ("ready> " :: line :: out).

(** * Properties of the lexer *)

Lemma gettok_n_EOF n s : LastChar s = EOF -> gettok_n n s = (repeat tok_eof n, s).
Proof.
  intros H. induction n as [|n IH]; simpl; [reflexivity|].
  rewrite (gettok_EOF s H). simpl. rewrite IH. reflexivity.
Qed.

Lemma gettok_symbol_eof s :
  (gettok_symbol s).1 = tok_eof -> LastChar (gettok_symbol s).2 = EOF.
Proof.
  unfold gettok_symbol. destruct (LastChar s =? EOF) eqn:E; simpl.
  - intros _. apply Z.eqb_eq, E.
  - intros H. apply Z.eqb_neq in E. unfold tok_eof, EOF in *. contradiction.
Qed.

(** [tok_eof] is returned only when the source has signalled its end. *)
Lemma gettok_eof_LastChar s : (gettok s).1 = tok_eof -> LastChar (gettok s).2 = EOF.
Proof.
  apply (gettok_elim (fun s r => r.1 = tok_eof -> LastChar r.2 = EOF)).
  clear s. intros s IH.
  destruct (isalpha _) eqn:Ea.
  { intros H. destruct (lex_identifier_left _ Ea) as [K _]. contradiction. }
  destruct (_ || _) eqn:Ed.
  { intros H. destruct (lex_number_left _ Ed) as [K _]. contradiction. }
  destruct (_ =? chr "#").
  - destruct (decide _) as [H|H]; [exact (IH H) | apply gettok_symbol_eof].
  - apply gettok_symbol_eof.
Qed.

(** After more calls than there are characters the source is exhausted. *)
Lemma gettok_n_exhausts n s :
  (chars_left s < n)%nat -> LastChar (gettok_n n s).2 = EOF.
Proof.
  revert s; induction n as [|n IH]; intros s H; [lia|]. simpl.
  destruct (Z.eq_dec (gettok s).1 tok_eof) as [E|E].
  - pose proof (gettok_eof_LastChar s E) as L.
    rewrite (gettok_n_EOF n _ L). exact L.
  - apply IH. destruct (gettok_left s) as [_ K]. specialize (K E). lia.
Qed.

(** * Properties of the precedence table *)

Lemma chr_to_char c : isascii c = true -> chr (to_char c) = c.
Proof.
  unfold isascii, to_char, chr. intros H.
  rewrite Z.mod_small by lia.
  rewrite N_ascii_embedding; [lia|].
  change 256%N with (Z.to_N 256). lia.
Qed.

Lemma chr_inj a b : chr a = chr b -> a = b.
Proof.
  intros H. rewrite <- (to_char_chr a), <- (to_char_chr b), H. reflexivity.
Qed.

Lemma map_index_value (m : gmap ascii Z) k : (map_index m k).1 = default 0 (m !! k).
Proof. unfold map_index. destruct (m !! k); reflexivity. Qed.

Lemma map_index_lookup (m : gmap ascii Z) k j :
  default 0 ((map_index m k).2 !! j) = default 0 (m !! j).
Proof.
  unfold map_index. destruct (m !! k) eqn:E; simpl; [reflexivity|].
  rewrite lookup_insert. destruct (decide (k = j)) as [->|]; [rewrite E|]; reflexivity.
Qed.

Lemma map_index_again (m : gmap ascii Z) k :
  map_index (map_index m k).2 k = map_index m k.
Proof.
  unfold map_index. destruct (m !! k) eqn:E; simpl.
  - rewrite E. reflexivity.
  - rewrite lookup_insert_eq. reflexivity.
Qed.

Lemma main_table_lookup k :
  default 0 (main_table !! k) =
  if chr k =? chr "<" then 10
  else if chr k =? chr "+" then 20
  else if chr k =? chr "-" then 20
  else if chr k =? chr "*" then 40
  else 0.
Proof.
  unfold main_table. rewrite !lookup_insert.
  repeat match goal with
  | |- context [decide (?a = k)] =>
      destruct (decide (a = k)) as [<-|?]; [reflexivity|]
  end.
  rewrite lookup_empty.
  repeat match goal with
  | |- context [chr k =? chr ?a] =>
      destruct (Z.eqb_spec (chr k) (chr a)) as [E|_];
      [apply chr_inj in E; congruence|]
  end.
  reflexivity.
Qed.

Lemma GetTokPrecedence_value s :
  (GetTokPrecedence s).1 = precedence_in (BinopPrecedence s) (CurTok s).
Proof.
  unfold GetTokPrecedence, precedence_in, map_index.
  destruct (isascii (CurTok s)); simpl; [|reflexivity].
  destruct (BinopPrecedence s !! to_char (CurTok s)) as [v|]; simpl; [|reflexivity].
  destruct (Z.leb_spec v 0), (Z.ltb_spec 0 v); simpl; try reflexivity; lia.
Qed.

Lemma GetTokPrecedence_frame s :
  let s' := (GetTokPrecedence s).2 in
  stdin s' = stdin s /\ LastChar s' = LastChar s /\ IdentifierStr s' = IdentifierStr s /\
  NumVal s' = NumVal s /\ CurTok s' = CurTok s /\ stderr s' = stderr s /\
  (forall tok, precedence_in (BinopPrecedence s') tok = precedence_in (BinopPrecedence s) tok).
Proof.
  unfold GetTokPrecedence.
  destruct (isascii (CurTok s)) eqn:E; simpl.
  2:{ repeat split; reflexivity. }
  assert (forall tok, precedence_in (map_index (BinopPrecedence s) (to_char (CurTok s))).2 tok
                      = precedence_in (BinopPrecedence s) tok) as K.
  { intros tok. unfold precedence_in. destruct (isascii tok); [|reflexivity].
    pose proof (map_index_lookup (BinopPrecedence s) (to_char (CurTok s)) (to_char tok)) as L.
    destruct (_ !! to_char tok) as [v|], (BinopPrecedence s !! to_char tok) as [w|];
      simpl in L; subst; reflexivity. }
  destruct (_ <=? 0); simpl; repeat split; try reflexivity; exact K.
Qed.

(** * Properties of the parser *)

(** ** One step of each parse function, with the state written out *)

Ltac step_eq :=
  unfold bind, read, lift, ret; cbv zeta;
  repeat first
    [ reflexivity
    | progress cbn [fst snd]
    | match goal with
      | |- context [if ?b then _ else _] => destruct b
      | |- context [match ?x with Some _ => _ | None => _ end] =>
          destruct x as [[[?|] ?]|]
      end ].

Lemma ParseNumberExpr_eq s :
  ParseNumberExpr s = Some (Some (NumberExprAST (NumVal s)), (getNextToken s).2).
Proof. reflexivity. Qed.

Lemma ParsePrimary_S fuel s :
  ParsePrimary (S fuel) s =
  if CurTok s =? tok_identifier then ParseIdentifierExpr fuel s
  else if CurTok s =? tok_number then ParseNumberExpr s
  else if CurTok s =? chr "(" then ParseParenExpr fuel s
  else Some (LogError "unknown token when expecting an expression" s).
Proof. cbn [ParsePrimary]. step_eq. Qed.

Lemma ParseParenExpr_S fuel s :
  ParseParenExpr (S fuel) s =
  match ParseExpression fuel (getNextToken s).2 with
  | None => None
  | Some (None, s1) => Some (None, s1)
  | Some (Some V, s1) =>
      if negb (CurTok s1 =? chr ")") then Some (LogError "expected ')'" s1)
      else Some (Some V, (getNextToken s1).2)
  end.
Proof. cbn [ParseParenExpr]. step_eq. Qed.

Lemma ParseIdentifierExpr_S fuel s :
  ParseIdentifierExpr (S fuel) s =
  let s1 := (getNextToken s).2 in
  if negb (CurTok s1 =? chr "(") then Some (Some (VariableExprAST (IdentifierStr s)), s1)
  else
    let s2 := (getNextToken s1).2 in
    match (if negb (CurTok s2 =? chr ")") then ParseCallArgs fuel [] s2
           else Some (Some [], s2)) with
    | None => None
    | Some (None, s3) => Some (None, s3)
    | Some (Some Args, s3) =>
        Some (Some (CallExprAST (IdentifierStr s) Args), (getNextToken s3).2)
    end.
Proof. cbn [ParseIdentifierExpr]. step_eq. Qed.

Lemma ParseCallArgs_S fuel Args s :
  ParseCallArgs (S fuel) Args s =
  match ParseExpression fuel s with
  | None => None
  | Some (None, s1) => Some (None, s1)
  | Some (Some Arg, s1) =>
      if CurTok s1 =? chr ")" then Some (Some (Args ++ [Arg])%list, s1)
      else if negb (CurTok s1 =? chr ",") then
        Some (LogError "Expected ')' or ',' in argument list" s1)
      else ParseCallArgs fuel (Args ++ [Arg])%list (getNextToken s1).2
  end.
Proof. cbn [ParseCallArgs]. step_eq. Qed.

Lemma ParseBinOpRHS_S fuel ExprPrec LHS s :
  ParseBinOpRHS (S fuel) ExprPrec LHS s =
  let g := GetTokPrecedence s in
  if g.1 <? ExprPrec then Some (Some LHS, g.2)
  else
    match ParsePrimary fuel (getNextToken g.2).2 with
    | None => None
    | Some (None, s2) => Some (None, s2)
    | Some (Some RHS, s2) =>
        let n := GetTokPrecedence s2 in
        match (if g.1 <? n.1 then ParseBinOpRHS fuel (g.1 + 1) RHS n.2
               else Some (Some RHS, n.2)) with
        | None => None
        | Some (None, s3) => Some (None, s3)
        | Some (Some RHS, s3) =>
            ParseBinOpRHS fuel ExprPrec (BinaryExprAST (to_char (CurTok g.2)) LHS RHS) s3
        end
    end.
Proof. cbn [ParseBinOpRHS]. step_eq. Qed.

Lemma ParseExpression_S fuel s :
  ParseExpression (S fuel) s =
  match ParsePrimary fuel s with
  | None => None
  | Some (None, s1) => Some (None, s1)
  | Some (Some LHS, s1) => ParseBinOpRHS fuel 0 LHS s1
  end.
Proof. cbn [ParseExpression]. step_eq. Qed.

(** ** What is left to parse *)

Lemma getNextToken_left s :
  (tokens_left (getNextToken s).2 <= tokens_left s)%nat /\
  (CurTok s <> tok_eof -> (tokens_left (getNextToken s).2 < tokens_left s)%nat).
Proof.
  unfold getNextToken, tokens_left, chars_left. simpl.
  destruct (gettok_left s) as [A B]. unfold chars_left in A, B.
  destruct (Z.eqb_spec (gettok s).1 tok_eof) as [E|E];
    destruct (Z.eqb_spec (CurTok s) tok_eof) as [F|F];
    try specialize (B E); split; intros; try contradiction; lia.
Qed.

Lemma GetTokPrecedence_left s : tokens_left (GetTokPrecedence s).2 = tokens_left s.
Proof.
  destruct (GetTokPrecedence_frame s) as (A & B & _ & _ & C & _).
  unfold tokens_left, chars_left. rewrite A, B, C. reflexivity.
Qed.

Lemma tokens_left_set_stderr s v : tokens_left (set_stderr s v) = tokens_left s.
Proof. reflexivity. Qed.

Lemma GetTokPrecedence_CurTok s : CurTok (GetTokPrecedence s).2 = CurTok s.
Proof. apply (GetTokPrecedence_frame s). Qed.

Ltac fold_getNextToken :=
  repeat match goal with
  | |- context [set_CurTok (gettok ?s).2 (gettok ?s).1] =>
      change (set_CurTok (gettok s).2 (gettok s).1) with (getNextToken s).2
  end.

Section Consumption.

Let le_left (s s' : state) : Prop := (tokens_left s' <= tokens_left s)%nat.
Let lt_left (s s' : state) : Prop := (tokens_left s' < tokens_left s)%nat.

(** No parse function gives tokens back; a primary, an expression or an
    argument list that is parsed takes at least one. *)
Lemma parse_left fuel :
  (forall s r s', ParsePrimary fuel s = Some (r, s') ->
     le_left s s' /\ (r <> None -> lt_left s s')) /\
  (forall s r s', ParseParenExpr fuel s = Some (r, s') ->
     le_left s s' /\ (r <> None -> lt_left s s')) /\
  (forall s r s', ParseIdentifierExpr fuel s = Some (r, s') ->
     le_left s s' /\ (CurTok s <> tok_eof -> lt_left s s')) /\
  (forall Args s r s', ParseCallArgs fuel Args s = Some (r, s') ->
     le_left s s' /\ (r <> None -> lt_left s s')) /\
  (forall ExprPrec LHS s r s', ParseBinOpRHS fuel ExprPrec LHS s = Some (r, s') ->
     le_left s s') /\
  (forall s r s', ParseExpression fuel s = Some (r, s') ->
     le_left s s' /\ (r <> None -> lt_left s s')).
Proof.
  subst le_left lt_left. cbv beta.
  induction fuel as [|fuel (IHp & IHpar & IHid & IHargs & IHbin & IHe)].
  { repeat split; intros; discriminate. }
  assert (forall s r s', ParsePrimary (S fuel) s = Some (r, s') ->
     (tokens_left s' <= tokens_left s)%nat /\
     (r <> None -> (tokens_left s' < tokens_left s)%nat)) as Hp.
  { intros s r s'. rewrite ParsePrimary_S.
    destruct (Z.eqb_spec (CurTok s) tok_identifier) as [E|_].
    { intros H. apply IHid in H as [A B]. split; [exact A|].
      intros _. apply B. rewrite E. discriminate. }
    destruct (Z.eqb_spec (CurTok s) tok_number) as [E|_].
    { rewrite ParseNumberExpr_eq. intros [= <- <-].
      destruct (getNextToken_left s) as [A B]. split; [exact A|].
      intros _. apply B. rewrite E. discriminate. }
    destruct (CurTok s =? chr "(").
    { apply IHpar. }
    unfold LogError. intros [= <- <-]. rewrite tokens_left_set_stderr.
    split; [lia | intros K; contradiction]. }
  assert (forall ExprPrec LHS s r s', ParseBinOpRHS (S fuel) ExprPrec LHS s = Some (r, s') ->
     (tokens_left s' <= tokens_left s)%nat) as Hbin.
  { intros ExprPrec LHS s r s'. rewrite ParseBinOpRHS_S. cbv zeta.
    pose proof (GetTokPrecedence_left s) as G.
    destruct (_ <? ExprPrec). { intros [= <- <-]. lia. }
    destruct (getNextToken_left (GetTokPrecedence s).2) as [N _].
    destruct (ParsePrimary fuel _) as [[[RHS|] s2]|] eqn:P; [|intros [= <- <-]|discriminate].
    2:{ apply IHp in P as [P _]. lia. }
    apply IHp in P as [P _].
    pose proof (GetTokPrecedence_left s2) as G2.
    destruct (_ <? _).
    - destruct (ParseBinOpRHS fuel _ RHS _) as [[[RHS'|] s3]|] eqn:B;
        [|intros [= <- <-]|discriminate]; apply IHbin in B.
      + intros H. apply IHbin in H. lia.
      + lia.
    - intros H. apply IHbin in H. lia. }
  assert (forall s r s', ParseExpression (S fuel) s = Some (r, s') ->
     (tokens_left s' <= tokens_left s)%nat /\
     (r <> None -> (tokens_left s' < tokens_left s)%nat)) as He.
  { intros s r s'. rewrite ParseExpression_S.
    destruct (ParsePrimary fuel s) as [[[LHS|] s1]|] eqn:P; [|intros [= <- <-]|discriminate].
    - apply IHp in P as [_ P]. intros H. apply IHbin in H.
      assert (Some LHS <> None) as K by discriminate. specialize (P K). lia.
    - apply IHp in P as [P _]. split; [exact P | intros K; contradiction]. }
  assert (forall Args s r s', ParseCallArgs (S fuel) Args s = Some (r, s') ->
     (tokens_left s' <= tokens_left s)%nat /\
     (r <> None -> (tokens_left s' < tokens_left s)%nat)) as Hargs.
  { intros Args s r s'. rewrite ParseCallArgs_S.
    destruct (ParseExpression fuel s) as [[[Arg|] s1]|] eqn:P; [|intros [= <- <-]|discriminate].
    2:{ apply IHe in P as [P _]. split; [exact P | intros K; contradiction]. }
    apply IHe in P as [_ P]. assert (Some Arg <> None) as K by discriminate.
    specialize (P K).
    destruct (CurTok s1 =? chr ")"). { intros [= <- <-]. split; intros; lia. }
    destruct (negb _).
    { unfold LogError. intros [= <- <-]. rewrite tokens_left_set_stderr. split; intros; lia. }
    intros H. apply IHargs in H as [H _].
    destruct (getNextToken_left s1) as [N _]. split; intros; lia. }
  repeat split; try assumption; try (eapply Hp; eassumption);
    try (eapply He; eassumption); try (eapply Hargs; eassumption).
  - (* ParseParenExpr *)
    revert H. rewrite ParseParenExpr_S.
    destruct (getNextToken_left s) as [N _].
    destruct (ParseExpression fuel _) as [[[V|] s1]|] eqn:P; [|intros [= <- <-]|discriminate].
    + apply IHe in P as [P _].
      destruct (negb _); unfold LogError; intros [= <- <-];
        [rewrite tokens_left_set_stderr; lia|]. fold_getNextToken.
      destruct (getNextToken_left s1) as [N1 _]. lia.
    + apply IHe in P as [P _]. lia.
  - revert H. rewrite ParseParenExpr_S.
    destruct (getNextToken_left s) as [N _].
    destruct (ParseExpression fuel _) as [[[V|] s1]|] eqn:P; [|intros [= <- <-]|discriminate].
    + apply IHe in P as [_ P]. assert (Some V <> None) as K by discriminate.
      specialize (P K).
      destruct (negb _); unfold LogError; intros [= <- <-]; [intros; contradiction|].
      fold_getNextToken.
      destruct (getNextToken_left s1) as [N1 _]. intros; lia.
    + intros; contradiction.
  - (* ParseIdentifierExpr *)
    revert H. rewrite ParseIdentifierExpr_S. cbv zeta.
    destruct (getNextToken_left s) as [N _].
    destruct (negb _). { intros [= <- <-]. exact N. }
    destruct (getNextToken_left (getNextToken s).2) as [N1 _].
    destruct (negb _).
    + destruct (ParseCallArgs fuel _ _) as [[[A|] s3]|] eqn:P;
        [|intros [= <- <-]|discriminate]; apply IHargs in P as [P _].
      * intros [= <- <-]. fold_getNextToken.
        destruct (getNextToken_left s3) as [N3 _]. lia.
      * lia.
    + intros [= <- <-]. fold_getNextToken.
      destruct (getNextToken_left (getNextToken (getNextToken s).2).2) as [N3 _]. lia.
  - revert H. rewrite ParseIdentifierExpr_S. cbv zeta. intros H E.
    destruct (getNextToken_left s) as [_ N]. specialize (N E). revert H.
    destruct (negb _). { intros [= <- <-]. exact N. }
    destruct (getNextToken_left (getNextToken s).2) as [N1 _].
    destruct (negb _).
    + destruct (ParseCallArgs fuel _ _) as [[[A|] s3]|] eqn:P;
        [|intros [= <- <-]|discriminate]; apply IHargs in P as [P _].
      * intros [= <- <-]. fold_getNextToken.
        destruct (getNextToken_left s3) as [N3 _]. lia.
      * lia.
    + intros [= <- <-]. fold_getNextToken.
      destruct (getNextToken_left (getNextToken (getNextToken s).2).2) as [N3 _]. lia.
Qed.

End Consumption.

(** ** Fuel *)

(** More fuel does not change a result. *)
Lemma parse_fuel_S fuel :
  (forall s r, ParsePrimary fuel s = Some r -> ParsePrimary (S fuel) s = Some r) /\
  (forall s r, ParseParenExpr fuel s = Some r -> ParseParenExpr (S fuel) s = Some r) /\
  (forall s r, ParseIdentifierExpr fuel s = Some r ->
     ParseIdentifierExpr (S fuel) s = Some r) /\
  (forall Args s r, ParseCallArgs fuel Args s = Some r ->
     ParseCallArgs (S fuel) Args s = Some r) /\
  (forall ExprPrec LHS s r, ParseBinOpRHS fuel ExprPrec LHS s = Some r ->
     ParseBinOpRHS (S fuel) ExprPrec LHS s = Some r) /\
  (forall s r, ParseExpression fuel s = Some r -> ParseExpression (S fuel) s = Some r).
Proof.
  induction fuel as [|fuel (IHp & IHpar & IHid & IHargs & IHbin & IHe)].
  { repeat split; intros; discriminate. }
  repeat split.
  - intros s r. rewrite !ParsePrimary_S.
    repeat destruct (_ =? _); auto.
  - intros s r. rewrite !ParseParenExpr_S.
    destruct (ParseExpression fuel _) as [x|] eqn:E; [|discriminate].
    rewrite (IHe _ _ E). auto.
  - intros s r. rewrite !ParseIdentifierExpr_S. cbv zeta.
    destruct (negb _); [auto|]. destruct (negb _); [|auto].
    destruct (ParseCallArgs fuel _ _) as [x|] eqn:E; [|discriminate].
    rewrite (IHargs _ _ _ E). auto.
  - intros Args s r. rewrite !ParseCallArgs_S.
    destruct (ParseExpression fuel _) as [[[Arg|] s1]|] eqn:E; [| |discriminate];
      rewrite (IHe _ _ E); [|auto].
    destruct (_ =? _); [auto|]. destruct (negb _); auto.
  - intros ExprPrec LHS s r. rewrite !ParseBinOpRHS_S. cbv zeta.
    destruct (_ <? ExprPrec); [auto|].
    destruct (ParsePrimary fuel _) as [[[RHS|] s2]|] eqn:E; [| |discriminate];
      rewrite (IHp _ _ E); [|auto].
    destruct (_ <? _); [|auto].
    destruct (ParseBinOpRHS fuel _ RHS _) as [[[RHS'|] s3]|] eqn:E'; [| |discriminate];
      rewrite (IHbin _ _ _ _ E'); auto.
  - intros s r. rewrite !ParseExpression_S.
    destruct (ParsePrimary fuel _) as [[[LHS|] s1]|] eqn:E; [| |discriminate];
      rewrite (IHp _ _ E); auto.
Qed.

Lemma ParseBinOpRHS_fuel_le fuel fuel' ExprPrec LHS s r :
  (fuel <= fuel')%nat ->
  ParseBinOpRHS fuel ExprPrec LHS s = Some r ->
  ParseBinOpRHS fuel' ExprPrec LHS s = Some r.
Proof.
  induction 1 as [|m _ IH]; [auto|]. intros H. apply parse_fuel_S, IH, H.
Qed.

Lemma ParseExpression_fuel_le fuel fuel' s r :
  (fuel <= fuel')%nat ->
  ParseExpression fuel s = Some r -> ParseExpression fuel' s = Some r.
Proof.
  induction 1 as [|m _ IH]; [auto|]. intros H. apply parse_fuel_S, IH, H.
Qed.

Lemma ParsePrimary_fuel_le fuel fuel' s r :
  (fuel <= fuel')%nat ->
  ParsePrimary fuel s = Some r -> ParsePrimary fuel' s = Some r.
Proof.
  induction 1 as [|m _ IH]; [auto|]. intros H. apply parse_fuel_S, IH, H.
Qed.

(** Fuel that is enough: three units for each token left, and two. *)
Lemma parse_fuel_enough fuel :
  (forall s, (3 * tokens_left s + 1 <= fuel)%nat -> ParsePrimary fuel s <> None) /\
  (forall s, CurTok s <> tok_eof -> (3 * tokens_left s <= fuel)%nat ->
     ParseParenExpr fuel s <> None) /\
  (forall s, CurTok s <> tok_eof -> (3 * tokens_left s <= fuel)%nat ->
     ParseIdentifierExpr fuel s <> None) /\
  (forall Args s, (3 * tokens_left s + 3 <= fuel)%nat ->
     ParseCallArgs fuel Args s <> None) /\
  (forall ExprPrec LHS s, (3 * tokens_left s + 2 <= fuel)%nat ->
     ParseBinOpRHS fuel ExprPrec LHS s <> None) /\
  (forall s, (3 * tokens_left s + 2 <= fuel)%nat -> ParseExpression fuel s <> None).
Proof.
  induction fuel as [|fuel (IHp & IHpar & IHid & IHargs & IHbin & IHe)].
  { repeat split; intros; try lia.
    all: assert (tokens_left s <> 0)%nat by (unfold tokens_left;
           destruct (Z.eqb_spec (CurTok s) tok_eof); [contradiction | lia]); lia. }
  destruct (parse_left fuel) as (Lp & Lpar & Lid & Largs & Lbin & Le).
  repeat split.
  - intros s F. rewrite ParsePrimary_S.
    destruct (Z.eqb_spec (CurTok s) tok_identifier) as [E|_].
    { apply IHid; [rewrite E; discriminate | lia]. }
    destruct (Z.eqb_spec (CurTok s) tok_number) as [E|_]; [discriminate|].
    destruct (Z.eqb_spec (CurTok s) (chr "(")) as [E|_]; [|discriminate].
    apply IHpar; [rewrite E; discriminate | lia].
  - intros s C F. rewrite ParseParenExpr_S.
    destruct (getNextToken_left s) as [_ N]. specialize (N C).
    destruct (ParseExpression fuel _) as [[[V|] s1]|] eqn:E; try discriminate.
    + destruct (negb _); discriminate.
    + exfalso. revert E. apply IHe. lia.
  - intros s C F. rewrite ParseIdentifierExpr_S. cbv zeta.
    destruct (getNextToken_left s) as [_ N]. specialize (N C).
    destruct (Z.eqb_spec (CurTok (getNextToken s).2) (chr "(")) as [E|_];
      cbn [negb]; cbv iota; [|discriminate].
    destruct (getNextToken_left (getNextToken s).2) as [_ N1].
    assert (CurTok (getNextToken s).2 <> tok_eof) as C1 by (rewrite E; discriminate).
    specialize (N1 C1).
    destruct (negb _); [|discriminate].
    destruct (ParseCallArgs fuel _ _) as [[[A|] s3]|] eqn:P; try discriminate.
    exfalso. revert P. apply IHargs. lia.
  - intros Args s F. rewrite ParseCallArgs_S.
    destruct (ParseExpression fuel s) as [[[Arg|] s1]|] eqn:E; try discriminate.
    2:{ exfalso. revert E. apply IHe. lia. }
    apply Le in E as [_ E]. assert (Some Arg <> None) as K by discriminate.
    specialize (E K).
    destruct (Z.eqb_spec (CurTok s1) (chr ")")) as [_|_]; [discriminate|].
    destruct (Z.eqb_spec (CurTok s1) (chr ",")) as [C|_];
      cbn [negb]; cbv iota; [|discriminate].
    destruct (getNextToken_left s1) as [_ N].
    assert (CurTok s1 <> tok_eof) as C1 by (rewrite C; discriminate).
    specialize (N C1). apply IHargs. lia.
  - intros ExprPrec LHS s F. rewrite ParseBinOpRHS_S. cbv zeta.
    pose proof (GetTokPrecedence_left s) as G.
    destruct (_ <? ExprPrec); [discriminate|].
    destruct (getNextToken_left (GetTokPrecedence s).2) as [N _].
    destruct (ParsePrimary fuel _) as [[[RHS|] s2]|] eqn:P; try discriminate.
    2:{ exfalso. revert P. apply IHp. lia. }
    apply Lp in P as [_ P]. assert (Some RHS <> None) as K by discriminate.
    specialize (P K).
    pose proof (GetTokPrecedence_left s2) as G2.
    destruct (_ <? _).
    + destruct (ParseBinOpRHS fuel _ RHS _) as [[[RHS'|] s3]|] eqn:B; try discriminate.
      * apply Lbin in B. apply IHbin. lia.
      * exfalso. revert B. apply IHbin. lia.
    + apply IHbin. lia.
  - intros s F. rewrite ParseExpression_S.
    destruct (ParsePrimary fuel s) as [[[LHS|] s1]|] eqn:P; try discriminate.
    + apply Lp in P as [_ P]. assert (Some LHS <> None) as K by discriminate.
      specialize (P K). apply IHbin. lia.
    + exfalso. revert P. apply IHp. lia.
Qed.

(** ** Failure *)

(** What [gettok] leaves alone. *)
Lemma gettok_frame s :
  CurTok (gettok s).2 = CurTok s /\
  BinopPrecedence (gettok s).2 = BinopPrecedence s /\
  stderr (gettok s).2 = stderr s.
Proof.
  apply (gettok_elim (fun s r =>
    CurTok r.2 = CurTok s /\ BinopPrecedence r.2 = BinopPrecedence s /\
    stderr r.2 = stderr s)).
  clear s. intros s IH.
  destruct (isalpha _).
  { unfold lex_identifier. simpl. repeat destruct (String.eqb _ _); simpl; auto. }
  destruct (_ || _). { simpl; auto. }
  destruct (_ =? chr "#").
  - destruct (decide _) as [H|H]; [exact (IH H)|].
    unfold gettok_symbol. destruct (_ =? EOF); simpl; auto.
  - unfold gettok_symbol. destruct (_ =? EOF); simpl; auto.
Qed.

Lemma getNextToken_frame s :
  CurTok (getNextToken s).2 = (getNextToken s).1 /\
  BinopPrecedence (getNextToken s).2 = BinopPrecedence s /\
  stderr (getNextToken s).2 = stderr s.
Proof.
  destruct (gettok_frame s) as (_ & B & C). unfold getNextToken. simpl. auto.
Qed.

Lemma getNextToken_stderr s : stderr (getNextToken s).2 = stderr s.
Proof. apply getNextToken_frame. Qed.

Lemma GetTokPrecedence_stderr s : stderr (GetTokPrecedence s).2 = stderr s.
Proof. apply (GetTokPrecedence_frame s). Qed.

Lemma failed_at_stderr s1 s2 s' : stderr s1 = stderr s2 -> failed_at s1 s' -> failed_at s2 s'.
Proof. intros E (msg & A & B). exists msg. rewrite <- E. auto. Qed.

Lemma outcome_stderr {A} s1 s2 (r : option A) s' :
  stderr s1 = stderr s2 -> outcome s1 r s' -> outcome s2 r s'.
Proof.
  intros E. destruct r; simpl; [congruence | apply failed_at_stderr, E].
Qed.

Lemma LogError_failed {A} msg s :
  offending msg (CurTok s) -> failed_at s (@LogError A msg s).2.
Proof. intros H. exists msg. split; [reflexivity | exact H]. Qed.

Lemma parse_outcome fuel :
  (forall s r s', ParsePrimary fuel s = Some (r, s') -> outcome s r s') /\
  (forall s r s', ParseParenExpr fuel s = Some (r, s') -> outcome s r s') /\
  (forall s r s', ParseIdentifierExpr fuel s = Some (r, s') -> outcome s r s') /\
  (forall Args s r s', ParseCallArgs fuel Args s = Some (r, s') -> outcome s r s') /\
  (forall ExprPrec LHS s r s', ParseBinOpRHS fuel ExprPrec LHS s = Some (r, s') ->
     outcome s r s') /\
  (forall s r s', ParseExpression fuel s = Some (r, s') -> outcome s r s').
Proof.
  induction fuel as [|fuel (IHp & IHpar & IHid & IHargs & IHbin & IHe)].
  { repeat split; intros; discriminate. }
  repeat split.
  - intros s r s'. rewrite ParsePrimary_S.
    destruct (Z.eqb_spec (CurTok s) tok_identifier) as [_|E1]; [apply IHid|].
    destruct (Z.eqb_spec (CurTok s) tok_number) as [_|E2].
    { rewrite ParseNumberExpr_eq. intros [= <- <-]. fold_getNextToken. apply getNextToken_stderr. }
    destruct (Z.eqb_spec (CurTok s) (chr "(")) as [_|E3]; [apply IHpar|].
    intros [= <- <-]. apply (@LogError_failed ExprAST). left. auto.
  - intros s r s'. rewrite ParseParenExpr_S.
    destruct (ParseExpression fuel _) as [[[V|] s1]|] eqn:P; [| |discriminate];
      apply IHe in P; apply (outcome_stderr _ s _ _ (getNextToken_stderr s)) in P.
    + destruct (Z.eqb_spec (CurTok s1) (chr ")")) as [_|E]; cbn [negb]; cbv iota.
      * intros [= <- <-]. cbn [outcome] in *; fold_getNextToken. rewrite <- P. apply getNextToken_stderr.
      * intros [= <- <-]. cbn [outcome] in *; fold_getNextToken. apply (failed_at_stderr s1); [exact P|].
        apply (@LogError_failed ExprAST). right; left. auto.
    + intros [= <- <-]. exact P.
  - intros s r s'. rewrite ParseIdentifierExpr_S. cbv zeta.
    destruct (negb _). { intros [= <- <-]. fold_getNextToken. apply getNextToken_stderr. }
    assert (stderr (getNextToken (getNextToken s).2).2 = stderr s) as G.
    { rewrite !getNextToken_stderr. reflexivity. }
    destruct (negb _).
    + destruct (ParseCallArgs fuel _ _) as [[[A|] s3]|] eqn:P; [| |discriminate];
        apply IHargs in P; apply (outcome_stderr _ s _ _ G) in P; intros [= <- <-].
      * cbn [outcome] in *; fold_getNextToken. rewrite <- P. apply getNextToken_stderr.
      * exact P.
    + intros [= <- <-]. cbn [outcome]; fold_getNextToken. rewrite getNextToken_stderr. exact G.
  - intros Args s r s'. rewrite ParseCallArgs_S.
    destruct (ParseExpression fuel s) as [[[Arg|] s1]|] eqn:P; [| |discriminate];
      apply IHe in P.
    2:{ intros [= <- <-]. exact P. }
    cbn [outcome] in P.
    destruct (Z.eqb_spec (CurTok s1) (chr ")")) as [_|E1]. { intros [= <- <-]. exact P. }
    destruct (Z.eqb_spec (CurTok s1) (chr ",")) as [_|E2]; cbn [negb]; cbv iota.
    + intros H. apply IHargs in H. revert H. apply outcome_stderr.
      rewrite getNextToken_stderr. exact P.
    + intros [= <- <-]. apply (failed_at_stderr s1); [exact P|].
      apply (@LogError_failed (list ExprAST)). right; right; left. auto.
  - intros ExprPrec LHS s r s'. rewrite ParseBinOpRHS_S. cbv zeta.
    destruct (_ <? ExprPrec). { intros [= <- <-]. apply GetTokPrecedence_stderr. }
    assert (stderr (getNextToken (GetTokPrecedence s).2).2 = stderr s) as G.
    { rewrite getNextToken_stderr. apply GetTokPrecedence_stderr. }
    destruct (ParsePrimary fuel _) as [[[RHS|] s2]|] eqn:P; [| |discriminate];
      apply IHp in P; apply (outcome_stderr _ s _ _ G) in P.
    2:{ intros [= <- <-]. exact P. }
    cbn [outcome] in P.
    assert (stderr (GetTokPrecedence s2).2 = stderr s) as G2.
    { rewrite GetTokPrecedence_stderr. exact P. }
    destruct (_ <? _).
    + destruct (ParseBinOpRHS fuel _ RHS _) as [[[RHS'|] s3]|] eqn:B; [| |discriminate];
        apply IHbin in B; apply (outcome_stderr _ s _ _ G2) in B.
      * intros H. apply IHbin in H. revert H. apply outcome_stderr. exact B.
      * intros [= <- <-]. exact B.
    + intros H. apply IHbin in H. revert H. apply outcome_stderr. exact G2.
  - intros s r s'. rewrite ParseExpression_S.
    destruct (ParsePrimary fuel s) as [[[LHS|] s1]|] eqn:P; [| |discriminate];
      apply IHp in P.
    + intros H. apply IHbin in H. revert H. apply outcome_stderr. exact P.
    + intros [= <- <-]. exact P.
Qed.

(** ** Prototypes *)

Lemma ParsePrototype_args_spec s ArgNames :
  stderr (ParsePrototype_args s ArgNames).2 = stderr s /\
  CurTok (ParsePrototype_args s ArgNames).2 <> tok_identifier.
Proof.
  apply (ParsePrototype_args_elim (fun s A r =>
    stderr r.2 = stderr s /\ CurTok r.2 <> tok_identifier)).
  clear s ArgNames. intros s A IH.
  destruct (decide _) as [H|H].
  - destruct (IH H) as [I1 I2]. rewrite getNextToken_stderr in I1. auto.
  - cbn [snd]. split; [apply getNextToken_stderr|].
    destruct (getNextToken_frame s) as (C & _). rewrite C. exact H.
Qed.

Lemma ParsePrototype_outcome s : outcome s (ParsePrototype s).1 (ParsePrototype s).2.
Proof.
  unfold ParsePrototype. cbv zeta.
  destruct (Z.eqb_spec (CurTok s) tok_identifier) as [_|E1]; cbn [negb]; cbv iota.
  2:{ apply (@LogError_failed PrototypeAST). do 3 right; left. auto. }
  destruct (Z.eqb_spec (CurTok (getNextToken s).2) (chr "(")) as [_|E2];
    cbn [negb]; cbv iota.
  2:{ apply (failed_at_stderr (getNextToken s).2); [apply getNextToken_stderr|].
      apply (@LogError_failed PrototypeAST). do 4 right; left. auto. }
  destruct (ParsePrototype_args_spec (getNextToken s).2 []) as [A B].
  rewrite getNextToken_stderr in A.
  destruct (Z.eqb_spec (CurTok (ParsePrototype_args (getNextToken s).2 []).2) (chr ")"))
    as [_|E3]; cbn [negb]; cbv iota.
  - cbn [outcome fst snd]. rewrite getNextToken_stderr. exact A.
  - apply (failed_at_stderr (ParsePrototype_args (getNextToken s).2 []).2); [exact A|].
    apply (@LogError_failed PrototypeAST). do 5 right. auto.
Qed.

(** ** Numbers and comments in the lexer *)

Lemma append_nil (b : string) : EmptyString +:+ b = b.
Proof. reflexivity. Qed.

Lemma append_cons x (a b : string) : String x a +:+ b = String x (a +:+ b).
Proof. reflexivity. Qed.

Lemma append_assoc (a b c : string) : (a +:+ b) +:+ c = a +:+ (b +:+ c).
Proof.
  induction a as [|x a' IH]; [reflexivity|].
  rewrite !append_cons, IH. reflexivity.
Qed.

Lemma read_number_run num a run rest :
  all_chars numeric run = true ->
  stops_at (fun c => negb (numeric c)) rest = true ->
  read_number num (chr a) (run +:+ rest) =
  (num +:+ String a run, (getchar rest).1, (getchar rest).2).
Proof.
  revert num a. induction run as [|b run IH]; intros num a Hrun Hrest.
  - rewrite append_nil. destruct rest as [|c rest]; cbn [read_number getchar fst snd].
    + rewrite to_char_chr. reflexivity.
    + simpl in Hrest. unfold numeric in Hrest. rewrite to_char_chr.
      destruct (_ || _); [discriminate | reflexivity].
  - simpl in Hrun. apply andb_true_iff in Hrun as [Hb Hrun].
    rewrite append_cons. cbn [read_number]. unfold numeric in Hb. rewrite Hb.
    rewrite (IH _ b Hrun Hrest), to_char_chr, append_assoc. reflexivity.
Qed.

Lemma skip_space_stay last inp : isspace last = false -> skip_space last inp = (last, inp).
Proof. intros H. destruct inp; simpl; rewrite H; reflexivity. Qed.

Lemma skip_whitespace_stay s : isspace (LastChar s) = false -> skip_whitespace s = s.
Proof.
  intros H. unfold skip_whitespace. rewrite (skip_space_stay _ _ H). apply set_lexer_id.
Qed.

Lemma numeric_class a :
  numeric a = true ->
  isspace (chr a) = false /\ isalpha (chr a) = false.
Proof.
  unfold numeric, isspace, isalpha, isdigit. change (chr ".") with 46. lia.
Qed.

(** A number token: the buffered character and the run behind it go to
    [strtod]; the character after the run is buffered. *)
Lemma gettok_number s a run rest :
  LastChar s = chr a -> stdin s = run +:+ rest ->
  all_chars numeric (String a run) = true ->
  stops_at (fun c => negb (numeric c)) rest = true ->
  gettok s =
  (tok_number,
   set_NumVal (set_lexer s (getchar rest).2 (getchar rest).1) (strtod (String a run))).
Proof.
  intros HL Hin Hrun Hrest. simpl in Hrun. apply andb_true_iff in Hrun as [Ha Hrun].
  destruct (numeric_class a Ha) as [Hs Hal].
  rewrite gettok_equation_1, skip_whitespace_stay by (rewrite HL; exact Hs).
  rewrite HL, Hal. unfold numeric in Ha. rewrite Ha.
  unfold lex_number. rewrite HL, Hin, (read_number_run _ _ _ _ Hrun Hrest).
  reflexivity.
Qed.

Lemma skip_comment_line body rest :
  all_chars (fun c => negb (end_of_line c)) body = true ->
  stops_at end_of_line rest = true ->
  skip_comment (body +:+ rest) = getchar rest.
Proof.
  intros Hb Hr. induction body as [|b body IH].
  - rewrite append_nil. destruct rest as [|c rest]; [reflexivity|]. simpl in *.
    unfold end_of_line in Hr. rewrite chr_not_EOF.
    destruct (chr c =? 10), (chr c =? 13); try discriminate; reflexivity.
  - simpl in Hb. apply andb_true_iff in Hb as [H1 H2].
    rewrite append_cons. cbn [skip_comment].
    unfold end_of_line in H1. rewrite chr_not_EOF.
    destruct (chr b =? 10), (chr b =? 13); try discriminate. simpl. apply IH, H2.
Qed.

(** A comment: everything up to the end of the line is dropped and the
    lexer goes on from the end-of-line character; at the end of the
    input the token is [tok_eof]. *)
Lemma gettok_comment s body rest :
  LastChar s = chr "#" -> stdin s = body +:+ rest ->
  all_chars (fun c => negb (end_of_line c)) body = true ->
  stops_at end_of_line rest = true ->
  gettok s =
  match rest with
  | String a r => gettok (set_lexer s r (chr a))
  | EmptyString => (tok_eof, set_lexer s EmptyString EOF)
  end.
Proof.
  intros HL Hin Hb Hr.
  rewrite gettok_equation_1, skip_whitespace_stay by (rewrite HL; reflexivity).
  rewrite HL.
  change (isalpha (chr "#")) with false.
  change (isdigit (chr "#") || (chr "#" =? chr ".")) with false.
  rewrite Z.eqb_refl. cbv iota.
  unfold skip_line_comment. rewrite Hin, (skip_comment_line _ _ Hb Hr).
  destruct rest as [|a r]; cbn [getchar fst snd].
  - destruct (decide _) as [H|H]; [exfalso; apply H; reflexivity|].
    reflexivity.
  - destruct (decide _) as [H|H]; [reflexivity|].
    exfalso. apply H. cbn [LastChar set_lexer].
    pose proof (chr_range a). unfold EOF. lia.
Qed.

Lemma precedence_in_default m tok :
  precedence_in m tok =
  if isascii tok then
    (if 0 <? default 0 (m !! to_char tok) then default 0 (m !! to_char tok) else -1)
  else -1.
Proof.
  unfold precedence_in. destruct (isascii tok); [|reflexivity].
  destruct (m !! to_char tok); reflexivity.
Qed.

Lemma precedence_in_main m tok :
  table_of_main m ->
  precedence_in m tok =
  if tok =? chr "<" then 10
  else if tok =? chr "+" then 20
  else if tok =? chr "-" then 20
  else if tok =? chr "*" then 40
  else -1.
Proof.
  intros T. rewrite precedence_in_default.
  destruct (isascii tok) eqn:E.
  - rewrite T, main_table_lookup, (chr_to_char _ E).
    repeat (destruct (tok =? _); [reflexivity|]). reflexivity.
  - unfold isascii in E.
    change (chr "<") with 60; change (chr "+") with 43;
      change (chr "-") with 45; change (chr "*") with 42.
    repeat match goal with
    | |- context [tok =? ?n] => destruct (Z.eqb_spec tok n); [lia|]
    end.
    reflexivity.
Qed.

Lemma GetTokPrecedence_again s :
  GetTokPrecedence (GetTokPrecedence s).2 = GetTokPrecedence s.
Proof.
  pose proof (map_index_again (BinopPrecedence s) (to_char (CurTok s))) as A.
  destruct s as [inp lc ids nv ct m err]. unfold GetTokPrecedence in *.
  cbn [CurTok BinopPrecedence] in *.
  destruct (isascii ct) eqn:E; cbn [negb fst snd]; [|cbn; rewrite E; reflexivity].
  destruct (map_index m (to_char ct)) as [v m'] eqn:M. cbn [fst snd] in *.
  destruct (v <=? 0) eqn:L; cbn [fst snd set_BinopPrecedence CurTok BinopPrecedence];
    rewrite E, A; cbn [negb fst snd]; rewrite L; reflexivity.
Qed.

Lemma skip_space_idem last inp :
  skip_space (skip_space last inp).1 (skip_space last inp).2 = skip_space last inp.
Proof.
  revert last. induction inp as [|a r IH]; intros last; cbn [skip_space].
  - destruct (isspace last) eqn:E; cbn [fst snd skip_space]; [reflexivity|].
    rewrite E. reflexivity.
  - destruct (isspace last) eqn:E; [apply IH|].
    cbn [fst snd skip_space]. rewrite E. reflexivity.
Qed.

Lemma skip_whitespace_idem s : skip_whitespace (skip_whitespace s) = skip_whitespace s.
Proof.
  unfold skip_whitespace. cbn [LastChar stdin set_lexer].
  rewrite skip_space_idem. reflexivity.
Qed.

(** [gettok] starts by skipping white space. *)
Lemma gettok_skip_whitespace s : gettok (skip_whitespace s) = gettok s.
Proof.
  rewrite (gettok_equation_1 s), (gettok_equation_1 (skip_whitespace s)).
  rewrite skip_whitespace_idem. reflexivity.
Qed.

(** ** The tokens ahead *)

Lemma gettok_set_frame c m e s :
  gettok (set_frame s c m e) = ((gettok s).1, set_frame (gettok s).2 c m e).
Proof.
  apply (gettok_elim (fun s r => gettok (set_frame s c m e) = (r.1, set_frame r.2 c m e))).
  clear s. intros s IH. rewrite gettok_equation_1.
  change (skip_whitespace (set_frame s c m e)) with (set_frame (skip_whitespace s) c m e).
  change (LastChar (set_frame (skip_whitespace s) c m e)) with (LastChar (skip_whitespace s)).
  destruct (isalpha _).
  { unfold lex_identifier. cbn [set_frame stdin LastChar IdentifierStr set_lexer set_IdentifierStr].
    repeat destruct (String.eqb _ _); reflexivity. }
  destruct (_ || _). { reflexivity. }
  destruct (_ =? chr "#").
  - change (skip_line_comment (set_frame (skip_whitespace s) c m e))
      with (set_frame (skip_line_comment (skip_whitespace s)) c m e).
    change (LastChar (set_frame (skip_line_comment (skip_whitespace s)) c m e))
      with (LastChar (skip_line_comment (skip_whitespace s))).
    destruct (decide _) as [H|H]; [exact (IH H)|].
    unfold gettok_symbol. cbn [set_frame LastChar]. destruct (_ =? EOF); reflexivity.
  - unfold gettok_symbol. cbn [set_frame LastChar]. destruct (_ =? EOF); reflexivity.
Qed.

Lemma unread_set_frame c m e s : unread (set_frame s c m e) = unread s.
Proof.
  apply (unread_elim (fun s r => unread (set_frame s c m e) = r)).
  clear s. intros s IH. rewrite unread_equation_1, gettok_set_frame. cbn [fst snd].
  destruct (decide _) as [H|H]; [reflexivity|].
  rewrite (IH H). reflexivity.
Qed.

Lemma unread_set_CurTok s v : unread (set_CurTok s v) = unread s.
Proof. apply (unread_set_frame v (BinopPrecedence s) (stderr s)). Qed.

Lemma unread_set_BinopPrecedence s m : unread (set_BinopPrecedence s m) = unread s.
Proof. apply (unread_set_frame (CurTok s) m (stderr s)). Qed.

Lemma unread_EOF s : LastChar s = EOF -> unread s = [].
Proof.
  intros H. rewrite unread_equation_1, (gettok_EOF s H).
  destruct (decide _) as [_|K]; [reflexivity | exfalso; apply K; reflexivity].
Qed.

(** [getNextToken] makes the first unread token the current one. *)
Lemma pending_getNextToken s : pending (getNextToken s).2 = unread s.
Proof.
  unfold pending, getNextToken. cbn [fst snd CurTok set_CurTok].
  rewrite (unread_equation_1 s).
  destruct (decide _) as [E|E].
  - rewrite E. reflexivity.
  - destruct (Z.eqb_spec (gettok s).1 tok_eof) as [K|_]; [contradiction|].
    rewrite unread_set_CurTok. reflexivity.
Qed.

(** Consuming the current token. *)
Lemma pending_consume s :
  CurTok s <> tok_eof -> pending s = current_item s :: pending (getNextToken s).2.
Proof.
  intros H. rewrite pending_getNextToken. unfold pending.
  destruct (Z.eqb_spec (CurTok s) tok_eof); [contradiction | reflexivity].
Qed.

Lemma pending_set_BinopPrecedence s m : pending (set_BinopPrecedence s m) = pending s.
Proof.
  unfold pending. rewrite unread_set_BinopPrecedence. reflexivity.
Qed.

Lemma pending_GetTokPrecedence s : pending (GetTokPrecedence s).2 = pending s.
Proof.
  unfold GetTokPrecedence. destruct (isascii _); cbn [negb]; [|reflexivity].
  destruct (_ <=? 0); cbn [snd]; apply pending_set_BinopPrecedence.
Qed.

Lemma current_item_GetTokPrecedence s :
  current_item (GetTokPrecedence s).2 = current_item s.
Proof.
  destruct (GetTokPrecedence_frame s) as (_ & _ & A & B & C & _).
  unfold current_item. rewrite A, B, C. reflexivity.
Qed.

Lemma same_table_refl s : same_table s s.
Proof. intros t. reflexivity. Qed.

Lemma same_table_trans s1 s2 s3 : same_table s1 s2 -> same_table s2 s3 -> same_table s1 s3.
Proof. intros A B t. rewrite B, A. reflexivity. Qed.

Lemma same_table_getNextToken s : same_table s (getNextToken s).2.
Proof.
  intros t. destruct (getNextToken_frame s) as (_ & B & _). rewrite B. reflexivity.
Qed.

Lemma same_table_GetTokPrecedence s : same_table s (GetTokPrecedence s).2.
Proof. intros t. apply (GetTokPrecedence_frame s). Qed.

Lemma table_is_getNextToken prec s : table_is prec s -> table_is prec (getNextToken s).2.
Proof. intros T t. rewrite same_table_getNextToken. apply T. Qed.

Lemma table_is_GetTokPrecedence prec s :
  table_is prec s -> table_is prec (GetTokPrecedence s).2.
Proof. intros T t. rewrite same_table_GetTokPrecedence. apply T. Qed.

Lemma GetTokPrecedence_table_is prec s : table_is prec s -> (GetTokPrecedence s).1 = prec (CurTok s).
Proof. intros T. rewrite GetTokPrecedence_value. apply T. Qed.

Lemma precedence_in_range m t : precedence_in m t = -1 \/ 0 < precedence_in m t.
Proof.
  unfold precedence_in. destruct (isascii t); [|auto].
  destruct (m !! to_char t) as [v|]; [|auto].
  destruct (Z.ltb_spec 0 v); auto.
Qed.

Lemma precedence_in_eof m : precedence_in m tok_eof = -1.
Proof. reflexivity. Qed.

(** ** What a successful parse consumes *)

Lemma consumed_nil s s' : pending s' = pending s -> consumed s s' [].
Proof. intros H. unfold consumed. rewrite H. reflexivity. Qed.

Lemma consumed_app s1 s2 s3 t1 t2 :
  consumed s1 s2 t1 -> consumed s2 s3 t2 -> consumed s1 s3 (t1 ++ t2).
Proof.
  unfold consumed. intros -> ->. rewrite <- app_assoc. reflexivity.
Qed.

Lemma consumed_getNextToken s :
  CurTok s <> tok_eof -> consumed s (getNextToken s).2 [current_item s].
Proof. intros H. unfold consumed. rewrite (pending_consume s H). reflexivity. Qed.

Lemma consumed_GetTokPrecedence s : consumed s (GetTokPrecedence s).2 [].
Proof. apply consumed_nil, pending_GetTokPrecedence. Qed.

Section Consumes.

Variable prec : Z -> Z.

Lemma parse_consumes fuel :
  (forall s e s', table_is prec s ->
     ParsePrimary fuel s = Some (Some e, s') ->
     table_is prec s' /\
     exists ts, consumed s s' ts /\ primary_tokens prec ts (CurTok s') e) /\
  (forall s e s', table_is prec s -> CurTok s = chr "(" ->
     ParseParenExpr fuel s = Some (Some e, s') ->
     table_is prec s' /\
     exists ts, consumed s s' ts /\ primary_tokens prec ts (CurTok s') e) /\
  (forall s e s', table_is prec s -> CurTok s = tok_identifier ->
     ParseIdentifierExpr fuel s = Some (Some e, s') ->
     table_is prec s' /\
     exists ts, consumed s s' ts /\ primary_tokens prec ts (CurTok s') e) /\
  (forall Acc s Args s', table_is prec s ->
     ParseCallArgs fuel Acc s = Some (Some Args, s') ->
     table_is prec s' /\ CurTok s' = chr ")" /\
     exists ts new, consumed s s' ts /\ Args = (Acc ++ new)%list /\
                    arguments_tokens prec ts new) /\
  (forall ExprPrec LHS s e s', table_is prec s -> 0 <= ExprPrec ->
     ParseBinOpRHS fuel ExprPrec LHS s = Some (Some e, s') ->
     table_is prec s' /\ prec (CurTok s') < ExprPrec /\
     forall tl, expression_tokens prec tl (CurTok s) LHS ->
       exists ts, consumed s s' ts /\
                  expression_tokens prec (tl ++ ts) (CurTok s') e) /\
  (forall s e s', table_is prec s ->
     ParseExpression fuel s = Some (Some e, s') ->
     table_is prec s' /\ prec (CurTok s') < 0 /\
     exists ts, consumed s s' ts /\ expression_tokens prec ts (CurTok s') e).
Proof.
  induction fuel as [|fuel (IHp & IHpar & IHid & IHargs & IHbin & IHe)].
  { repeat split; intros; discriminate. }
  repeat apply conj.
  - (* ParsePrimary *)
    intros s e s' T. rewrite ParsePrimary_S.
    destruct (Z.eqb_spec (CurTok s) tok_identifier) as [E1|E1]; [apply IHid; assumption|].
    destruct (Z.eqb_spec (CurTok s) tok_number) as [E2|E2].
    { rewrite ParseNumberExpr_eq. intros [= <- <-]. fold_getNextToken.
      split; [apply table_is_getNextToken, T|].
      exists [current_item s]. split.
      - apply consumed_getNextToken. rewrite E2. discriminate.
      - apply (G_number prec (current_item s)). exact E2. }
    destruct (Z.eqb_spec (CurTok s) (chr "(")) as [E3|E3]; [apply IHpar; assumption|].
    discriminate.
  - (* ParseParenExpr *)
    intros s e s' T C. rewrite ParseParenExpr_S.
    destruct (ParseExpression fuel _) as [[[V|] s1]|] eqn:P; try discriminate.
    apply (IHe _ _ _ (table_is_getNextToken _ _ T)) in P as (T1 & _ & ts & C1 & G1).
    destruct (Z.eqb_spec (CurTok s1) (chr ")")) as [E|E]; cbn [negb]; [|discriminate].
    intros [= <- <-]. fold_getNextToken.
    split; [apply table_is_getNextToken, T1|].
    exists (current_item s :: ts ++ [current_item s1]). split.
    + apply (consumed_app s (getNextToken s).2 _ [current_item s]).
      { apply consumed_getNextToken. rewrite C. discriminate. }
      apply (consumed_app _ s1 _ ts); [exact C1|].
      apply consumed_getNextToken. rewrite E. discriminate.
    + apply G_paren; [exact C | rewrite <- E; exact G1 | exact E].
  - (* ParseIdentifierExpr *)
    intros s e s' T C. rewrite ParseIdentifierExpr_S. cbv zeta.
    assert (consumed s (getNextToken s).2 [current_item s]) as C0.
    { apply consumed_getNextToken. rewrite C. discriminate. }
    destruct (Z.eqb_spec (CurTok (getNextToken s).2) (chr "(")) as [E|E]; cbn [negb].
    2:{ intros [= <- <-]. split; [apply table_is_getNextToken, T|].
        exists [current_item s]. split; [exact C0|].
        apply (G_variable prec (current_item s)); assumption. }
    set (s1 := (getNextToken s).2) in *.
    assert (consumed s1 (getNextToken s1).2 [current_item s1]) as C1.
    { apply consumed_getNextToken. rewrite E. discriminate. }
    assert (table_is prec (getNextToken s1).2) as T2.
    { apply table_is_getNextToken, table_is_getNextToken, T. }
    set (s2 := (getNextToken s1).2) in *.
    destruct (Z.eqb_spec (CurTok s2) (chr ")")) as [E2|E2]; cbn [negb].
    + intros [= <- <-]. fold_getNextToken.
      split; [apply table_is_getNextToken, T2|].
      exists [current_item s; current_item s1; current_item s2]. split.
      * apply (consumed_app s s1 _ [current_item s] [_; _] C0).
        apply (consumed_app s1 s2 _ [current_item s1] [_] C1).
        apply consumed_getNextToken. rewrite E2. discriminate.
      * apply (G_call_empty prec (current_item s) (current_item s1) (current_item s2));
          assumption.
    + destruct (ParseCallArgs fuel _ _) as [[[A|] s3]|] eqn:P; try discriminate.
      apply (IHargs _ _ _ _ T2) in P as (T3 & E3 & ts & new & C3 & -> & G3).
      intros [= <- <-]. fold_getNextToken.
      split; [apply table_is_getNextToken, T3|].
      exists (current_item s :: current_item s1 :: ts ++ [current_item s3]). split.
      * apply (consumed_app s s1 _ [current_item s] _ C0).
        apply (consumed_app s1 s2 _ [current_item s1] _ C1).
        apply (consumed_app s2 s3 _ ts _ C3).
        apply consumed_getNextToken. rewrite E3. discriminate.
      * apply G_call; assumption.
  - (* ParseCallArgs *)
    intros Acc s Args s' T. rewrite ParseCallArgs_S.
    destruct (ParseExpression fuel s) as [[[Arg|] s1]|] eqn:P; try discriminate.
    apply (IHe _ _ _ T) in P as (T1 & _ & ts & C1 & G1).
    destruct (Z.eqb_spec (CurTok s1) (chr ")")) as [E|E].
    { intros [= <- <-]. split; [exact T1|]. split; [exact E|].
      exists ts, [Arg]. split; [exact C1|]. split; [reflexivity|].
      apply G_last_argument. rewrite <- E. exact G1. }
    destruct (Z.eqb_spec (CurTok s1) (chr ",")) as [E'|E']; cbn [negb]; [|discriminate].
    intros H.
    apply (IHargs _ _ _ _ (table_is_getNextToken _ _ T1)) in H
      as (T2 & E2 & ts' & new & C2 & -> & G2).
    split; [exact T2|]. split; [exact E2|].
    exists (ts ++ current_item s1 :: ts')%list, (Arg :: new). split; [|split].
    + apply (consumed_app s s1 _ ts _ C1).
      apply (consumed_app s1 (getNextToken s1).2 _ [current_item s1] _); [|exact C2].
      apply consumed_getNextToken. rewrite E'. discriminate.
    + rewrite <- app_assoc. reflexivity.
    + apply G_argument; [rewrite <- E'; exact G1 | exact E' | exact G2].
  - (* ParseBinOpRHS *)
    intros ExprPrec LHS s e s' T HE. rewrite ParseBinOpRHS_S. cbv zeta.
    rewrite (GetTokPrecedence_table_is prec s T).
    pose proof (table_is_GetTokPrecedence _ _ T) as Tg.
    pose proof (GetTokPrecedence_CurTok s) as Cg.
    set (g := (GetTokPrecedence s).2) in *. rewrite Cg.
    destruct (Z.ltb_spec (prec (CurTok s)) ExprPrec) as [L|L].
    { intros [= <- <-]. split; [exact Tg|]. rewrite Cg. split; [exact L|].
      intros tl Gl. exists []. split; [apply consumed_GetTokPrecedence|].
      rewrite app_nil_r. exact Gl. }
    assert (0 < prec (CurTok s)) as Hop.
    { rewrite <- (T (CurTok s)) in *.
      destruct (precedence_in_range (BinopPrecedence s) (CurTok s)); lia. }
    assert (CurTok s <> tok_eof) as Hne.
    { intros K. rewrite K, <- (T tok_eof), precedence_in_eof in Hop. lia. }
    assert (consumed s (getNextToken g).2 [current_item s]) as C0.
    { apply (consumed_app s g _ [] [_] (consumed_GetTokPrecedence s)).
      rewrite <- current_item_GetTokPrecedence. apply consumed_getNextToken.
      subst g. rewrite Cg. exact Hne. }
    destruct (ParsePrimary fuel _) as [[[RHS|] s2]|] eqn:P; try discriminate.
    apply (IHp _ _ _ (table_is_getNextToken _ _ Tg)) in P as (T2 & t2 & C2 & G2).
    rewrite (GetTokPrecedence_table_is prec s2 T2).
    pose proof (table_is_GetTokPrecedence _ _ T2) as Tn.
    pose proof (GetTokPrecedence_CurTok s2) as Cn.
    pose proof (consumed_GetTokPrecedence s2) as C2n.
    set (n := (GetTokPrecedence s2).2) in *.
    destruct (Z.ltb_spec (prec (CurTok s)) (prec (CurTok s2))) as [L2|L2].
    + destruct (ParseBinOpRHS fuel _ RHS n) as [[[RHS'|] s3]|] eqn:B; try discriminate.
      apply (IHbin _ _ _ _ _ Tn) in B as (T3 & _ & B); [|lia].
      destruct (B t2) as (t3 & C3 & G3).
      { apply G_primary. rewrite Cn. exact G2. }
      intros H. apply (IHbin _ _ _ _ _ T3 HE) in H as (T4 & L4 & H).
      split; [exact T4|]. split; [exact L4|].
      intros tl Gl.
      destruct (H (tl ++ current_item s :: t2 ++ t3)%list) as (t4 & C4 & G4).
      { apply (G_binary prec tl LHS (current_item s) (t2 ++ t3) RHS');
          [exact Gl | exact Hop | exact G3]. }
      exists (current_item s :: (t2 ++ t3) ++ t4)%list. split.
      * apply (consumed_app s _ _ [current_item s] _ C0).
        apply (consumed_app _ s3 _ (t2 ++ t3) _); [|exact C4].
        apply (consumed_app _ s2 _ t2 _ C2).
        apply (consumed_app s2 n _ [] _ C2n). exact C3.
      * rewrite <- app_assoc in G4. exact G4.
    + intros H. apply (IHbin _ _ _ _ _ Tn HE) in H as (T4 & L4 & H).
      split; [exact T4|]. split; [exact L4|].
      intros tl Gl.
      destruct (H (tl ++ current_item s :: t2)%list) as (t4 & C4 & G4).
      { apply (G_binary prec tl LHS (current_item s) t2 RHS);
          [exact Gl | exact Hop | apply G_primary; rewrite Cn; exact G2]. }
      exists (current_item s :: t2 ++ t4)%list. split.
      * apply (consumed_app s _ _ [current_item s] _ C0).
        apply (consumed_app _ s2 _ t2 _ C2).
        apply (consumed_app s2 n _ [] _ C2n). exact C4.
      * rewrite <- app_assoc in G4. exact G4.
  - (* ParseExpression *)
    intros s e s' T. rewrite ParseExpression_S.
    destruct (ParsePrimary fuel s) as [[[LHS|] s1]|] eqn:P; try discriminate.
    apply (IHp _ _ _ T) in P as (T1 & t1 & C1 & G1).
    intros H. apply (IHbin _ _ _ _ _ T1) in H as (T2 & L2 & H); [|lia].
    split; [exact T2|]. split; [exact L2|].
    destruct (H t1 (G_primary prec _ _ _ G1)) as (t2 & C2 & G2).
    exists (t1 ++ t2)%list. split; [|exact G2].
    apply (consumed_app s s1 _ t1 _ C1 C2).
Qed.

End Consumes.

Lemma ParsePrototype_args_consumes s Acc :
  BinopPrecedence (ParsePrototype_args s Acc).2 = BinopPrecedence s /\
  CurTok (ParsePrototype_args s Acc).2 <> tok_identifier /\
  exists params,
    unread s = (params ++ pending (ParsePrototype_args s Acc).2)%list /\
    Forall (fun p => tok p = tok_identifier) params /\
    (ParsePrototype_args s Acc).1 = (Acc ++ map ident params)%list.
Proof.
  apply (ParsePrototype_args_elim (fun s Acc r =>
    BinopPrecedence r.2 = BinopPrecedence s /\
    CurTok r.2 <> tok_identifier /\
    exists params,
      unread s = (params ++ pending r.2)%list /\
      Forall (fun p => tok p = tok_identifier) params /\
      r.1 = (Acc ++ map ident params)%list)).
  clear s Acc. intros s Acc IH.
  destruct (getNextToken_frame s) as (C & B & _).
  destruct (decide _) as [H|H].
  - destruct (IH H) as (B' & N & params & U & F & R).
    split; [rewrite B'; exact B|]. split; [exact N|].
    exists (current_item (getNextToken s).2 :: params). split; [|split].
    + rewrite <- pending_getNextToken. unfold pending at 1.
      rewrite C, H. change (tok_identifier =? tok_eof) with false. cbv iota.
      rewrite U. reflexivity.
    + constructor; [|exact F]. cbn [tok current_item]. rewrite C. exact H.
    + rewrite R, <- app_assoc. reflexivity.
  - cbn [fst snd]. split; [exact B|]. split; [rewrite C; exact H|].
    exists []. repeat split.
    + rewrite pending_getNextToken. reflexivity.
    + constructor.
    + rewrite app_nil_r. reflexivity.
Qed.

Lemma ParsePrototype_consumes prec s p s' :
  table_is prec s -> ParsePrototype s = (Some p, s') ->
  table_is prec s' /\ exists ts, consumed s s' ts /\ prototype_tokens ts p.
Proof.
  intros T. unfold ParsePrototype. cbv zeta.
  destruct (Z.eqb_spec (CurTok s) tok_identifier) as [E1|E1]; cbn [negb]; [|discriminate].
  set (s1 := (getNextToken s).2).
  destruct (Z.eqb_spec (CurTok s1) (chr "(")) as [E2|E2]; cbn [negb]; [|discriminate].
  destruct (ParsePrototype_args_consumes s1 []) as (B & _ & params & U & F & R).
  set (s2 := (ParsePrototype_args s1 []).2) in *.
  destruct (Z.eqb_spec (CurTok s2) (chr ")")) as [E3|E3]; cbn [negb]; [|discriminate].
  intros [= <- <-]. fold_getNextToken.
  assert (table_is prec s2) as T2.
  { intros t. rewrite B. apply (table_is_getNextToken _ _ T). }
  split; [apply table_is_getNextToken, T2|].
  exists (current_item s :: current_item s1 :: params ++ [current_item s2]). split.
  - apply (consumed_app s s1 _ [current_item s] _).
    { apply consumed_getNextToken. rewrite E1. discriminate. }
    unfold consumed. unfold pending at 1.
    rewrite E2. change (chr "(" =? tok_eof) with false. cbv iota.
    rewrite U. cbn [app]. f_equal. rewrite <- app_assoc. f_equal.
    apply pending_consume. rewrite E3. discriminate.
  - rewrite R. cbn [app]. apply (G_prototype (current_item s)); assumption.
Qed.

Lemma ParseDefinition_S fuel s :
  ParseDefinition fuel s =
  match ParsePrototype (getNextToken s).2 with
  | (None, s1) => Some (None, s1)
  | (Some Proto, s1) =>
      match ParseExpression fuel s1 with
      | None => None
      | Some (None, s2) => Some (None, s2)
      | Some (Some E, s2) => Some (Some (mkFunctionAST Proto E), s2)
      end
  end.
Proof.
  unfold ParseDefinition, bind, lift, ret. cbn [fst snd].
  destruct (ParsePrototype _) as [[P|] s1]; cbn [fst snd]; [|reflexivity].
  destruct (ParseExpression fuel s1) as [[[E|] s2]|]; reflexivity.
Qed.

Lemma ParseTopLevelExpr_S fuel s :
  ParseTopLevelExpr fuel s =
  match ParseExpression fuel s with
  | None => None
  | Some (None, s1) => Some (None, s1)
  | Some (Some E, s1) =>
      Some (Some (mkFunctionAST (mkPrototypeAST "__anon_expr" []) E), s1)
  end.
Proof.
  unfold ParseTopLevelExpr, bind, ret.
  destruct (ParseExpression fuel s) as [[[E|] s1]|]; reflexivity.
Qed.

(** ** Operator chains

    A chain is an operand followed by operators, each with its operand,
    at the level of tokens.  The operands are atoms: a number, or an
    identifier that no '(' follows. *)

Lemma CurTok_pending s : CurTok s = head_tok (pending s).
Proof.
  unfold pending. destruct (Z.eqb_spec (CurTok s) tok_eof) as [E|E]; [exact E | reflexivity].
Qed.

Lemma pending_cons s t q :
  pending s = t :: q ->
  current_item s = t /\ CurTok s <> tok_eof /\ pending (getNextToken s).2 = q.
Proof.
  intros H. assert (CurTok s <> tok_eof) as N.
  { intros E. unfold pending in H. rewrite E in H. discriminate. }
  rewrite (pending_consume s N) in H. injection H as H1 H2. auto.
Qed.

Lemma nest_app prec e l1 l2 : nest prec e (l1 ++ l2) = nest prec (nest prec e l1) l2.
Proof. apply fold_left_app. Qed.

(** Operators that bind more than the root go to its right operand. *)
Lemma nest_right prec op L R l :
  Forall (fun p => prec (chr op) < prec (tok p.1)) l ->
  nest prec (BinaryExprAST op L R) l = BinaryExprAST op L (nest prec R l).
Proof.
  revert R. induction l as [|p l IH]; intros R F; [reflexivity|].
  inversion F as [|? ? Hp Hl]; subst. cbn [nest fold_left insert_right].
  destruct (Z.ltb_spec (prec (chr op)) (prec (tok p.1))); [|lia].
  apply (IH _ Hl).
Qed.

Lemma atom_ast_leaf prec x o y :
  insert_right prec (atom_ast x) o y = BinaryExprAST (to_char (tok o)) (atom_ast x) y.
Proof. unfold atom_ast. destruct (_ =? _); reflexivity. Qed.

Lemma head_tok_chain p l rest : head_tok (chain_tail (p :: l) ++ rest) = tok p.1.
Proof. reflexivity. Qed.

Lemma table_is_ascii prec s t : table_is prec s -> 0 < prec t -> chr (to_char t) = t.
Proof.
  intros T H. apply chr_to_char. rewrite <- (T t) in H.
  unfold precedence_in in H. destruct (isascii t); [reflexivity | lia].
Qed.

(** [ParsePrimary] on an atom: the atom, and the next token current. *)
Lemma ParsePrimary_atom fuel s x q r s' :
  pending s = x :: q -> is_atom x = true -> head_tok q <> chr "(" ->
  ParsePrimary fuel s = Some (r, s') ->
  r = Some (atom_ast x) /\ s' = (getNextToken s).2.
Proof.
  intros P A N. destruct (pending_cons _ _ _ P) as (I & _ & Q).
  assert (CurTok s = tok x) as C by (rewrite <- I; reflexivity).
  destruct fuel as [|fuel]; [discriminate|]. rewrite ParsePrimary_S, C.
  unfold is_atom in A. unfold atom_ast.
  destruct (Z.eqb_spec (tok x) tok_identifier) as [E1|E1].
  - rewrite E1. change (tok_identifier =? tok_number) with false. cbv iota.
    destruct fuel as [|fuel]; [discriminate|]. rewrite ParseIdentifierExpr_S. cbv zeta.
    rewrite (CurTok_pending (getNextToken s).2), Q.
    destruct (Z.eqb_spec (head_tok q) (chr "(")) as [K|_]; [contradiction|].
    cbn [negb]. intros [= <- <-]. rewrite <- I. auto.
  - destruct (Z.eqb_spec (tok x) tok_number) as [E2|E2]; [|discriminate].
    rewrite ParseNumberExpr_eq. intros [= <- <-]. fold_getNextToken.
    rewrite <- I. auto.
Qed.

Section Chains.

Variable prec : Z -> Z.

Lemma binds_before_atom x next : binds_before prec (atom_ast x) next.
Proof. unfold atom_ast. destruct (_ =? _); exact I. Qed.

Lemma insert_right_root LHS o x :
  binds_before prec LHS (tok o) ->
  insert_right prec LHS o x = BinaryExprAST (to_char (tok o)) LHS x.
Proof.
  destruct LHS as [v|n|op L R|c a]; cbn [binds_before insert_right]; try reflexivity.
  intros H. destruct (Z.ltb_spec (prec (chr op)) (prec (tok o))); [lia | reflexivity].
Qed.

Lemma chain_follow l rest :
  Forall (operator_atom prec) l -> chain_end prec rest ->
  head_tok (chain_tail l ++ rest) <> chr "(".
Proof.
  intros F [_ E]. destruct l as [|p l]; [exact E|].
  inversion F as [|? ? (_ & N & _) _]; subst. exact N.
Qed.

Lemma ParseBinOpRHS_chain fuel :
  forall ExprPrec LHS s l rest r s',
    table_is prec s -> 0 <= ExprPrec ->
    Forall (operator_atom prec) l -> chain_end prec rest ->
    pending s = (chain_tail l ++ rest)%list ->
    binds_before prec LHS (CurTok s) ->
    ParseBinOpRHS fuel ExprPrec LHS s = Some (r, s') ->
    exists l1 l2,
      l = (l1 ++ l2)%list /\ r = Some (nest prec LHS l1) /\
      table_is prec s' /\ pending s' = (chain_tail l2 ++ rest)%list /\
      Forall (fun p => ExprPrec <= prec (tok p.1)) l1 /\
      prec (CurTok s') < ExprPrec.
Proof.
  induction fuel as [|fuel IH]; [discriminate|].
  intros ExprPrec LHS s l rest r s' T HE F End P Pre.
  rewrite ParseBinOpRHS_S. cbv zeta.
  rewrite (GetTokPrecedence_table_is prec s T).
  pose proof (table_is_GetTokPrecedence _ _ T) as Tg.
  pose proof (GetTokPrecedence_CurTok s) as Cg.
  pose proof (pending_GetTokPrecedence s) as Pg.
  set (g := (GetTokPrecedence s).2) in *. rewrite Cg.
  destruct (Z.ltb_spec (prec (CurTok s)) ExprPrec) as [L|L].
  { intros [= <- <-]. exists [], l. rewrite Cg, Pg. repeat split; auto. }
  assert (0 < prec (CurTok s)) as Hop.
  { rewrite <- (T (CurTok s)) in *.
    destruct (precedence_in_range (BinopPrecedence s) (CurTok s)); lia. }
  destruct l as [|[o x] l].
  { exfalso. destruct End as [E _]. rewrite (CurTok_pending s), P in Hop.
    cbn [chain_tail flat_map app] in Hop. lia. }
  inversion F as [|? ? (Ho & No & Ax) Fl]; subst. cbn [fst snd] in *.
  assert (CurTok s = tok o) as Co by (rewrite (CurTok_pending s), P; reflexivity).
  rewrite P in Pg. cbn [chain_tail flat_map app fst snd] in Pg.
  destruct (pending_cons _ _ _ Pg) as (_ & _ & Pn).
  fold (chain_tail l) in Pn.
  pose proof (chain_follow l rest Fl End) as Nf.
  destruct (ParsePrimary fuel _) as [[r2 s2]|] eqn:PP; [|discriminate].
  destruct (ParsePrimary_atom _ _ _ _ _ _ Pn Ax Nf PP) as (-> & ->).
  destruct (pending_cons _ _ _ Pn) as (_ & _ & P2).
  set (s2 := (getNextToken (getNextToken g).2).2) in *.
  assert (table_is prec s2) as T2.
  { apply table_is_getNextToken, table_is_getNextToken, Tg. }
  rewrite (GetTokPrecedence_table_is prec s2 T2).
  pose proof (table_is_GetTokPrecedence _ _ T2) as Tn.
  pose proof (GetTokPrecedence_CurTok s2) as Cn.
  pose proof (pending_GetTokPrecedence s2) as Pnn. rewrite P2 in Pnn.
  set (n := (GetTokPrecedence s2).2) in *.
  assert (chr (to_char (CurTok s)) = tok o) as Ho'.
  { rewrite Co. apply (table_is_ascii prec s _ T). rewrite <- Co. exact Hop. }
  assert (insert_right prec LHS o (atom_ast x)
          = BinaryExprAST (to_char (CurTok s)) LHS (atom_ast x)) as Ins.
  { rewrite insert_right_root; [rewrite Co; reflexivity | rewrite <- Co; exact Pre]. }
  destruct (Z.ltb_spec (prec (CurTok s)) (prec (CurTok s2))) as [L2|L2].
  - destruct (ParseBinOpRHS fuel _ (atom_ast x) n) as [[r3 s3]|] eqn:B; [|discriminate].
    apply (IH _ _ _ l rest _ _ Tn) in B
      as (l1' & l2' & -> & -> & T3 & P3 & F3 & L3);
      [|lia|exact Fl|exact End|exact Pnn|apply binds_before_atom].
    apply Forall_app in Fl as [Fl1 Fl2].
    intros H.
    apply (IH _ _ _ l2' rest _ _ T3 HE Fl2 End P3) in H
      as (l1'' & l2'' & -> & -> & T4 & P4 & F4 & L4).
    2:{ cbn [binds_before]. rewrite Ho', <- Co. lia. }
    exists ((o, x) :: l1' ++ l1'')%list, l2''. repeat split; auto.
    + cbn [app]. rewrite <- app_assoc. reflexivity.
    + f_equal.
      change (nest prec LHS ((o, x) :: l1' ++ l1''))
        with (nest prec (insert_right prec LHS o (atom_ast x)) (l1' ++ l1'')).
      rewrite Ins, nest_app. f_equal. symmetry. apply nest_right.
      rewrite Ho', <- Co. eapply Forall_impl; [exact F3|]. cbv beta. intros; lia.
    + constructor; [cbn [fst]; rewrite <- Co; exact L|].
      apply Forall_app. split; [|exact F4].
      eapply Forall_impl; [exact F3|]. cbv beta. intros; lia.
  - intros H.
    apply (IH _ _ _ l rest _ _ Tn HE Fl End Pnn) in H
      as (l1'' & l2'' & -> & -> & T4 & P4 & F4 & L4).
    2:{ cbn [binds_before]. rewrite Ho', <- Co. subst n. rewrite Cn. lia. }
    exists ((o, x) :: l1'')%list, l2''. repeat split; auto.
    + f_equal.
      change (nest prec LHS ((o, x) :: l1''))
        with (nest prec (insert_right prec LHS o (atom_ast x)) l1'').
      rewrite Ins. reflexivity.
    + constructor; [cbn [fst]; rewrite <- Co; exact L | exact F4].
Qed.

(** An expression that is a chain: the whole chain is taken and the tree
    is [nest]; the parser stops at what follows the chain. *)
Lemma ParseExpression_chain fuel s x0 l rest r s' :
  table_is prec s ->
  pending s = (x0 :: chain_tail l ++ rest)%list ->
  is_atom x0 = true -> Forall (operator_atom prec) l -> chain_end prec rest ->
  ParseExpression fuel s = Some (r, s') ->
  r = Some (nest prec (atom_ast x0) l) /\ pending s' = rest /\ table_is prec s'.
Proof.
  intros T P A F End. destruct fuel as [|fuel]; [discriminate|].
  rewrite ParseExpression_S.
  destruct (ParsePrimary fuel s) as [[r1 s1]|] eqn:PP; [|discriminate].
  destruct (ParsePrimary_atom _ _ _ _ _ _ P A (chain_follow l rest F End) PP) as (-> & ->).
  destruct (pending_cons _ _ _ P) as (_ & _ & P1).
  intros H.
  apply (ParseBinOpRHS_chain _ _ _ _ l rest _ _ (table_is_getNextToken _ _ T)) in H
    as (l1 & l2 & -> & -> & T' & P' & _ & L'); auto;
    [|lia|apply binds_before_atom].
  destruct l2 as [|p l2].
  - rewrite app_nil_r. auto.
  - exfalso. apply Forall_app in F as [_ F].
    inversion F as [|? ? (Ho & _) _]; subst.
    rewrite (CurTok_pending s'), P' in L'. cbn [chain_tail flat_map app head_tok] in L'. lia.
Qed.

End Chains.

(** ** The shape of the tree of a chain *)

Lemma nested_atom prec x : nested_by_precedence prec (atom_ast x).
Proof. unfold atom_ast. destruct (_ =? _); exact I. Qed.

Lemma insert_right_nested prec e o x :
  chr (to_char (tok o)) = tok o ->
  nested_by_precedence prec e ->
  nested_by_precedence prec (insert_right prec e o (atom_ast x)).
Proof.
  intros A. unfold atom_ast. set (y := if tok x =? tok_number then _ else _).
  assert (nested_by_precedence prec y /\
          forall Q : ascii -> Prop,
            match y with BinaryExprAST opr _ _ => Q opr | _ => True end) as [Hy Leaf].
  { subst y. destruct (_ =? _); split; intros; exact I. }
  induction e as [v|n|op L IHL R IHR|c a]; cbn [insert_right nested_by_precedence].
  1, 2, 4: intros _; split; [exact I|]; split; [exact Hy|]; split; [exact I|];
    apply (Leaf (fun opr => prec (chr (to_char (tok o))) < prec (chr opr))).
  intros (HL & HR & CL & CR).
  destruct (Z.ltb_spec (prec (chr op)) (prec (tok o))) as [Lt|Ge];
    cbn [nested_by_precedence].
  - split; [exact HL|]. split; [apply IHR, HR|]. split; [exact CL|].
    destruct R as [v|n|opr RL RR|c a]; cbn [insert_right]; try (rewrite A; exact Lt).
    destruct (prec (chr opr) <? prec (tok o)); [exact CR | rewrite A; exact Lt].
  - split; [auto|]. split; [exact Hy|]. split; [rewrite A; exact Ge|].
    apply (Leaf (fun opr => prec (chr (to_char (tok o))) < prec (chr opr))).
Qed.

Lemma nest_nested prec e l :
  Forall (fun p => chr (to_char (tok p.1)) = tok p.1) l ->
  nested_by_precedence prec e -> nested_by_precedence prec (nest prec e l).
Proof.
  revert e. induction l as [|p l IH]; intros e F H; [exact H|].
  inversion F as [|? ? A Fl]; subst. cbn [nest fold_left]. apply (IH _ Fl).
  apply insert_right_nested; assumption.
Qed.

(** Operators of one precedence: the chain is grouped from the left. *)
Lemma nest_equal_precedence prec p e l :
  Forall (fun q => prec (tok q.1) = p /\ chr (to_char (tok q.1)) = tok q.1) l ->
  match e with
  | BinaryExprAST op _ _ => p <= prec (chr op)
  | _ => True
  end ->
  nest prec e l = left_nest e l.
Proof.
  revert e. induction l as [|q l IH]; intros e F H; [reflexivity|].
  inversion F as [|? ? (Hp & A) Fl]; subst. cbn [nest left_nest fold_left].
  assert (insert_right prec e q.1 (atom_ast q.2)
          = BinaryExprAST (to_char (tok q.1)) e (atom_ast q.2)) as ->.
  { destruct e as [v|n|op L R|c a]; cbn [insert_right]; try reflexivity.
    destruct (Z.ltb_spec (prec (chr op)) (prec (tok q.1))); [lia | reflexivity]. }
  apply (IH _ Fl). rewrite A. lia.
Qed.

Lemma operator_atom_ascii s l :
  Forall (operator_atom (precedence_in (BinopPrecedence s))) l ->
  Forall (fun p => chr (to_char (tok p.1)) = tok p.1) l.
Proof.
  intros F. eapply Forall_impl; [exact F|]. cbv beta. intros p (H & _).
  apply (table_is_ascii (precedence_in (BinopPrecedence s)) s); [|exact H].
  intros t. reflexivity.
Qed.

(** With fuel enough, [ParseExpression] on a chain returns its tree. *)
Lemma ParseExpression_chain_enough s x0 l rest :
  pending s = (x0 :: chain_tail l ++ rest)%list ->
  is_atom x0 = true ->
  Forall (operator_atom (precedence_in (BinopPrecedence s))) l ->
  chain_end (precedence_in (BinopPrecedence s)) rest ->
  exists s',
    ParseExpression (enough_fuel s) s
    = Some (Some (nest (precedence_in (BinopPrecedence s)) (atom_ast x0) l), s') /\
    pending s' = rest.
Proof.
  intros P A F End.
  destruct (ParseExpression (enough_fuel s) s) as [[r s']|] eqn:E.
  - exists s'.
    destruct (ParseExpression_chain (precedence_in (BinopPrecedence s))
                _ _ _ _ _ _ _ (fun t => eq_refl) P A F End E) as (-> & Q & _).
    auto.
  - exfalso. revert E. apply parse_fuel_enough. unfold enough_fuel. lia.
Qed.

(** The value of [parse_as_expression] is the result for any fuel that
    gives one. *)
Lemma parse_as_expression_fuel fuel inp r :
  ParseExpression fuel (main_init inp) = Some r -> parse_as_expression inp = Some r.
Proof.
  intros H. unfold parse_as_expression.
  destruct (ParseExpression (enough_fuel (main_init inp)) (main_init inp)) as [r'|] eqn:E.
  - destruct (Nat.le_ge_cases fuel (enough_fuel (main_init inp))) as [L|L].
    + rewrite (ParseExpression_fuel_le _ _ _ _ L H) in E. symmetry. exact E.
    + rewrite (ParseExpression_fuel_le _ _ _ _ L E) in H. exact H.
  - exfalso. revert E. apply parse_fuel_enough. unfold enough_fuel. lia.
Qed.

(** ** Where a failure leaves the lexer *)

Lemma pending_set_stderr s v : pending (set_stderr s v) = pending s.
Proof.
  unfold pending. change (CurTok (set_stderr s v)) with (CurTok s).
  change (current_item (set_stderr s v)) with (current_item s).
  change (set_stderr s v) with (set_frame s (CurTok s) (BinopPrecedence s) v).
  rewrite unread_set_frame. reflexivity.
Qed.

Lemma written_frame text s :
  stdin (written text s) = stdin s /\ LastChar (written text s) = LastChar s /\
  CurTok (written text s) = CurTok s /\ pending (written text s) = pending s /\
  stderr (written text s) = (stderr s ++ [text])%list.
Proof.
  split; [reflexivity|]. split; [reflexivity|]. split; [reflexivity|].
  split; [|reflexivity]. apply (pending_set_stderr s (stderr s ++ [text])%list).
Qed.

Lemma ParseCallArgs_detects fuel s s1 :
  argument_parsed fuel s s1 ->
  CurTok s1 <> chr ")" -> CurTok s1 <> chr "," ->
  forall Acc,
    ParseCallArgs fuel Acc s
    = Some (None, written "Expected ')' or ',' in argument list" s1).
Proof.
  induction 1 as [fuel s Arg s1 P|fuel s Arg s1 s2 P C _ IH]; intros N1 N2 Acc;
    rewrite ParseCallArgs_S, P.
  - destruct (Z.eqb_spec (CurTok s1) (chr ")")) as [K|_]; [contradiction|].
    destruct (Z.eqb_spec (CurTok s1) (chr ",")) as [K|_]; [contradiction|].
    reflexivity.
  - rewrite C. change (chr "," =? chr ")") with false.
    change (negb (chr "," =? chr ",")) with false. cbv iota.
    apply IH; assumption.
Qed.

(** * The claims *)

(** C1: on every chain of atoms and operators of the table, the tree that
    [ParseExpression] returns is [nest]: each operator is put as deep on
    the right spine as the operators that bind less reach, so an operand
    on the right is an atom or has an operator that binds more, and an
    operand on the left is an atom or has an operator that binds at least
    as much.  With two operators the right one is nested below the left
    one exactly when it binds more.  "1+2*3" and "1*2+3" are instances. *)
Theorem precedence_climbing
  (s : state) (x0 : item) (l : list (item * item)) (rest : list item) :
  let prec := precedence_in (BinopPrecedence s) in
  pending s = (x0 :: chain_tail l ++ rest)%list ->
  is_atom x0 = true ->
  Forall (operator_atom prec) l ->
  chain_end prec rest ->
  (exists s',
     ParseExpression (enough_fuel s) s = Some (Some (nest prec (atom_ast x0) l), s') /\
     pending s' = rest) /\
  nested_by_precedence prec (nest prec (atom_ast x0) l) /\
  (forall o1 x1 o2 x2, l = [(o1, x1); (o2, x2)] ->
     nest prec (atom_ast x0) l =
     if prec (tok o1) <? prec (tok o2)
     then BinaryExprAST (to_char (tok o1)) (atom_ast x0)
            (BinaryExprAST (to_char (tok o2)) (atom_ast x1) (atom_ast x2))
     else BinaryExprAST (to_char (tok o2))
            (BinaryExprAST (to_char (tok o1)) (atom_ast x0) (atom_ast x1))
            (atom_ast x2)) /\
  parse_tree "1+2*3"
  = Some (Some (BinaryExprAST "+" (NumberExprAST 1)
                  (BinaryExprAST "*" (NumberExprAST 2) (NumberExprAST 3)))) /\
  parse_tree "1*2+3"
  = Some (Some (BinaryExprAST "+"
                  (BinaryExprAST "*" (NumberExprAST 1) (NumberExprAST 2))
                  (NumberExprAST 3))).
Proof.
  intros prec P A F End.
  split; [apply (ParseExpression_chain_enough s x0 l rest P A F End)|].
  split; [apply nest_nested; [apply (operator_atom_ascii s), F | apply nested_atom]|].
  split; [|split; vm_compute; reflexivity].
  intros o1 x1 o2 x2 ->.
  apply (operator_atom_ascii s) in F. inversion F as [|? ? A1 _]; subst.
  cbn [fst] in A1. cbn [nest fold_left fst snd].
  rewrite atom_ast_leaf. cbn [insert_right]. rewrite A1, atom_ast_leaf.
  reflexivity.
Qed.

Lemma precedence_climbing_witness :
  exists s',
    ParseExpression (enough_fuel (main_init "a+b*c-d")) (main_init "a+b*c-d")
    = Some (Some (BinaryExprAST "-"
                    (BinaryExprAST "+" (VariableExprAST "a")
                       (BinaryExprAST "*" (VariableExprAST "b") (VariableExprAST "c")))
                    (VariableExprAST "d")), s') /\
    pending s' = [].
Proof.
  apply (precedence_climbing (main_init "a+b*c-d")
           (mkItem tok_identifier "a" 0)
           [(mkItem (chr "+") "a" 0, mkItem tok_identifier "b" 0);
            (mkItem (chr "*") "b" 0, mkItem tok_identifier "c" 0);
            (mkItem (chr "-") "c" 0, mkItem tok_identifier "d" 0)]
           []).
  - vm_compute. reflexivity.
  - reflexivity.
  - repeat constructor; vm_compute; congruence.
  - split; vm_compute; congruence.
Defined.

(** C2: on every chain whose operators all have the same precedence, the
    tree that [ParseExpression] returns groups the chain from the left.
    "1+2+3" is an instance; its tree is not the one nested to the
    right. *)
Theorem equal_precedence_left_assoc
  (s : state) (x0 : item) (l : list (item * item)) (rest : list item) (p : Z) :
  let prec := precedence_in (BinopPrecedence s) in
  pending s = (x0 :: chain_tail l ++ rest)%list ->
  is_atom x0 = true ->
  Forall (operator_atom prec) l ->
  chain_end prec rest ->
  Forall (fun q => prec (tok q.1) = p) l ->
  (exists s',
     ParseExpression (enough_fuel s) s = Some (Some (left_nest (atom_ast x0) l), s') /\
     pending s' = rest) /\
  parse_tree "1+2+3"
  = Some (Some (BinaryExprAST "+"
                  (BinaryExprAST "+" (NumberExprAST 1) (NumberExprAST 2))
                  (NumberExprAST 3))) /\
  parse_tree "1+2+3"
  <> Some (Some (BinaryExprAST "+" (NumberExprAST 1)
                   (BinaryExprAST "+" (NumberExprAST 2) (NumberExprAST 3)))).
Proof.
  intros prec P A F End Eq.
  split; [|split; vm_compute; [reflexivity | discriminate]].
  destruct (ParseExpression_chain_enough s x0 l rest P A F End) as (s' & H & Q).
  exists s'. split; [|exact Q]. rewrite H. do 3 f_equal.
  apply (nest_equal_precedence prec p).
  - apply (operator_atom_ascii s) in F.
    apply Forall_forall. intros q Hq.
    rewrite Forall_forall in Eq. rewrite Forall_forall in F. auto.
  - unfold atom_ast. destruct (_ =? _); exact I.
Qed.

Lemma equal_precedence_left_assoc_witness :
  exists s',
    ParseExpression (enough_fuel (main_init "a-b+c-d")) (main_init "a-b+c-d")
    = Some (Some (BinaryExprAST "-"
                    (BinaryExprAST "+"
                       (BinaryExprAST "-" (VariableExprAST "a") (VariableExprAST "b"))
                       (VariableExprAST "c"))
                    (VariableExprAST "d")), s') /\
    pending s' = [].
Proof.
  apply (equal_precedence_left_assoc (main_init "a-b+c-d")
           (mkItem tok_identifier "a" 0)
           [(mkItem (chr "-") "a" 0, mkItem tok_identifier "b" 0);
            (mkItem (chr "+") "b" 0, mkItem tok_identifier "c" 0);
            (mkItem (chr "-") "c" 0, mkItem tok_identifier "d" 0)]
           [] 20).
  - vm_compute. reflexivity.
  - reflexivity.
  - repeat constructor; vm_compute; congruence.
  - split; vm_compute; congruence.
  - repeat constructor.
Defined.

(** C3, as the code has it: "foo(1," fails, but with the message of
    [ParsePrimary], which meets the end of the input where the argument
    behind the comma should start; [ParseIdentifierExpr] hands that failure
    on.  The message of the argument list is what "foo(1" fails with, and
    "(1+2" fails with the message of [ParseParenExpr].  Each time the
    parser returns, with no tree and exactly one message. *)
Theorem malformed_input_fails :
  parse_tree "foo(1," = Some None /\
  parse_messages "foo(1," = Some ["unknown token when expecting an expression"] /\
  parse_tree "foo(1" = Some None /\
  parse_messages "foo(1" = Some ["Expected ')' or ',' in argument list"] /\
  parse_tree "(1+2" = Some None /\
  parse_messages "(1+2" = Some ["expected ')'"].
Proof. repeat split; vm_compute; reflexivity. Qed.

(** C3 as stated does not hold: the one message that parsing "foo(1,"
    logs is not the message of the argument list. *)
Lemma unterminated_call_message :
  parse_messages "foo(1," = Some ["unknown token when expecting an expression"] /\
  parse_messages "foo(1," <> Some ["Expected ')' or ',' in argument list"].
Proof. split; [vm_compute; reflexivity | vm_compute; discriminate]. Qed.

(** C4: when [ParsePrimary], [ParseParenExpr], [ParseIdentifierExpr] or
    [ParsePrototype] detects a malformed construct itself, it returns
    [nullptr] in the state in which it made the test that failed, with
    its message written to standard error and nothing else changed: the
    input, [LastChar] and the current token are those of the test, so the
    offending token is still current and nothing behind it has been read.
    The state of the test is the state of entry for [ParsePrimary] and for
    a missing function name, the state in which the expression in
    parentheses returned for a missing ')', the state behind the argument
    just parsed for the argument list, and the states behind the name and
    behind the parameters for a prototype.  And whenever one of the four
    returns [nullptr], detected by itself or handed up from a sub-parse,
    exactly one message has been logged and the current token fails the
    test that the message names. *)
Theorem failure_keeps_offending_token (fuel : nat) (s s' : state) :
  (ParsePrimary fuel s = Some (None, s') \/
   ParseParenExpr fuel s = Some (None, s') \/
   ParseIdentifierExpr fuel s = Some (None, s') \/
   ParsePrototype s = (None, s') ->
   exists msg,
     stderr s' = (stderr s ++ [msg])%list /\ offending msg (CurTok s')) /\
  (CurTok s <> tok_identifier -> CurTok s <> tok_number -> CurTok s <> chr "(" ->
   ParsePrimary (S fuel) s
   = Some (None, written "unknown token when expecting an expression" s)) /\
  (forall V s1,
     ParseExpression fuel (getNextToken s).2 = Some (Some V, s1) ->
     CurTok s1 <> chr ")" ->
     ParseParenExpr (S fuel) s = Some (None, written "expected ')'" s1)) /\
  (forall s1,
     CurTok (getNextToken s).2 = chr "(" ->
     CurTok (getNextToken (getNextToken s).2).2 <> chr ")" ->
     argument_parsed fuel (getNextToken (getNextToken s).2).2 s1 ->
     CurTok s1 <> chr ")" -> CurTok s1 <> chr "," ->
     ParseIdentifierExpr (S fuel) s
     = Some (None, written "Expected ')' or ',' in argument list" s1)) /\
  (CurTok s <> tok_identifier ->
   ParsePrototype s = (None, written "Expected function name in prototype" s)) /\
  (CurTok s = tok_identifier -> CurTok (getNextToken s).2 <> chr "(" ->
   ParsePrototype s
   = (None, written "Expected '(' in prototype" (getNextToken s).2)) /\
  (CurTok s = tok_identifier -> CurTok (getNextToken s).2 = chr "(" ->
   CurTok (ParsePrototype_args (getNextToken s).2 []).2 <> chr ")" ->
   ParsePrototype s
   = (None, written "Expected ')' in prototype"
              (ParsePrototype_args (getNextToken s).2 []).2)) /\
  (forall msg s0,
     stdin (written msg s0) = stdin s0 /\ LastChar (written msg s0) = LastChar s0 /\
     CurTok (written msg s0) = CurTok s0 /\ pending (written msg s0) = pending s0 /\
     stderr (written msg s0) = (stderr s0 ++ [msg])%list).
Proof.
  repeat apply conj.
  - destruct (parse_outcome fuel) as (Op & Opar & Oid & _).
    intros [H|[H|[H|H]]].
    + exact (Op _ _ _ H).
    + exact (Opar _ _ _ H).
    + exact (Oid _ _ _ H).
    + pose proof (ParsePrototype_outcome s) as O. rewrite H in O. exact O.
  - intros N1 N2 N3. rewrite ParsePrimary_S.
    destruct (Z.eqb_spec (CurTok s) tok_identifier) as [K|_]; [contradiction|].
    destruct (Z.eqb_spec (CurTok s) tok_number) as [K|_]; [contradiction|].
    destruct (Z.eqb_spec (CurTok s) (chr "(")) as [K|_]; [contradiction|].
    reflexivity.
  - intros V s1 P N. rewrite ParseParenExpr_S, P.
    destruct (Z.eqb_spec (CurTok s1) (chr ")")) as [K|_]; [contradiction|].
    reflexivity.
  - intros s1 C N A N1 N2. rewrite ParseIdentifierExpr_S. cbv zeta.
    rewrite C. change (negb (chr "(" =? chr "(")) with false. cbv iota.
    destruct (Z.eqb_spec (CurTok (getNextToken (getNextToken s).2).2) (chr ")"))
      as [K|_]; [contradiction|].
    cbn [negb]. rewrite (ParseCallArgs_detects _ _ _ A N1 N2 []). reflexivity.
  - intros N. unfold ParsePrototype.
    destruct (Z.eqb_spec (CurTok s) tok_identifier) as [K|_]; [contradiction|].
    reflexivity.
  - intros C N. unfold ParsePrototype. cbv zeta. rewrite C.
    change (negb (tok_identifier =? tok_identifier)) with false. cbv iota.
    destruct (Z.eqb_spec (CurTok (getNextToken s).2) (chr "(")) as [K|_]; [contradiction|].
    reflexivity.
  - intros C C1 N. unfold ParsePrototype. cbv zeta. rewrite C, C1.
    change (negb (tok_identifier =? tok_identifier)) with false.
    change (negb (chr "(" =? chr "(")) with false. cbv iota.
    destruct (Z.eqb_spec (CurTok (ParsePrototype_args (getNextToken s).2 []).2) (chr ")"))
      as [K|_]; [contradiction|].
    reflexivity.
  - intros msg s0. apply written_frame.
Qed.

Lemma failure_keeps_offending_token_witness :
  ParsePrimary 20 (main_init ") 1")
  = Some (None, written "unknown token when expecting an expression" (main_init ") 1")) /\
  ParseParenExpr 20 (main_init "(1+2 3")
  = Some (None, written "expected ')'"
                  (final_state (ParseExpression 19) (getNextToken (main_init "(1+2 3")).2)) /\
  ParseIdentifierExpr 20 (main_init "f(1 2)")
  = Some (None, written "Expected ')' or ',' in argument list"
                  (final_state (ParseExpression 18)
                     (getNextToken (getNextToken (main_init "f(1 2)")).2).2)) /\
  ParsePrototype (main_init "f(x, y)")
  = (None, written "Expected ')' in prototype"
             (ParsePrototype_args (getNextToken (main_init "f(x, y)")).2 []).2).
Proof.
  split; [|split; [|split]].
  - apply (proj1 (proj2
             (failure_keeps_offending_token 19 (main_init ") 1") (main_init ") 1"))));
      vm_compute; discriminate.
  - apply (proj1 (proj2 (proj2
             (failure_keeps_offending_token 19 (main_init "(1+2 3") (main_init "(1+2 3"))))
             (BinaryExprAST "+" (NumberExprAST 1) (NumberExprAST 2))).
    + vm_compute. reflexivity.
    + vm_compute. discriminate.
  - apply (proj1 (proj2 (proj2 (proj2
             (failure_keeps_offending_token 19 (main_init "f(1 2)") (main_init "f(1 2)"))))));
      try (vm_compute; discriminate).
    + vm_compute. reflexivity.
    + apply (argument_first 18 _ (NumberExprAST 1)). vm_compute. reflexivity.
  - apply (proj1 (proj2 (proj2 (proj2 (proj2 (proj2 (proj2
             (failure_keeps_offending_token 19 (main_init "f(x, y)")
                (main_init "f(x, y)"))))))))).
    + vm_compute. reflexivity.
    + vm_compute. reflexivity.
    + vm_compute. discriminate.
Defined.

(** C5: with the table that [main] fills, [GetTokPrecedence] returns 10
    for '<', 20 for '+' and '-', 40 for '*' and -1 for every other
    current token, the negative token codes included; on any table, a
    character that is absent or mapped to a value that is not positive
    gets -1; and a second lookup of the same token returns the same result
    (and changes nothing further). *)
Theorem GetTokPrecedence_main_table (s : state) :
  table_of_main (BinopPrecedence s) ->
  (GetTokPrecedence s).1 =
    (if CurTok s =? chr "<" then 10
     else if CurTok s =? chr "+" then 20
     else if CurTok s =? chr "-" then 20
     else if CurTok s =? chr "*" then 40
     else -1) /\
  (forall t : state,
     (isascii (CurTok t) = false -> (GetTokPrecedence t).1 = -1) /\
     (BinopPrecedence t !! to_char (CurTok t) = None -> (GetTokPrecedence t).1 = -1) /\
     (forall v, BinopPrecedence t !! to_char (CurTok t) = Some v -> v <= 0 ->
        (GetTokPrecedence t).1 = -1)) /\
  table_of_main (BinopPrecedence (GetTokPrecedence s).2) /\
  GetTokPrecedence (GetTokPrecedence s).2 = GetTokPrecedence s.
Proof.
  intros T. split; [|split; [|split]].
  - rewrite GetTokPrecedence_value. apply precedence_in_main, T.
  - intros t. rewrite GetTokPrecedence_value. unfold precedence_in.
    repeat split.
    + intros ->. reflexivity.
    + intros ->. destruct (isascii _); reflexivity.
    + intros v -> Hv. destruct (isascii _); [|reflexivity].
      destruct (Z.ltb_spec 0 v); [lia | reflexivity].
  - intros k. rewrite <- T. unfold GetTokPrecedence.
    destruct (isascii (CurTok s)); [|reflexivity].
    cbv zeta. destruct (_ <=? 0); apply map_index_lookup.
  - apply GetTokPrecedence_again.
Qed.

Lemma GetTokPrecedence_main_table_witness :
  (GetTokPrecedence (main_init "*")).1 = 40.
Proof.
  apply (GetTokPrecedence_main_table (main_init "*")).
  intros k. reflexivity.
Defined.

(** C6: when the input behind white space is a maximal run of digits and
    '.' characters, [gettok] returns [tok_number] with [NumVal] the
    [strtod] value of exactly that run, and buffers the character that
    follows it; as expressions, "42" parses to [NumberExprAST 42],
    "3.14" to [NumberExprAST 3.14], and the malformed ".." to
    [NumberExprAST 0]: no failure, no message. *)
Theorem gettok_number_run (s : state) (a : ascii) (run rest : string) :
  isspace (LastChar s) = true ->
  stdin s = String a run +:+ rest ->
  all_chars numeric (String a run) = true ->
  stops_at (fun c => negb (numeric c)) rest = true ->
  gettok s =
    (tok_number,
     set_NumVal (set_lexer s (getchar rest).2 (getchar rest).1) (strtod (String a run))) /\
  parse_tree "42" = Some (Some (NumberExprAST 42)) /\
  parse_tree "3.14" = Some (Some (NumberExprAST 3.14)) /\
  parse_tree ".." = Some (Some (NumberExprAST 0)) /\
  parse_messages ".." = Some [].
Proof.
  intros Hs Hin Hrun Hrest.
  split; [|repeat split; vm_compute; reflexivity].
  pose proof Hrun as Hrun'. simpl in Hrun'. apply andb_true_iff in Hrun' as [Ha _].
  destruct (numeric_class a Ha) as [Hsp _].
  assert (skip_whitespace s = set_lexer s (run +:+ rest) (chr a)) as W.
  { unfold skip_whitespace. rewrite Hin, append_cons.
    cbn [skip_space]. rewrite Hs, (skip_space_stay _ _ Hsp). reflexivity. }
  rewrite <- gettok_skip_whitespace, W.
  rewrite (gettok_number _ a run rest); try reflexivity; assumption.
Qed.

Lemma gettok_number_run_witness :
  gettok (initial_state "3.14+x") =
  (tok_number, set_NumVal (set_lexer (initial_state "3.14+x") "x" (chr "+")) 3.14%float).
Proof.
  apply (gettok_number_run (initial_state "3.14+x") "3" ".14" "+x"); reflexivity.
Defined.

(** C7: a '#' drops every character up to, not including, the next
    newline, carriage return or end of input; lexing then goes on from
    that character, or returns [tok_eof] when the input ended inside the
    comment.  The inputs "1 # comment\n+2" and "1\n+2" give the same
    tokens and the same tree. *)
Theorem comment_transparent (s : state) (body rest : string) :
  LastChar s = chr "#" ->
  stdin s = body +:+ rest ->
  all_chars (fun c => negb (end_of_line c)) body = true ->
  stops_at end_of_line rest = true ->
  gettok s =
    match rest with
    | String a r => gettok (set_lexer s r (chr a))
    | EmptyString => (tok_eof, set_lexer s EmptyString EOF)
    end /\
  tokens_of 4 commented_input = [tok_number; chr "+"; tok_number; tok_eof] /\
  tokens_of 4 plain_input = tokens_of 4 commented_input /\
  parse_tree commented_input
    = Some (Some (BinaryExprAST "+" (NumberExprAST 1) (NumberExprAST 2))) /\
  parse_tree plain_input = parse_tree commented_input.
Proof.
  intros HL Hin Hb Hr.
  split; [apply (gettok_comment s body rest); assumption|].
  repeat split; vm_compute; reflexivity.
Qed.

Lemma comment_transparent_witness :
  gettok (set_lexer (initial_state "") (" comment" +:+ String "010" "+2") (chr "#"))
  = gettok (set_lexer (initial_state "") "+2" 10).
Proof.
  apply (comment_transparent
           (set_lexer (initial_state "") (" comment" +:+ String "010" "+2") (chr "#"))
           " comment" (String "010" "+2")); reflexivity.
Defined.

(** C8: once [getchar] has returned [EOF] (it is what [LastChar] holds),
    every further call of [gettok] returns [tok_eof] and leaves the whole
    state as it is. *)
Theorem gettok_eof_idempotent (s : state) (n : nat) :
  LastChar s = EOF -> gettok_n n s = (repeat tok_eof n, s).
Proof. apply gettok_n_EOF. Qed.

Lemma gettok_eof_idempotent_witness :
  gettok_n 3 (gettok (initial_state "x")).2
  = (repeat tok_eof 3, (gettok (initial_state "x")).2).
Proof. apply gettok_eof_idempotent. reflexivity. Defined.

(** C9: [ParseBinOpRHS] and [ParseExpression] return on every state, for
    every minimal precedence and left-hand side: with three units of fuel
    for each token left and two more they have a result, the same for all
    larger amounts of fuel.  One iteration of the loop either returns
    [LHS] as it is (the precedence of the current token is below
    [ExprPrec]), or fails with a sub-parse, or enters the next iteration
    with a wider left-hand side in a state with fewer tokens left. *)
Theorem ParseBinOpRHS_terminates (ExprPrec : Z) (LHS : ExprAST) (s : state) :
  (exists r, forall fuel, (enough_fuel s <= fuel)%nat ->
     ParseBinOpRHS fuel ExprPrec LHS s = Some r) /\
  (exists r, forall fuel, (enough_fuel s <= fuel)%nat ->
     ParseExpression fuel s = Some r) /\
  (forall fuel r, ParseBinOpRHS (S fuel) ExprPrec LHS s = Some r ->
     ((GetTokPrecedence s).1 < ExprPrec /\ r = (Some LHS, (GetTokPrecedence s).2)) \/
     (ExprPrec <= (GetTokPrecedence s).1 /\ r.1 = None /\
      (tokens_left r.2 <= tokens_left s)%nat) \/
     (ExprPrec <= (GetTokPrecedence s).1 /\
      exists RHS s',
        (tokens_left s' < tokens_left s)%nat /\
        ParseBinOpRHS fuel ExprPrec (BinaryExprAST (to_char (CurTok s)) LHS RHS) s'
        = Some r)).
Proof.
  split; [|split].
  - destruct (ParseBinOpRHS (enough_fuel s) ExprPrec LHS s) as [r|] eqn:E.
    + exists r. intros fuel F. exact (ParseBinOpRHS_fuel_le _ _ _ _ _ _ F E).
    + exfalso. revert E. apply parse_fuel_enough. unfold enough_fuel. lia.
  - destruct (ParseExpression (enough_fuel s) s) as [r|] eqn:E.
    + exists r. intros fuel F. exact (ParseExpression_fuel_le _ _ _ _ F E).
    + exfalso. revert E. apply parse_fuel_enough. unfold enough_fuel. lia.
  - intros fuel r. rewrite ParseBinOpRHS_S. cbv zeta.
    destruct (parse_left fuel) as (Lp & _ & _ & _ & Lbin & _).
    pose proof (GetTokPrecedence_left s) as G.
    destruct (Z.ltb_spec (GetTokPrecedence s).1 ExprPrec) as [L|L].
    { intros [= <-]. left. auto. }
    intros H. right. revert H.
    destruct (getNextToken_left (GetTokPrecedence s).2) as [N _].
    destruct (ParsePrimary fuel _) as [[[RHS|] s2]|] eqn:P; [| |discriminate].
    2:{ intros [= <-]. left. apply Lp in P as [P _]. cbn [fst snd].
        repeat split; [exact L | lia]. }
    apply Lp in P as [_ P]. assert (Some RHS <> None) as K by discriminate.
    specialize (P K). pose proof (GetTokPrecedence_left s2) as G2.
    rewrite GetTokPrecedence_CurTok.
    destruct (_ <? _).
    + destruct (ParseBinOpRHS fuel _ RHS _) as [[[RHS'|] s3]|] eqn:B;
        [| |discriminate]; apply Lbin in B.
      * intros H. right. split; [exact L|]. exists RHS', s3. split; [lia | exact H].
      * intros [= <-]. left. cbn [fst snd]. repeat split; [exact L | lia].
    + intros H. right. split; [exact L|]. exists RHS, (GetTokPrecedence s2).2.
      split; [lia | exact H].
Qed.

(** C10: when a parse function returns a node, the tokens it has consumed
    are a prefix of the tokens that were pending, they are exactly one
    phrase of the grammar for the node returned (its closing parenthesis
    included), and the current token is the token behind that phrase; an
    expression stops at a token that is no binary operator.
    [ParseParenExpr], [ParseIdentifierExpr], [ParseDefinition] and
    [ParseExtern] are taken where their callers call them: on '(', on an
    identifier, on [tok_def] and on [tok_extern]. *)
Theorem success_consumes_construct (fuel : nat) (s s' : state) :
  let prec := precedence_in (BinopPrecedence s) in
  (forall e, ParsePrimary fuel s = Some (Some e, s') ->
     exists ts, consumed s s' ts /\ primary_tokens prec ts (CurTok s') e) /\
  (forall e, CurTok s = chr "(" -> ParseParenExpr fuel s = Some (Some e, s') ->
     exists ts, consumed s s' ts /\ primary_tokens prec ts (CurTok s') e) /\
  (forall e, CurTok s = tok_identifier ->
     ParseIdentifierExpr fuel s = Some (Some e, s') ->
     exists ts, consumed s s' ts /\ primary_tokens prec ts (CurTok s') e) /\
  (forall e, ParseExpression fuel s = Some (Some e, s') ->
     prec (CurTok s') = -1 /\
     exists ts, consumed s s' ts /\ expression_tokens prec ts (CurTok s') e) /\
  (forall p, ParsePrototype s = (Some p, s') ->
     exists ts, consumed s s' ts /\ prototype_tokens ts p) /\
  (forall f, CurTok s = tok_def -> ParseDefinition fuel s = Some (Some f, s') ->
     prec (CurTok s') = -1 /\
     exists ts, consumed s s' ts /\ definition_tokens prec ts (CurTok s') f) /\
  (forall p, CurTok s = tok_extern -> ParseExtern s = (Some p, s') ->
     exists ts, consumed s s' ts /\ extern_tokens ts p) /\
  (forall f, ParseTopLevelExpr fuel s = Some (Some f, s') ->
     prec (CurTok s') = -1 /\
     exists ts, consumed s s' ts /\ toplevel_tokens prec ts (CurTok s') f).
Proof.
  intros prec.
  assert (table_is prec s) as T by (intros t; reflexivity).
  assert (forall t, prec t < 0 -> prec t = -1) as Hneg.
  { intros t. subst prec. cbv beta.
    destruct (precedence_in_range (BinopPrecedence s) t); lia. }
  destruct (parse_consumes prec fuel) as (Cp & Cpar & Cid & _ & _ & Ce).
  repeat apply conj.
  - intros e H. apply (Cp _ _ _ T H).
  - intros e C H. apply (Cpar _ _ _ T C H).
  - intros e C H. apply (Cid _ _ _ T C H).
  - intros e H. destruct (Ce _ _ _ T H) as (_ & L & R). auto.
  - intros p H. apply (ParsePrototype_consumes prec _ _ _ T H).
  - intros f C. rewrite ParseDefinition_S.
    destruct (ParsePrototype _) as [[P|] s1] eqn:EP; [|discriminate].
    apply (ParsePrototype_consumes prec) in EP as (T1 & tp & C1 & G1);
      [|apply table_is_getNextToken, T].
    destruct (ParseExpression fuel s1) as [[[E|] s2]|] eqn:EE; try discriminate.
    intros [= <- <-].
    destruct (Ce _ _ _ T1 EE) as (_ & L & te & C2 & G2).
    split; [auto|].
    exists (current_item s :: tp ++ te). split.
    + apply (consumed_app s (getNextToken s).2 s2 [current_item s] (tp ++ te)).
      { apply consumed_getNextToken. rewrite C. discriminate. }
      apply (consumed_app _ s1 _ tp _ C1 C2).
    + apply G_definition; assumption.
  - intros p C H. unfold ParseExtern in H.
    apply (ParsePrototype_consumes prec) in H as (_ & tp & C1 & G1);
      [|apply table_is_getNextToken, T].
    exists (current_item s :: tp). split.
    + apply (consumed_app s (getNextToken s).2 s' [current_item s] tp); [|exact C1].
      apply consumed_getNextToken. rewrite C. discriminate.
    + apply G_extern; assumption.
  - intros f. rewrite ParseTopLevelExpr_S.
    destruct (ParseExpression fuel s) as [[[E|] s1]|] eqn:EE; try discriminate.
    intros [= <- <-].
    destruct (Ce _ _ _ T EE) as (_ & L & te & C2 & G2).
    split; [auto|].
    exists te. split; [exact C2 | apply G_toplevel, G2].
Qed.

(** * Further properties *)

(** ** One step of the driver *)

Lemma HandleDefinition_eq fuel s :
  HandleDefinition fuel s =
  match ParseDefinition fuel s with
  | None => None
  | Some (Some _, s1) => Some (fprintf_stderr status_definition s1)
  | Some (None, s1) => Some (tt, (getNextToken s1).2)
  end.
Proof.
  unfold HandleDefinition, bind, lift, ret.
  destruct (ParseDefinition fuel s) as [[[f|] s1]|]; reflexivity.
Qed.

Lemma HandleExtern_eq s :
  HandleExtern s =
  match ParseExtern s with
  | (Some _, s1) => Some (fprintf_stderr status_extern s1)
  | (None, s1) => Some (tt, (getNextToken s1).2)
  end.
Proof.
  unfold HandleExtern, bind, lift, ret.
  destruct (ParseExtern s) as [[f|] s1]; reflexivity.
Qed.

Lemma HandleTopLevelExpression_eq fuel s :
  HandleTopLevelExpression fuel s =
  match ParseTopLevelExpr fuel s with
  | None => None
  | Some (Some _, s1) => Some (fprintf_stderr status_toplevel s1)
  | Some (None, s1) => Some (tt, (getNextToken s1).2)
  end.
Proof.
  unfold HandleTopLevelExpression, bind, lift, ret.
  destruct (ParseTopLevelExpr fuel s) as [[[f|] s1]|]; reflexivity.
Qed.

Lemma MainLoop_S fuel s :
  MainLoop (S fuel) s =
  if CurTok s =? tok_eof then Some (tt, prompted s)
  else if CurTok s =? chr ";" then MainLoop fuel (getNextToken (prompted s)).2
  else if CurTok s =? tok_def then
    match HandleDefinition fuel (prompted s) with
    | Some r => MainLoop fuel r.2
    | None => None
    end
  else if CurTok s =? tok_extern then
    match HandleExtern (prompted s) with
    | Some r => MainLoop fuel r.2
    | None => None
    end
  else
    match HandleTopLevelExpression fuel (prompted s) with
    | Some r => MainLoop fuel r.2
    | None => None
    end.
Proof.
  cbn [MainLoop]. unfold bind, read, lift, ret. cbn [fst snd].
  change (CurTok (fprintf_stderr "ready> " s).2) with (CurTok s).
  repeat (destruct (CurTok s =? _); [reflexivity|]). reflexivity.
Qed.

(** ** What every parse function preserves *)

Section Preservation.

Variable Inv : state -> Prop.
Hypothesis Inv_getNextToken : forall s, Inv s -> Inv (getNextToken s).2.
Hypothesis Inv_GetTokPrecedence : forall s, Inv s -> Inv (GetTokPrecedence s).2.
Hypothesis Inv_stderr : forall s v, Inv s -> Inv (set_stderr s v).

(** A property of states that the three primitive steps keep is kept by
    every parse function, whatever it returns. *)
Lemma parse_preserves fuel :
  (forall s r s', Inv s -> ParsePrimary fuel s = Some (r, s') -> Inv s') /\
  (forall s r s', Inv s -> ParseParenExpr fuel s = Some (r, s') -> Inv s') /\
  (forall s r s', Inv s -> ParseIdentifierExpr fuel s = Some (r, s') -> Inv s') /\
  (forall Args s r s', Inv s -> ParseCallArgs fuel Args s = Some (r, s') -> Inv s') /\
  (forall ExprPrec LHS s r s', Inv s ->
     ParseBinOpRHS fuel ExprPrec LHS s = Some (r, s') -> Inv s') /\
  (forall s r s', Inv s -> ParseExpression fuel s = Some (r, s') -> Inv s').
Proof using Inv_getNextToken Inv_GetTokPrecedence Inv_stderr.
  induction fuel as [|fuel (IHp & IHpar & IHid & IHargs & IHbin & IHe)].
  { repeat split; intros; discriminate. }
  repeat apply conj.
  - intros s r s' I. rewrite ParsePrimary_S.
    destruct (_ =? _); [apply IHid, I|].
    destruct (_ =? _).
    { rewrite ParseNumberExpr_eq. intros [= <- <-]. fold_getNextToken.
      apply Inv_getNextToken, I. }
    destruct (_ =? _); [apply IHpar, I|].
    unfold LogError. intros [= <- <-]. apply Inv_stderr, I.
  - intros s r s' I. rewrite ParseParenExpr_S.
    destruct (ParseExpression fuel _) as [[[V|] s1]|] eqn:P; try discriminate;
      apply IHe in P; try (apply Inv_getNextToken, I).
    + destruct (negb _); unfold LogError; intros [= <- <-]; fold_getNextToken.
      * apply Inv_stderr, P.
      * apply Inv_getNextToken, P.
    + intros [= <- <-]. exact P.
  - intros s r s' I. rewrite ParseIdentifierExpr_S. cbv zeta.
    pose proof (Inv_getNextToken _ I) as I1.
    pose proof (Inv_getNextToken _ I1) as I2.
    destruct (negb _). { intros [= <- <-]. exact I1. }
    destruct (negb _).
    + destruct (ParseCallArgs fuel _ _) as [[[A|] s3]|] eqn:P; try discriminate;
        apply (IHargs _ _ _ _ I2) in P; intros [= <- <-]; fold_getNextToken.
      * apply Inv_getNextToken, P.
      * exact P.
    + intros [= <- <-]. fold_getNextToken. apply Inv_getNextToken, I2.
  - intros Args s r s' I. rewrite ParseCallArgs_S.
    destruct (ParseExpression fuel s) as [[[Arg|] s1]|] eqn:P; try discriminate;
      apply (IHe _ _ _ I) in P.
    2:{ intros [= <- <-]. exact P. }
    destruct (_ =? _). { intros [= <- <-]. exact P. }
    destruct (negb _).
    + unfold LogError. intros [= <- <-]. apply Inv_stderr, P.
    + apply IHargs, Inv_getNextToken, P.
  - intros ExprPrec LHS s r s' I. rewrite ParseBinOpRHS_S. cbv zeta.
    pose proof (Inv_GetTokPrecedence _ I) as Ig.
    destruct (_ <? ExprPrec). { intros [= <- <-]. exact Ig. }
    destruct (ParsePrimary fuel _) as [[[RHS|] s2]|] eqn:P; try discriminate;
      apply (IHp _ _ _ (Inv_getNextToken _ Ig)) in P.
    2:{ intros [= <- <-]. exact P. }
    pose proof (Inv_GetTokPrecedence _ P) as In.
    destruct (_ <? _).
    + destruct (ParseBinOpRHS fuel _ RHS _) as [[[RHS'|] s3]|] eqn:B; try discriminate;
        apply (IHbin _ _ _ _ _ In) in B.
      * apply IHbin, B.
      * intros [= <- <-]. exact B.
    + apply IHbin, In.
  - intros s r s' I. rewrite ParseExpression_S.
    destruct (ParsePrimary fuel s) as [[[LHS|] s1]|] eqn:P; try discriminate;
      apply (IHp _ _ _ I) in P.
    + apply IHbin, P.
    + intros [= <- <-]. exact P.
Qed.

Lemma ParsePrototype_args_preserves s ArgNames :
  Inv s -> Inv (ParsePrototype_args s ArgNames).2.
Proof using Inv_getNextToken.
  apply (ParsePrototype_args_elim (fun s A r => Inv s -> Inv r.2)).
  clear s ArgNames. intros s A IH I.
  destruct (decide _) as [H|H]; [apply (IH H)|]; apply Inv_getNextToken, I.
Qed.

Lemma ParsePrototype_preserves s : Inv s -> Inv (ParsePrototype s).2.
Proof using Inv_getNextToken Inv_stderr.
  intros I. unfold ParsePrototype, LogError. cbv zeta.
  pose proof (Inv_getNextToken _ I) as I1.
  pose proof (ParsePrototype_args_preserves _ [] I1) as I2.
  destruct (negb _); [apply Inv_stderr, I|].
  destruct (negb _); [apply Inv_stderr, I1|].
  destruct (negb _); [apply Inv_stderr, I2 | apply Inv_getNextToken, I2].
Qed.

Lemma ParseDefinition_preserves fuel s r s' :
  Inv s -> ParseDefinition fuel s = Some (r, s') -> Inv s'.
Proof using Inv_getNextToken Inv_GetTokPrecedence Inv_stderr.
  intros I. rewrite ParseDefinition_S.
  pose proof (ParsePrototype_preserves _ (Inv_getNextToken _ I)) as I1.
  destruct (ParsePrototype _) as [[P|] s1]; cbn [snd] in I1.
  2:{ intros [= <- <-]. exact I1. }
  destruct (ParseExpression fuel s1) as [[[E|] s2]|] eqn:EE; try discriminate;
    apply (parse_preserves fuel) in EE; try exact I1; intros [= <- <-]; exact EE.
Qed.

Lemma ParseTopLevelExpr_preserves fuel s r s' :
  Inv s -> ParseTopLevelExpr fuel s = Some (r, s') -> Inv s'.
Proof using Inv_getNextToken Inv_GetTokPrecedence Inv_stderr.
  intros I. rewrite ParseTopLevelExpr_S.
  destruct (ParseExpression fuel s) as [[[E|] s1]|] eqn:EE; try discriminate;
    apply (parse_preserves fuel) in EE; try exact I; intros [= <- <-]; exact EE.
Qed.

Lemma HandleDefinition_preserves fuel s r s' :
  Inv s -> HandleDefinition fuel s = Some (r, s') -> Inv s'.
Proof using Inv_getNextToken Inv_GetTokPrecedence Inv_stderr.
  intros I. rewrite HandleDefinition_eq.
  destruct (ParseDefinition fuel s) as [[[f|] s1]|] eqn:E; try discriminate;
    apply (ParseDefinition_preserves _ _ _ _ I) in E;
    unfold fprintf_stderr; intros [= <- <-]; fold_getNextToken.
  - apply Inv_stderr, E.
  - apply Inv_getNextToken, E.
Qed.

Lemma HandleExtern_preserves s r s' :
  Inv s -> HandleExtern s = Some (r, s') -> Inv s'.
Proof using Inv_getNextToken Inv_stderr.
  intros I. rewrite HandleExtern_eq.
  pose proof (ParsePrototype_preserves _ (Inv_getNextToken _ I)) as E.
  fold (ParseExtern s) in E.
  destruct (ParseExtern s) as [[f|] s1]; cbn [snd] in E;
    unfold fprintf_stderr; intros [= <- <-]; fold_getNextToken.
  - apply Inv_stderr, E.
  - apply Inv_getNextToken, E.
Qed.

Lemma HandleTopLevelExpression_preserves fuel s r s' :
  Inv s -> HandleTopLevelExpression fuel s = Some (r, s') -> Inv s'.
Proof using Inv_getNextToken Inv_GetTokPrecedence Inv_stderr.
  intros I. rewrite HandleTopLevelExpression_eq.
  destruct (ParseTopLevelExpr fuel s) as [[[f|] s1]|] eqn:E; try discriminate;
    apply (ParseTopLevelExpr_preserves _ _ _ _ I) in E;
    unfold fprintf_stderr; intros [= <- <-]; fold_getNextToken.
  - apply Inv_stderr, E.
  - apply Inv_getNextToken, E.
Qed.

Lemma MainLoop_preserves fuel s r s' :
  Inv s -> MainLoop fuel s = Some (r, s') -> Inv s'.
Proof using Inv_getNextToken Inv_GetTokPrecedence Inv_stderr.
  revert s. induction fuel as [|fuel IH]; intros s I; [discriminate|].
  rewrite MainLoop_S.
  assert (Inv (prompted s)) as Ip by (apply Inv_stderr, I).
  destruct (_ =? _). { intros [= <- <-]. exact Ip. }
  destruct (_ =? _). { apply IH, Inv_getNextToken, Ip. }
  destruct (_ =? _).
  { destruct (HandleDefinition fuel _) as [[u s1]|] eqn:E; [|discriminate].
    apply IH. exact (HandleDefinition_preserves _ _ _ _ Ip E). }
  destruct (_ =? _).
  { destruct (HandleExtern _) as [[u s1]|] eqn:E; [|discriminate].
    apply IH. exact (HandleExtern_preserves _ _ _ Ip E). }
  destruct (HandleTopLevelExpression fuel _) as [[u s1]|] eqn:E; [|discriminate].
  apply IH. exact (HandleTopLevelExpression_preserves _ _ _ _ Ip E).
Qed.

End Preservation.

(** ** The precedence table during parsing *)

Lemma table_grows_refl m : table_grows m m.
Proof. split; [reflexivity | intros k v H1 H2; congruence]. Qed.

Lemma table_grows_map_index m0 m k :
  table_grows m0 m -> table_grows m0 (map_index m k).2.
Proof.
  intros [Sub New]. unfold map_index. destruct (m !! k) eqn:E; cbn [snd]; [split; assumption|].
  split.
  - etrans; [exact Sub|]. apply insert_subseteq, E.
  - intros j v H0 Hj. rewrite lookup_insert in Hj.
    destruct (decide (k = j)) as [->|N]; [congruence|]. exact (New j v H0 Hj).
Qed.

Lemma table_grows_GetTokPrecedence m0 s :
  table_grows m0 (BinopPrecedence s) ->
  table_grows m0 (BinopPrecedence (GetTokPrecedence s).2).
Proof.
  intros G. unfold GetTokPrecedence. destruct (isascii _); cbn [negb]; [|exact G].
  destruct (_ <=? 0); cbn [snd BinopPrecedence set_BinopPrecedence];
    apply table_grows_map_index, G.
Qed.

Lemma table_grows_getNextToken m0 s :
  table_grows m0 (BinopPrecedence s) ->
  table_grows m0 (BinopPrecedence (getNextToken s).2).
Proof.
  destruct (getNextToken_frame s) as (_ & B & _). rewrite B. auto.
Qed.

Lemma table_grows_precedence m m' t :
  table_grows m m' -> precedence_in m' t = precedence_in m t.
Proof.
  intros [Sub New]. unfold precedence_in. destruct (isascii t); [|reflexivity].
  destruct (m !! to_char t) as [v|] eqn:E.
  - rewrite (lookup_weaken _ _ _ _ E Sub). reflexivity.
  - destruct (m' !! to_char t) as [w|] eqn:E'; [|reflexivity].
    rewrite (New _ _ E E'). reflexivity.
Qed.

(** ** Progress of the driver *)

Lemma tokens_left_le_preserved n :
  (forall s, (tokens_left s <= n)%nat -> (tokens_left (getNextToken s).2 <= n)%nat) /\
  (forall s, (tokens_left s <= n)%nat -> (tokens_left (GetTokPrecedence s).2 <= n)%nat) /\
  (forall s v, (tokens_left s <= n)%nat -> (tokens_left (set_stderr s v) <= n)%nat).
Proof.
  repeat split.
  - intros s H. destruct (getNextToken_left s). lia.
  - intros s H. rewrite GetTokPrecedence_left. exact H.
  - intros s v H. rewrite tokens_left_set_stderr. exact H.
Qed.

Lemma chars_left_le_preserved n :
  (forall s, (chars_left s <= n)%nat -> (chars_left (getNextToken s).2 <= n)%nat) /\
  (forall s, (chars_left s <= n)%nat -> (chars_left (GetTokPrecedence s).2 <= n)%nat) /\
  (forall s v, (chars_left s <= n)%nat -> (chars_left (set_stderr s v) <= n)%nat).
Proof.
  repeat split.
  - intros s H. destruct (gettok_left s) as [L _]. unfold getNextToken.
    cbn [snd]. unfold chars_left in *. cbn [LastChar stdin set_CurTok]. lia.
  - intros s H. destruct (GetTokPrecedence_frame s) as (A & B & _).
    unfold chars_left in *. rewrite A, B. exact H.
  - intros s v H. exact H.
Qed.

Lemma ParsePrototype_left s : (tokens_left (ParsePrototype s).2 <= tokens_left s)%nat.
Proof.
  destruct (tokens_left_le_preserved (tokens_left s)) as (A & _ & C).
  apply (ParsePrototype_preserves (fun s' => (tokens_left s' <= tokens_left s)%nat) A C).
  lia.
Qed.

Lemma ParseExpression_chars_left fuel s r s' :
  ParseExpression fuel s = Some (r, s') -> (chars_left s' <= chars_left s)%nat.
Proof.
  destruct (chars_left_le_preserved (chars_left s)) as (A & B & C).
  apply (parse_preserves (fun s' => (chars_left s' <= chars_left s)%nat) A B C fuel). lia.
Qed.

Lemma tokens_left_prompted s : tokens_left (prompted s) = tokens_left s.
Proof. reflexivity. Qed.

Lemma fprintf_stderr_left text s : tokens_left (fprintf_stderr text s).2 = tokens_left s.
Proof. reflexivity. Qed.

Lemma HandleDefinition_progress fuel s r :
  CurTok s <> tok_eof -> HandleDefinition fuel s = Some r ->
  (tokens_left r.2 < tokens_left s)%nat.
Proof.
  intros C. rewrite HandleDefinition_eq, ParseDefinition_S.
  destruct (getNextToken_left s) as [_ N]. specialize (N C).
  pose proof (ParsePrototype_left (getNextToken s).2) as P.
  destruct (ParsePrototype _) as [[p|] s1]; cbn [snd] in P.
  - destruct (ParseExpression fuel s1) as [[[E|] s2]|] eqn:EE; try discriminate;
      apply parse_left in EE as [EE _]; intros [= <-]; cbn [snd]; fold_getNextToken.
    + rewrite fprintf_stderr_left. lia.
    + destruct (getNextToken_left s2). lia.
  - intros [= <-]. cbn [snd]. fold_getNextToken. destruct (getNextToken_left s1). lia.
Qed.

Lemma HandleExtern_progress s r :
  CurTok s <> tok_eof -> HandleExtern s = Some r ->
  (tokens_left r.2 < tokens_left s)%nat.
Proof.
  intros C. rewrite HandleExtern_eq. unfold ParseExtern.
  destruct (getNextToken_left s) as [_ N]. specialize (N C).
  pose proof (ParsePrototype_left (getNextToken s).2) as P.
  destruct (ParsePrototype _) as [[p|] s1]; cbn [snd] in P; intros [= <-]; cbn [snd]; fold_getNextToken.
  - rewrite fprintf_stderr_left. lia.
  - destruct (getNextToken_left s1). lia.
Qed.

Lemma HandleTopLevelExpression_progress fuel s r :
  CurTok s <> tok_eof -> HandleTopLevelExpression fuel s = Some r ->
  (tokens_left r.2 < tokens_left s)%nat.
Proof.
  intros C. rewrite HandleTopLevelExpression_eq, ParseTopLevelExpr_S.
  destruct (ParseExpression fuel s) as [[[E|] s1]|] eqn:EE; try discriminate;
    intros [= <-]; cbn [snd]; fold_getNextToken.
  - apply parse_left in EE as [_ EE]. rewrite fprintf_stderr_left.
    apply EE. discriminate.
  - pose proof (ParseExpression_chars_left _ _ _ _ EE) as Ch.
    apply parse_left in EE as [EE _].
    destruct (getNextToken_left s1) as [N1 N2].
    destruct (Z.eq_dec (CurTok s1) tok_eof) as [K|K]; [|specialize (N2 K); lia].
    unfold tokens_left in *. rewrite K in *.
    destruct (Z.eqb_spec (CurTok s) tok_eof); [contradiction|].
    change (tok_eof =? tok_eof) with true in *. cbv iota in *. lia.
Qed.

Lemma ParseDefinition_enough fuel s :
  (3 * tokens_left s + 2 <= fuel)%nat -> ParseDefinition fuel s <> None.
Proof.
  intros F. rewrite ParseDefinition_S.
  pose proof (ParsePrototype_left (getNextToken s).2) as P.
  destruct (getNextToken_left s) as [N _].
  destruct (ParsePrototype _) as [[p|] s1]; cbn [snd] in P; [|discriminate].
  destruct (ParseExpression fuel s1) as [[[E|] s2]|] eqn:EE; try discriminate.
  exfalso. revert EE. apply parse_fuel_enough. lia.
Qed.

Lemma ParseTopLevelExpr_enough fuel s :
  (3 * tokens_left s + 2 <= fuel)%nat -> ParseTopLevelExpr fuel s <> None.
Proof.
  intros F. rewrite ParseTopLevelExpr_S.
  destruct (ParseExpression fuel s) as [[[E|] s1]|] eqn:EE; try discriminate.
  exfalso. revert EE. apply parse_fuel_enough. lia.
Qed.

Lemma MainLoop_enough fuel :
  forall s, (3 * tokens_left s + 3 <= fuel)%nat ->
    exists s', MainLoop fuel s = Some (tt, s') /\ CurTok s' = tok_eof.
Proof.
  induction fuel as [|fuel IH]; intros s F; [lia|].
  rewrite MainLoop_S.
  destruct (Z.eqb_spec (CurTok s) tok_eof) as [E|E].
  { exists (prompted s). split; [reflexivity | exact E]. }
  assert (CurTok (prompted s) <> tok_eof) as Ep by exact E.
  destruct (Z.eqb_spec (CurTok s) (chr ";")) as [_|_].
  { apply IH. destruct (getNextToken_left (prompted s)) as [_ N].
    specialize (N Ep). rewrite tokens_left_prompted in N. lia. }
  destruct (Z.eqb_spec (CurTok s) tok_def) as [_|_].
  { destruct (HandleDefinition fuel (prompted s)) as [r|] eqn:H.
    - apply IH. apply (HandleDefinition_progress _ _ _ Ep) in H.
      rewrite tokens_left_prompted in H. lia.
    - exfalso. rewrite HandleDefinition_eq in H.
      destruct (ParseDefinition fuel (prompted s)) as [[[f|] s1]|] eqn:P; try discriminate.
      revert P. apply ParseDefinition_enough. rewrite tokens_left_prompted. lia. }
  destruct (Z.eqb_spec (CurTok s) tok_extern) as [_|_].
  { destruct (HandleExtern (prompted s)) as [r|] eqn:H.
    - apply IH. apply (HandleExtern_progress _ _ Ep) in H.
      rewrite tokens_left_prompted in H. lia.
    - exfalso. rewrite HandleExtern_eq in H.
      destruct (ParseExtern (prompted s)) as [[p|] s1]; discriminate. }
  destruct (HandleTopLevelExpression fuel (prompted s)) as [r|] eqn:H.
  - apply IH. apply (HandleTopLevelExpression_progress _ _ _ Ep) in H.
    rewrite tokens_left_prompted in H. lia.
  - exfalso. rewrite HandleTopLevelExpression_eq in H.
    destruct (ParseTopLevelExpr fuel (prompted s)) as [[[f|] s1]|] eqn:P; try discriminate.
    revert P. apply ParseTopLevelExpr_enough. rewrite tokens_left_prompted. lia.
Qed.

Lemma MainLoop_fuel_S fuel s r :
  MainLoop fuel s = Some r -> MainLoop (S fuel) s = Some r.
Proof.
  revert s. induction fuel as [|fuel IH]; intros s; [discriminate|].
  rewrite (MainLoop_S fuel), (MainLoop_S (S fuel)).
  destruct (_ =? _); [auto|]. destruct (_ =? _); [apply IH|].
  destruct (_ =? _).
  { rewrite !HandleDefinition_eq, !ParseDefinition_S.
    destruct (ParsePrototype _) as [[p|] s1]; [|apply IH].
    destruct (ParseExpression fuel s1) as [x|] eqn:E; [|discriminate].
    apply parse_fuel_S in E. rewrite E. destruct x as [[e|] s2]; apply IH. }
  destruct (_ =? _).
  { destruct (HandleExtern _) as [x|]; [apply IH | discriminate]. }
  rewrite !HandleTopLevelExpression_eq, !ParseTopLevelExpr_S.
  destruct (ParseExpression fuel _) as [x|] eqn:E; [|discriminate].
  apply parse_fuel_S in E. rewrite E. destruct x as [[e|] s2]; apply IH.
Qed.

(** ** What the driver writes *)

Lemma ParseExtern_outcome s : outcome s (ParseExtern s).1 (ParseExtern s).2.
Proof.
  unfold ParseExtern.
  apply (outcome_stderr (getNextToken s).2 s); [apply getNextToken_stderr|].
  apply ParsePrototype_outcome.
Qed.

Lemma ParseDefinition_outcome fuel s r s' :
  ParseDefinition fuel s = Some (r, s') -> outcome s r s'.
Proof.
  rewrite ParseDefinition_S.
  pose proof (ParsePrototype_outcome (getNextToken s).2) as P.
  apply (outcome_stderr _ s _ _ (getNextToken_stderr s)) in P.
  destruct (ParsePrototype _) as [[p|] s1]; cbn [fst snd] in P.
  2:{ intros [= <- <-]. exact P. }
  cbn [outcome] in P.
  destruct (ParseExpression fuel s1) as [[[E|] s2]|] eqn:EE; try discriminate;
    apply parse_outcome in EE; apply (outcome_stderr _ s _ _ P) in EE;
    intros [= <- <-]; exact EE.
Qed.

Lemma ParseTopLevelExpr_outcome fuel s r s' :
  ParseTopLevelExpr fuel s = Some (r, s') -> outcome s r s'.
Proof.
  rewrite ParseTopLevelExpr_S.
  destruct (ParseExpression fuel s) as [[[E|] s1]|] eqn:EE; try discriminate;
    apply parse_outcome in EE; intros [= <- <-]; exact EE.
Qed.

Lemma HandleDefinition_writes fuel s r :
  CurTok s = tok_def -> HandleDefinition fuel s = Some r ->
  exists line, handler_writes s line r.2 /\ stderr r.2 = (stderr s ++ [line])%list.
Proof.
  intros C. rewrite HandleDefinition_eq.
  destruct (ParseDefinition fuel s) as [[[f|] s1]|] eqn:P; try discriminate;
    pose proof (ParseDefinition_outcome _ _ _ _ P) as O; cbn [outcome] in O;
    intros [= <-]; cbn [snd]; fold_getNextToken.
  - exists status_definition. split.
    + exact (definition_parsed fuel s f s1 C P O).
    + cbn [fprintf_stderr snd stderr set_stderr]. rewrite O. reflexivity.
  - destruct O as (msg & E & Off). exists msg. split.
    + exact (definition_failed fuel s s1 msg C P E Off).
    + rewrite getNextToken_stderr. exact E.
Qed.

Lemma HandleExtern_writes s r :
  CurTok s = tok_extern -> HandleExtern s = Some r ->
  exists line, handler_writes s line r.2 /\ stderr r.2 = (stderr s ++ [line])%list.
Proof.
  intros C. rewrite HandleExtern_eq. pose proof (ParseExtern_outcome s) as O.
  destruct (ParseExtern s) as [[p|] s1] eqn:P; cbn [fst snd outcome] in O;
    intros [= <-]; cbn [snd]; fold_getNextToken.
  - exists status_extern. split.
    + exact (extern_parsed s p s1 C P O).
    + cbn [fprintf_stderr snd stderr set_stderr]. rewrite O. reflexivity.
  - destruct O as (msg & E & Off). exists msg. split.
    + exact (extern_failed s s1 msg C P E Off).
    + rewrite getNextToken_stderr. exact E.
Qed.

Lemma HandleTopLevelExpression_writes fuel s r :
  CurTok s <> tok_eof -> CurTok s <> chr ";" ->
  CurTok s <> tok_def -> CurTok s <> tok_extern ->
  HandleTopLevelExpression fuel s = Some r ->
  exists line, handler_writes s line r.2 /\ stderr r.2 = (stderr s ++ [line])%list.
Proof.
  intros C1 C2 C3 C4. rewrite HandleTopLevelExpression_eq.
  destruct (ParseTopLevelExpr fuel s) as [[[f|] s1]|] eqn:P; try discriminate;
    pose proof (ParseTopLevelExpr_outcome _ _ _ _ P) as O; cbn [outcome] in O;
    intros [= <-]; cbn [snd]; fold_getNextToken.
  - exists status_toplevel. split.
    + exact (expression_parsed fuel s f s1 C1 C2 C3 C4 P O).
    + cbn [fprintf_stderr snd stderr set_stderr]. rewrite O. reflexivity.
  - destruct O as (msg & E & Off). exists msg. split.
    + exact (expression_failed fuel s s1 msg C1 C2 C3 C4 P E Off).
    + rewrite getNextToken_stderr. exact E.
Qed.

Lemma MainLoop_run_transcript fuel :
  forall s r, MainLoop fuel s = Some r ->
    exists out, stderr r.2 = (stderr s ++ out)%list /\ run_transcript s out.
Proof.
  induction fuel as [|fuel IH]; intros s r; [discriminate|].
  rewrite MainLoop_S.
  change (prompted s) with (written "ready> " s).
  assert (stderr (written "ready> " s) = (stderr s ++ ["ready> "])%list) as Pr by reflexivity.
  assert (forall r1 : unit * state,
            (exists line, handler_writes (written "ready> " s) line r1.2 /\
                          stderr r1.2 = (stderr (written "ready> " s) ++ [line])%list) ->
            MainLoop fuel r1.2 = Some r ->
            exists out, stderr r.2 = (stderr s ++ out)%list /\ run_transcript s out) as Step.
  { intros r1 (line & W & E) H. apply IH in H as (out & Eo & T).
    exists ("ready> " :: line :: out). split; [|exact (run_construct s line r1.2 out W T)].
    rewrite Eo, E, Pr, <- !app_assoc. reflexivity. }
  destruct (Z.eqb_spec (CurTok s) tok_eof) as [C1|C1].
  { intros [= <-]. exists ["ready> "]. split; [exact Pr | exact (run_end s C1)]. }
  destruct (Z.eqb_spec (CurTok s) (chr ";")) as [C2|C2].
  { intros H. apply IH in H as (out & Eo & T).
    exists ("ready> " :: out). split; [|exact (run_semicolon s out C2 T)].
    rewrite Eo, getNextToken_stderr, Pr, <- app_assoc. reflexivity. }
  destruct (Z.eqb_spec (CurTok s) tok_def) as [C3|C3].
  { destruct (HandleDefinition fuel _) as [r1|] eqn:H; [|discriminate].
    apply Step. exact (HandleDefinition_writes fuel (written "ready> " s) r1 C3 H). }
  destruct (Z.eqb_spec (CurTok s) tok_extern) as [C4|C4].
  { destruct (HandleExtern _) as [r1|] eqn:H; [|discriminate].
    apply Step. exact (HandleExtern_writes (written "ready> " s) r1 C4 H). }
  destruct (HandleTopLevelExpression fuel _) as [r1|] eqn:H; [|discriminate].
  apply Step. exact (HandleTopLevelExpression_writes fuel (written "ready> " s) r1 C1 C2 C3 C4 H).
Qed.

Lemma handler_writes_report s line s1 : handler_writes s line s1 -> report line.
Proof.
  intros W. unfold report.
  destruct W; eauto 6.
Qed.

Lemma run_transcript_shape s out : run_transcript s out -> transcript out.
Proof.
  induction 1 as [s C|s out C _ IH|s line s1 out W _ IH].
  - constructor.
  - apply transcript_semicolon, IH.
  - apply transcript_report; [exact (handler_writes_report _ _ _ W) | exact IH].
Qed.

(** ** The end of the input *)

Lemma chr_neq_EOF a : chr a <> EOF.
Proof. pose proof (chr_range a). unfold EOF. lia. Qed.

Lemma skip_space_exhausted last inp :
  (last = EOF -> inp = EmptyString) ->
  (skip_space last inp).1 = EOF -> (skip_space last inp).2 = EmptyString.
Proof.
  revert last. induction inp as [|a r IH]; intros last H; cbn [skip_space].
  - destruct (isspace last); reflexivity.
  - destruct (isspace last); [|exact H].
    apply IH. intros K. exfalso. exact (chr_neq_EOF a K).
Qed.

Lemma read_ident_exhausted id inp :
  (read_ident id inp).1.2 = EOF -> (read_ident id inp).2 = EmptyString.
Proof.
  revert id. induction inp as [|a r IH]; intros id; cbn [read_ident]; [reflexivity|].
  destruct (isalnum (chr a)); [apply IH|]. cbn [fst snd]. intros K.
  exfalso. exact (chr_neq_EOF a K).
Qed.

Lemma read_number_exhausted num last inp :
  (read_number num last inp).1.2 = EOF -> (read_number num last inp).2 = EmptyString.
Proof.
  revert num last. induction inp as [|a r IH]; intros num last; cbn [read_number];
    [reflexivity|].
  destruct (_ || _); [apply IH|]. cbn [fst snd]. intros K.
  exfalso. exact (chr_neq_EOF a K).
Qed.

Lemma skip_comment_exhausted inp :
  (skip_comment inp).1 = EOF -> (skip_comment inp).2 = EmptyString.
Proof.
  induction inp as [|a r IH]; cbn [skip_comment]; [reflexivity|].
  destruct (_ && _); [apply IH|]. cbn [fst snd]. intros K.
  exfalso. exact (chr_neq_EOF a K).
Qed.

Lemma gettok_symbol_exhausted s :
  (LastChar s = EOF -> stdin s = EmptyString) ->
  LastChar (gettok_symbol s).2 = EOF -> stdin (gettok_symbol s).2 = EmptyString.
Proof.
  unfold gettok_symbol. destruct (_ =? EOF); [auto|]. intros _.
  cbn [snd LastChar stdin set_lexer]. destruct (stdin s) as [|a r]; [reflexivity|].
  cbn [getchar fst snd]. intros K. exfalso. exact (chr_neq_EOF a K).
Qed.

Lemma gettok_exhausted s :
  (LastChar s = EOF -> stdin s = EmptyString) ->
  LastChar (gettok s).2 = EOF -> stdin (gettok s).2 = EmptyString.
Proof.
  apply (gettok_elim (fun s r =>
    (LastChar s = EOF -> stdin s = EmptyString) ->
    LastChar r.2 = EOF -> stdin r.2 = EmptyString)).
  clear s. intros s IH H.
  pose proof (skip_space_exhausted _ _ H) as W.
  destruct (isalpha _).
  { unfold lex_identifier. cbv zeta.
    repeat destruct (String.eqb _ _); cbn [snd LastChar stdin set_lexer];
      apply read_ident_exhausted. }
  destruct (_ || _). { apply read_number_exhausted. }
  destruct (_ =? chr "#").
  - destruct (decide _) as [K|K].
    + apply (IH K). intros E. contradiction.
    + apply gettok_symbol_exhausted. apply skip_comment_exhausted.
  - apply gettok_symbol_exhausted. exact W.
Qed.

Lemma input_consistent_getNextToken s :
  (LastChar s = EOF -> stdin s = EmptyString) -> input_consistent (getNextToken s).2.
Proof.
  intros H. unfold input_consistent, getNextToken.
  cbn [snd LastChar stdin CurTok set_CurTok]. split.
  - apply gettok_exhausted, H.
  - apply gettok_eof_LastChar.
Qed.

Lemma input_consistent_steps :
  (forall s, input_consistent s -> input_consistent (getNextToken s).2) /\
  (forall s, input_consistent s -> input_consistent (GetTokPrecedence s).2) /\
  (forall s v, input_consistent s -> input_consistent (set_stderr s v)).
Proof.
  repeat apply conj.
  - intros s [H _]. apply input_consistent_getNextToken, H.
  - intros s H. destruct (GetTokPrecedence_frame s) as (A & B & _ & _ & C & _).
    unfold input_consistent. rewrite A, B, C. exact H.
  - intros s v H. exact H.
Qed.

Lemma main_eq fuel inp :
  main fuel inp =
  match MainLoop fuel
          (getNextToken (prompted (set_BinopPrecedence (initial_state inp) main_table))).2 with
  | Some r => Some (0, r.2)
  | None => None
  end.
Proof.
  unfold main, bind, lift, ret. cbn [fst snd].
  destruct (MainLoop fuel _); reflexivity.
Qed.

Lemma outcome_bool {A} s (r : option A) s' :
  outcome s r s' ->
  if bool_decide (is_Some r) then stderr s' = stderr s else failed_at s s'.
Proof. destruct r; exact id. Qed.

(** ** Runs of characters *)

Lemma skip_space_run c inp ws a tail :
  String c inp = ws +:+ String a tail ->
  all_chars space ws = true -> space a = false ->
  skip_space (chr c) inp = (chr a, tail).
Proof.
  revert c inp. induction ws as [|w ws IH]; intros c inp E W A.
  - rewrite append_nil in E. injection E as -> ->. apply skip_space_stay, A.
  - rewrite append_cons in E. injection E as -> ->.
    cbn [all_chars] in W. apply andb_true_iff in W as [W1 W2].
    destruct ws as [|w' ws].
    + rewrite append_nil. cbn [skip_space]. unfold space in W1. rewrite W1.
      apply skip_space_stay, A.
    + rewrite append_cons. cbn [skip_space]. unfold space in W1. rewrite W1.
      apply (IH w' (ws +:+ String a tail)); [reflexivity | exact W2 | exact A].
Qed.

Lemma skip_space_all c inp ws :
  String c inp = ws -> all_chars space ws = true ->
  skip_space (chr c) inp = (EOF, EmptyString).
Proof.
  revert c inp. induction ws as [|w ws IH]; intros c inp E W; [discriminate|].
  injection E as -> ->. cbn [all_chars] in W. apply andb_true_iff in W as [W1 W2].
  unfold space in W1. destruct ws as [|w' ws]; cbn [skip_space]; rewrite W1; [reflexivity|].
  apply (IH w' ws); [reflexivity | exact W2].
Qed.

Lemma read_ident_run id run rest :
  all_chars alnum run = true ->
  stops_at (fun c => negb (alnum c)) rest = true ->
  read_ident id (run +:+ rest) = (id +:+ run, (getchar rest).1, (getchar rest).2).
Proof.
  revert id. induction run as [|b run IH]; intros id Hrun Hrest.
  - rewrite append_nil.
    assert (id +:+ EmptyString = id) as ->.
    { clear. induction id as [|x id IH]; [reflexivity|]. rewrite append_cons, IH. reflexivity. }
    destruct rest as [|c rest]; cbn [read_ident getchar fst snd]; [reflexivity|].
    cbn [stops_at] in Hrest. unfold alnum in Hrest.
    destruct (isalnum (chr c)); [discriminate | reflexivity].
  - cbn [all_chars] in Hrun. apply andb_true_iff in Hrun as [Hb Hrun].
    rewrite append_cons. cbn [read_ident]. unfold alnum in Hb. rewrite Hb.
    rewrite (IH _ Hrun Hrest), append_assoc. reflexivity.
Qed.

Lemma isalpha_class c :
  isalpha c = true -> isspace c = false /\ isascii c = true /\ isalnum c = true.
Proof.
  unfold isalnum, isalpha, isspace, isascii, isdigit. intros H.
  repeat split; lia.
Qed.

(** A name: the buffered letter and the run of letters and digits behind
    it, as long as it is; the character after the run is buffered. *)
Lemma gettok_name s a run rest :
  LastChar s = chr a -> stdin s = run +:+ rest ->
  isalpha (chr a) = true -> all_chars alnum run = true ->
  stops_at (fun c => negb (alnum c)) rest = true ->
  gettok s =
  (name_token (String a run),
   set_lexer (set_IdentifierStr s (String a run)) (getchar rest).2 (getchar rest).1).
Proof.
  intros HL Hin Ha Hrun Hrest.
  destruct (isalpha_class _ Ha) as (Hs & _ & _).
  rewrite gettok_equation_1, skip_whitespace_stay by (rewrite HL; exact Hs).
  rewrite HL, Ha. unfold lex_identifier. cbv zeta.
  rewrite HL, Hin, to_char_chr, (read_ident_run _ _ _ Hrun Hrest).
  cbn [fst snd IdentifierStr set_lexer set_IdentifierStr]. rewrite append_cons, append_nil.
  unfold name_token. repeat destruct (String.eqb _ _); reflexivity.
Qed.

Lemma gettok_lexer s inp last :
  skip_whitespace s = set_lexer s inp last -> gettok s = gettok (set_lexer s inp last).
Proof. intros H. rewrite <- gettok_skip_whitespace, H. reflexivity. Qed.

(** ** The classes of tokens *)

Lemma skip_space_char last inp :
  char_or_EOF last -> char_or_EOF (skip_space last inp).1.
Proof.
  revert last. induction inp as [|a r IH]; intros last H; cbn [skip_space].
  - destruct (isspace last); [unfold char_or_EOF, EOF; cbn; lia | exact H].
  - destruct (isspace last); [|exact H]. apply IH.
    pose proof (chr_range a). unfold char_or_EOF. lia.
Qed.

Lemma getchar_char inp : char_or_EOF (getchar inp).1.
Proof.
  destruct inp as [|a r]; cbn [getchar fst]; unfold char_or_EOF, EOF; [lia|].
  pose proof (chr_range a). lia.
Qed.

Lemma read_ident_char id inp : char_or_EOF (read_ident id inp).1.2.
Proof.
  revert id. induction inp as [|a r IH]; intros id; cbn [read_ident].
  - unfold char_or_EOF, EOF. cbn. lia.
  - destruct (isalnum _); [apply IH|]. cbn [fst snd].
    pose proof (chr_range a). unfold char_or_EOF. lia.
Qed.

Lemma read_number_char num last inp : char_or_EOF (read_number num last inp).1.2.
Proof.
  revert num last. induction inp as [|a r IH]; intros num last; cbn [read_number].
  - unfold char_or_EOF, EOF. cbn. lia.
  - destruct (_ || _); [apply IH|]. cbn [fst snd].
    pose proof (chr_range a). unfold char_or_EOF. lia.
Qed.

Lemma skip_comment_char inp : char_or_EOF (skip_comment inp).1.
Proof.
  induction inp as [|a r IH]; cbn [skip_comment].
  - unfold char_or_EOF, EOF. cbn. lia.
  - destruct (_ && _); [apply IH|]. cbn [fst].
    pose proof (chr_range a). unfold char_or_EOF. lia.
Qed.

Lemma skip_space_no_space last inp : isspace (skip_space last inp).1 = false.
Proof.
  revert last. induction inp as [|a r IH]; intros last; cbn [skip_space].
  - destruct (isspace last) eqn:E; [reflexivity | exact E].
  - destruct (isspace last) eqn:E; [apply IH | exact E].
Qed.

Lemma all_chars_app P a b : all_chars P (a +:+ b) = all_chars P a && all_chars P b.
Proof.
  induction a as [|x a IH]; [reflexivity|].
  rewrite append_cons. cbn [all_chars]. rewrite IH, andb_assoc. reflexivity.
Qed.

Lemma read_ident_alnum id inp :
  all_chars alnum id = true -> all_chars alnum (read_ident id inp).1.1 = true.
Proof.
  revert id. induction inp as [|a r IH]; intros id H; cbn [read_ident]; [exact H|].
  destruct (isalnum (chr a)) eqn:E; [|exact H].
  apply IH. rewrite all_chars_app, H. cbn [all_chars]. unfold alnum. rewrite E. reflexivity.
Qed.

Lemma read_ident_head a id inp :
  exists r, (read_ident (String a id) inp).1.1 = String a r.
Proof.
  revert id. induction inp as [|b inp IH]; intros id; cbn [read_ident]; [eauto|].
  destruct (isalnum _); [|eauto]. rewrite append_cons. apply IH.
Qed.

Lemma read_ident_name a inp :
  isalpha (chr a) = true ->
  identifier_name (read_ident (String a EmptyString) inp).1.1 = true.
Proof.
  intros H. pose proof (read_ident_alnum (String a EmptyString) inp) as A.
  destruct (read_ident_head a EmptyString inp) as (r & E). rewrite E in *.
  cbn [identifier_name all_chars] in *. rewrite H.
  destruct (isalpha_class _ H) as (_ & _ & K). unfold alnum in A at 1 2. rewrite K in A.
  cbn [andb] in *. apply A. reflexivity.
Qed.

Lemma lex_identifier_lexed s :
  isalpha (LastChar s) = true -> lexed (lex_identifier s).
Proof.
  intros H. destruct (isalpha_class _ H) as (_ & A & _).
  unfold lex_identifier. cbv zeta.
  cbn [IdentifierStr set_lexer set_IdentifierStr].
  pose proof (read_ident_name (to_char (LastChar s)) (stdin s)) as N.
  rewrite (chr_to_char _ A) in N. specialize (N H).
  pose proof (read_ident_char (String (to_char (LastChar s)) EmptyString) (stdin s)) as C.
  destruct (String.eqb_spec
              (read_ident (String (to_char (LastChar s)) EmptyString) (stdin s)).1.1 "def")
    as [E1|E1].
  { split; [exact C|]. right; left. split; [reflexivity | exact E1]. }
  destruct (String.eqb_spec
              (read_ident (String (to_char (LastChar s)) EmptyString) (stdin s)).1.1 "extern")
    as [E2|E2].
  { split; [exact C|]. right; right; left. split; [reflexivity | exact E2]. }
  split; [exact C|]. do 3 right. left. cbn [fst snd IdentifierStr set_lexer set_IdentifierStr].
  auto.
Qed.

Lemma gettok_symbol_lexed s :
  char_or_EOF (LastChar s) -> isspace (LastChar s) = false ->
  isalpha (LastChar s) = false ->
  isdigit (LastChar s) || (LastChar s =? chr ".") = false ->
  (LastChar s =? chr "#") = false \/ LastChar s = EOF ->
  lexed (gettok_symbol s).
Proof.
  intros C Sp Al Di Ha. unfold gettok_symbol.
  destruct (Z.eqb_spec (LastChar s) EOF) as [E|E].
  { split; [exact C | left; reflexivity]. }
  cbv zeta. split; [apply getchar_char|]. do 5 right. cbn [fst].
  destruct Ha as [Ha|Ha]; [|contradiction].
  apply orb_false_iff in Di as [D1 D2].
  unfold symbol, isalnum. rewrite Al, D1. unfold char_or_EOF, EOF in *.
  repeat split; try lia; try assumption.
Qed.

Lemma gettok_lexed s : char_or_EOF (LastChar s) -> lexed (gettok s).
Proof.
  apply (gettok_elim (fun s r => char_or_EOF (LastChar s) -> lexed r)).
  clear s. intros s IH C.
  pose proof (skip_space_char _ (stdin s) C) as Cw.
  pose proof (skip_space_no_space (LastChar s) (stdin s)) as Sw.
  change (skip_space (LastChar s) (stdin s)).1 with (LastChar (skip_whitespace s)) in Cw, Sw.
  destruct (isalpha _) eqn:Ea. { apply lex_identifier_lexed, Ea. }
  destruct (_ || _) eqn:Ed.
  { split; [apply read_number_char|]. do 4 right. left. reflexivity. }
  destruct (LastChar (skip_whitespace s) =? chr "#") eqn:Eh.
  - pose proof (skip_comment_char (stdin (skip_whitespace s))) as Cc.
    change (skip_comment (stdin (skip_whitespace s))).1
      with (LastChar (skip_line_comment (skip_whitespace s))) in Cc.
    destruct (decide _) as [H|H]; [exact (IH H Cc)|].
    apply dec_stable in H. apply gettok_symbol_lexed; try (rewrite H; reflexivity).
    + exact Cc.
    + right. exact H.
  - apply gettok_symbol_lexed; auto.
Qed.

Lemma unread_finite s :
  (length (unread s) <= chars_left s)%nat /\
  Forall (fun t => tok t <> tok_eof) (unread s).
Proof.
  apply (unread_elim (fun s r =>
    (length r <= chars_left s)%nat /\ Forall (fun t => tok t <> tok_eof) r)).
  clear s. intros s IH. destruct (decide _) as [E|E].
  - split; [cbn; lia | constructor].
  - destruct (IH E) as [L F]. destruct (gettok_left s) as [_ K]. specialize (K E).
    split; [cbn [length]; lia|]. constructor; [exact E | exact F].
Qed.

(** ** Prototypes, from the tokens *)

(** Where a run of identifiers ends is determined by the tokens. *)
Lemma identifiers_split (params params' rest rest' : list item) :
  (params ++ rest = params' ++ rest')%list ->
  Forall (fun p => tok p = tok_identifier) params ->
  Forall (fun p => tok p = tok_identifier) params' ->
  head_tok rest <> tok_identifier -> head_tok rest' <> tok_identifier ->
  params = params' /\ rest = rest'.
Proof.
  revert params'. induction params as [|p params IH]; intros params' E F F' N N'.
  - destruct params' as [|p' params']; [auto|]. exfalso.
    cbn [app] in E. subst rest. inversion F'; subst. contradiction.
  - destruct params' as [|p' params'].
    + exfalso. cbn [app] in E. subst rest'. inversion F; subst. contradiction.
    + cbn [app] in E. injection E as -> E. inversion F; inversion F'; subst.
      destruct (IH params' E) as [-> ->]; auto.
Qed.

Lemma ParsePrototype_args_tokens s Acc params rest :
  unread s = (params ++ rest)%list ->
  Forall (fun p => tok p = tok_identifier) params ->
  head_tok rest <> tok_identifier ->
  (ParsePrototype_args s Acc).1 = (Acc ++ map ident params)%list /\
  pending (ParsePrototype_args s Acc).2 = rest.
Proof.
  intros U F N.
  destruct (ParsePrototype_args_consumes s Acc) as (_ & C & params' & U' & F' & R).
  rewrite U in U'.
  destruct (identifiers_split _ _ _ _ U' F F' N) as [<- <-].
  { rewrite <- CurTok_pending. exact C. }
  auto.
Qed.

Lemma ParsePrototype_tokens s name lp params rest :
  pending s = (name :: lp :: params ++ rest)%list ->
  tok name = tok_identifier -> tok lp = chr "(" ->
  Forall (fun p => tok p = tok_identifier) params ->
  head_tok rest <> tok_identifier ->
  if head_tok rest =? chr ")" then
    (ParsePrototype s).1 = Some (mkPrototypeAST (ident name) (map ident params)) /\
    pending (ParsePrototype s).2 = tl rest /\
    stderr (ParsePrototype s).2 = stderr s /\
    BinopPrecedence (ParsePrototype s).2 = BinopPrecedence s
  else
    (ParsePrototype s).1 = None /\
    pending (ParsePrototype s).2 = rest /\
    stderr (ParsePrototype s).2 = (stderr s ++ ["Expected ')' in prototype"])%list /\
    BinopPrecedence (ParsePrototype s).2 = BinopPrecedence s.
Proof.
  intros P Hn Hl F N.
  destruct (pending_cons _ _ _ P) as (I & _ & P1).
  assert (CurTok s = tok_identifier) as C by (rewrite <- Hn, <- I; reflexivity).
  assert (IdentifierStr s = ident name) as Id by (rewrite <- I; reflexivity).
  unfold ParsePrototype. cbv zeta. rewrite C, Id.
  change (negb (tok_identifier =? tok_identifier)) with false. cbv iota.
  set (s1 := (getNextToken s).2) in *.
  destruct (pending_cons _ _ _ P1) as (I1 & N1 & _).
  assert (CurTok s1 = chr "(") as C1 by (rewrite <- Hl, <- I1; reflexivity).
  rewrite C1. change (negb (chr "(" =? chr "(")) with false. cbv iota.
  assert (unread s1 = (params ++ rest)%list) as U.
  { unfold pending in P1. destruct (CurTok s1 =? tok_eof); [discriminate|].
    injection P1 as _ U. exact U. }
  destruct (ParsePrototype_args_tokens s1 [] params rest U F N) as [R P2].
  destruct (ParsePrototype_args_spec s1 []) as [E2 _].
  destruct (ParsePrototype_args_consumes s1 []) as (B2 & _).
  set (s2 := (ParsePrototype_args s1 []).2) in *.
  assert (stderr s2 = stderr s) as E.
  { rewrite E2. apply getNextToken_stderr. }
  assert (BinopPrecedence s2 = BinopPrecedence s) as B.
  { rewrite B2. apply (getNextToken_frame s). }
  rewrite (CurTok_pending s2), P2, R.
  destruct (Z.eqb_spec (head_tok rest) (chr ")")) as [K|K]; cbn [negb fst snd].
  - repeat split.
    + destruct rest as [|rp rest]; [discriminate K|].
      destruct (pending_cons _ _ _ P2) as (_ & _ & Q). exact Q.
    + rewrite getNextToken_stderr. exact E.
    + destruct (getNextToken_frame s2) as (_ & Bn & _). rewrite Bn. exact B.
  - unfold LogError. cbn [fst snd]. repeat split.
    + rewrite pending_set_stderr. exact P2.
    + cbn [stderr set_stderr]. rewrite E. reflexivity.
    + exact B.
Qed.

(** ** Sentences are parsed to their trees *)

Lemma head_tok_app ts rest : head_tok (ts ++ rest) = head_or ts (head_tok rest).
Proof. destruct ts; reflexivity. Qed.

Lemma grouping_app prec g l1 l2 :
  grouping prec g (l1 ++ l2) = grouping prec (grouping prec g l1) l2.
Proof. apply fold_left_app. Qed.

Lemma grouping_right prec op L R l :
  Forall (fun p => prec (chr op) < prec p.1) l ->
  grouping prec (group op L R) l = group op L (grouping prec R l).
Proof.
  revert R. induction l as [|p l IH]; intros R F; [reflexivity|].
  inversion F as [|? ? Hp Hl]; subst. cbn [grouping fold_left insert_operand].
  destruct (Z.ltb_spec (prec (chr op)) (prec p.1)); [|lia].
  apply (IH _ Hl).
Qed.

Lemma insert_operand_root prec g o x :
  group_binds_before prec g o ->
  insert_operand prec g o x = group (to_char o) g (operand_of x).
Proof.
  destruct g as [e|op L R]; cbn [group_binds_before insert_operand]; [reflexivity|].
  intros H. destruct (Z.ltb_spec (prec (chr op)) (prec o)); [lia | reflexivity].
Qed.

Section Sentences_parsed.

Variable prec : Z -> Z.

Lemma operand_head ts next e :
  operand prec ts next e ->
  exists t q, ts = t :: q /\
    (tok t = tok_number /\ q = [] /\ e = NumberExprAST (num t) \/
     tok t = tok_identifier \/ tok t = chr "(").
Proof.
  intros O. inversion O; subst; eexists _, _; (split; [reflexivity|]); auto.
Qed.

Lemma sentence_head ts next e :
  sentence prec ts next e ->
  exists t q, ts = t :: q /\
    (tok t = tok_number \/ tok t = tok_identifier \/ tok t = chr "(").
Proof.
  intros S. inversion S as [ts0 e0 ts1 l n O _ _]; subst.
  destruct (operand_head _ _ _ O) as (t & q & -> & [(H & _)|[H|H]]);
    eexists _, _; (split; [reflexivity|]); auto.
Qed.

Lemma parse_sentence fuel :
  (forall s ts e rest r s', table_is prec s ->
     operand prec ts (head_tok rest) e -> pending s = (ts ++ rest)%list ->
     ParsePrimary fuel s = Some (r, s') ->
     r = Some e /\ pending s' = rest /\ table_is prec s') /\
  (forall s ts e rest r s', table_is prec s -> CurTok s = chr "(" ->
     operand prec ts (head_tok rest) e -> pending s = (ts ++ rest)%list ->
     ParseParenExpr fuel s = Some (r, s') ->
     r = Some e /\ pending s' = rest /\ table_is prec s') /\
  (forall s ts e rest r s', table_is prec s -> CurTok s = tok_identifier ->
     operand prec ts (head_tok rest) e -> pending s = (ts ++ rest)%list ->
     ParseIdentifierExpr fuel s = Some (r, s') ->
     r = Some e /\ pending s' = rest /\ table_is prec s') /\
  (forall Acc s ts args rp rest r s', table_is prec s ->
     arguments prec ts args -> tok rp = chr ")" ->
     pending s = (ts ++ rp :: rest)%list ->
     ParseCallArgs fuel Acc s = Some (r, s') ->
     r = Some (Acc ++ args)%list /\ pending s' = rp :: rest /\ table_is prec s') /\
  (forall ExprPrec g s ts l rest r s', table_is prec s -> 0 <= ExprPrec ->
     operands prec ts (head_tok rest) l -> prec (head_tok rest) < 0 ->
     pending s = (ts ++ rest)%list ->
     group_binds_before prec g (CurTok s) ->
     ParseBinOpRHS fuel ExprPrec (ungroup g) s = Some (r, s') ->
     exists l1 l2 ts2,
       l = (l1 ++ l2)%list /\ r = Some (ungroup (grouping prec g l1)) /\
       table_is prec s' /\ pending s' = (ts2 ++ rest)%list /\
       operands prec ts2 (head_tok rest) l2 /\
       Forall (fun p => ExprPrec <= prec p.1) l1 /\
       prec (CurTok s') < ExprPrec) /\
  (forall s ts e rest r s', table_is prec s ->
     sentence prec ts (head_tok rest) e -> pending s = (ts ++ rest)%list ->
     ParseExpression fuel s = Some (r, s') ->
     r = Some e /\ pending s' = rest /\ table_is prec s').
Proof.
  induction fuel as [|fuel (IHp & IHpar & IHid & IHargs & IHbin & IHe)].
  { repeat split; intros; discriminate. }
  repeat apply conj.
  - (* ParsePrimary *)
    intros s ts e rest r s' T O P. rewrite ParsePrimary_S.
    destruct (operand_head _ _ _ O) as (t & q & -> & Hd).
    assert (CurTok s = tok t) as C.
    { rewrite (CurTok_pending s), P. reflexivity. }
    destruct (Z.eqb_spec (CurTok s) tok_identifier) as [E1|E1];
      [apply (IHid s (t :: q) e rest r s' T E1 O P)|].
    destruct (Z.eqb_spec (CurTok s) tok_number) as [E2|E2].
    { rewrite ParseNumberExpr_eq. intros [= <- <-]. fold_getNextToken.
      destruct Hd as [(_ & -> & ->)|[K|K]];
        try (exfalso; rewrite C, K in E2; discriminate E2).
      cbn [app] in P. destruct (pending_cons _ _ _ P) as (I & _ & Q).
      split; [rewrite <- I; reflexivity|]. split; [exact Q|].
      apply table_is_getNextToken, T. }
    destruct (Z.eqb_spec (CurTok s) (chr "(")) as [E3|E3];
      [apply (IHpar s (t :: q) e rest r s' T E3 O P)|].
    exfalso. rewrite C in E1, E2, E3. destruct Hd as [(K & _)|[K|K]]; contradiction.
  - (* ParseParenExpr *)
    intros s ts e rest r s' T C O P. rewrite ParseParenExpr_S.
    assert (forall t q, ts = t :: q -> tok t = chr "(") as Hd.
    { intros t q Ets. rewrite <- C, (CurTok_pending s), P, Ets. reflexivity. }
    inversion O as [t n Ht|t n Ht Hn|t lp rp n Ht Hl Hr|t lp ta args rp n Ht Hl Ha Hr
                    |lp ti e' rp n Hl Hs Hr]; subst;
      try (exfalso; specialize (Hd _ _ eq_refl); rewrite Hd in Ht; discriminate Ht).
    cbn [app] in P. rewrite <- app_assoc in P. cbn [app] in P.
    destruct (pending_cons _ _ _ P) as (_ & _ & P1).
    destruct (ParseExpression fuel _) as [[r1 s1]|] eqn:PE; [|discriminate].
    destruct (IHe _ ti e (rp :: rest) r1 s1 (table_is_getNextToken _ _ T))
      as (-> & P2 & T2); [cbn [head_tok]; rewrite Hr; exact Hs | exact P1 | exact PE |].
    rewrite (CurTok_pending s1), P2. cbn [head_tok]. rewrite Hr.
    change (negb (chr ")" =? chr ")")) with false. cbv iota.
    intros [= <- <-]. fold_getNextToken.
    destruct (pending_cons _ _ _ P2) as (_ & _ & P3).
    split; [reflexivity|]. split; [exact P3|]. apply table_is_getNextToken, T2.
  - (* ParseIdentifierExpr *)
    intros s ts e rest r s' T C O P. rewrite ParseIdentifierExpr_S. cbv zeta.
    assert (forall t q, ts = t :: q -> tok t = tok_identifier /\ ident t = IdentifierStr s)
      as Hd.
    { intros t q Ets. rewrite Ets in P. cbn [app] in P.
      destruct (pending_cons _ _ _ P) as (I & _). rewrite <- I, <- C. auto. }
    pose proof (table_is_getNextToken _ _ T) as T1.
    inversion O as [t n Ht|t n Ht Hn|t lp rp n Ht Hl Hr|t lp ta args rp n Ht Hl Ha Hr
                    |lp ti e' rp n Hl Hs Hr]; subst.
    + exfalso. destruct (Hd _ _ eq_refl) as [K _]. rewrite K in Ht. discriminate Ht.
    + (* a variable *)
      destruct (Hd _ _ eq_refl) as [_ Id]. cbn [app] in P.
      destruct (pending_cons _ _ _ P) as (_ & _ & P1).
      rewrite (CurTok_pending (getNextToken s).2), P1.
      destruct (Z.eqb_spec (head_tok rest) (chr "(")) as [K|_]; [contradiction|].
      cbn [negb]. intros [= <- <-]. rewrite Id. auto.
    + (* a call without arguments *)
      destruct (Hd _ _ eq_refl) as [_ Id]. cbn [app] in P.
      destruct (pending_cons _ _ _ P) as (_ & _ & P1).
      destruct (pending_cons _ _ _ P1) as (_ & _ & P2).
      destruct (pending_cons _ _ _ P2) as (_ & _ & P3).
      rewrite (CurTok_pending (getNextToken s).2), P1. cbn [head_tok]. rewrite Hl.
      change (negb (chr "(" =? chr "(")) with false. cbv iota.
      rewrite (CurTok_pending (getNextToken (getNextToken s).2).2), P2.
      cbn [head_tok]. rewrite Hr.
      change (negb (chr ")" =? chr ")")) with false. cbv iota.
      intros [= <- <-]. fold_getNextToken. rewrite Id.
      split; [reflexivity|]. split; [exact P3|].
      apply table_is_getNextToken, table_is_getNextToken, T1.
    + (* a call with arguments *)
      destruct (Hd _ _ eq_refl) as [_ Id]. cbn [app] in P.
      rewrite <- app_assoc in P. cbn [app] in P.
      destruct (pending_cons _ _ _ P) as (_ & _ & P1).
      destruct (pending_cons _ _ _ P1) as (_ & _ & P2).
      rewrite (CurTok_pending (getNextToken s).2), P1. cbn [head_tok]. rewrite Hl.
      change (negb (chr "(" =? chr "(")) with false. cbv iota.
      set (s2 := (getNextToken (getNextToken s).2).2) in *.
      assert (CurTok s2 <> chr ")") as N2.
      { rewrite (CurTok_pending s2), P2.
        assert (exists a q, ta = a :: q /\ tok a <> chr ")") as (a & q & -> & Na).
        { inversion Ha as [ts e S|ts e c ts' es S _ _]; subst;
            destruct (sentence_head _ _ _ S) as (a & q & -> & [K|[K|K]]);
            eexists _, _; (split; [reflexivity|]); rewrite K; discriminate. }
        exact Na. }
      destruct (Z.eqb_spec (CurTok s2) (chr ")")) as [K|_]; [contradiction|].
      cbn [negb].
      destruct (ParseCallArgs fuel [] s2) as [[r3 s3]|] eqn:PA; [|discriminate].
      destruct (IHargs [] s2 ta args rp rest r3 s3) as (-> & P3 & T3); auto.
      { apply table_is_getNextToken, T1. }
      intros [= <- <-]. fold_getNextToken.
      destruct (pending_cons _ _ _ P3) as (_ & _ & P4).
      rewrite Id. split; [reflexivity|]. split; [exact P4|].
      apply table_is_getNextToken, T3.
    + exfalso. destruct (Hd _ _ eq_refl) as [K _]. rewrite K in Hl. discriminate Hl.
  - (* ParseCallArgs *)
    intros Acc s ts args rp rest r s' T A Hr P. rewrite ParseCallArgs_S.
    destruct (ParseExpression fuel s) as [[r1 s1]|] eqn:PE; [|discriminate].
    inversion A as [ta e S|ta e comma ts' es S Hc A']; subst.
    + destruct (IHe s ts e (rp :: rest) r1 s1 T) as (-> & P1 & T1); auto.
      { cbn [head_tok]. rewrite Hr. exact S. }
      rewrite (CurTok_pending s1), P1. cbn [head_tok]. rewrite Hr.
      change (chr ")" =? chr ")") with true. cbv iota.
      intros [= <- <-]. auto.
    + rewrite <- app_assoc in P. cbn [app] in P.
      destruct (IHe s ta e (comma :: ts' ++ rp :: rest)%list r1 s1 T) as (-> & P1 & T1); auto.
      { cbn [head_tok]. rewrite Hc. exact S. }
      rewrite (CurTok_pending s1), P1. cbn [head_tok]. rewrite Hc.
      change (chr "," =? chr ")") with false.
      change (negb (chr "," =? chr ",")) with false. cbv iota.
      destruct (pending_cons _ _ _ P1) as (_ & _ & P2).
      intros H.
      destruct (IHargs (Acc ++ [e])%list _ ts' es rp rest r s'
                  (table_is_getNextToken _ _ T1) A' Hr P2 H) as (-> & P3 & T3).
      rewrite <- app_assoc. auto.
  - (* ParseBinOpRHS *)
    intros ExprPrec g s ts l rest r s' T HE Ops End P Pre.
    rewrite ParseBinOpRHS_S. cbv zeta.
    rewrite (GetTokPrecedence_table_is prec s T).
    pose proof (table_is_GetTokPrecedence _ _ T) as Tg.
    pose proof (GetTokPrecedence_CurTok s) as Cg.
    pose proof (pending_GetTokPrecedence s) as Pg.
    set (sg := (GetTokPrecedence s).2) in *. rewrite Cg.
    destruct (Z.ltb_spec (prec (CurTok s)) ExprPrec) as [L|L].
    { intros [= <- <-]. exists [], l, ts. rewrite Cg, Pg. repeat split; auto. }
    assert (0 < prec (CurTok s)) as Hop.
    { rewrite <- (T (CurTok s)) in *.
      destruct (precedence_in_range (BinopPrecedence s) (CurTok s)); lia. }
    inversion Ops as [n|o tx x ts' l' n Ho Ox Ops']; subst.
    { exfalso. rewrite (CurTok_pending s), P in Hop. cbn [app] in Hop. lia. }
    assert (CurTok s = tok o) as Co by (rewrite (CurTok_pending s), P; reflexivity).
    rewrite P in Pg. cbn [app] in Pg. rewrite <- app_assoc in Pg.
    destruct (pending_cons _ _ _ Pg) as (_ & _ & Pn).
    destruct (ParsePrimary fuel _) as [[r2 s2]|] eqn:PP; [|discriminate].
    destruct (IHp _ tx x (ts' ++ rest)%list r2 s2 (table_is_getNextToken _ _ Tg))
      as (-> & P2 & T2); auto.
    { rewrite head_tok_app. exact Ox. }
    rewrite (GetTokPrecedence_table_is prec s2 T2).
    pose proof (table_is_GetTokPrecedence _ _ T2) as Tn.
    pose proof (GetTokPrecedence_CurTok s2) as Cn.
    pose proof (pending_GetTokPrecedence s2) as Pnn. rewrite P2 in Pnn.
    set (sn := (GetTokPrecedence s2).2) in *.
    assert (chr (to_char (CurTok s)) = tok o) as Ho'.
    { rewrite Co. apply (table_is_ascii prec s _ T). exact Ho. }
    assert (insert_operand prec g (tok o) x = group (to_char (CurTok s)) g (operand_of x))
      as Ins.
    { rewrite insert_operand_root; [rewrite Co; reflexivity | rewrite <- Co; exact Pre]. }
    destruct (Z.ltb_spec (prec (CurTok s)) (prec (CurTok s2))) as [L2|L2].
    + destruct (ParseBinOpRHS fuel _ x sn) as [[r3 s3]|] eqn:B; [|discriminate].
      destruct (IHbin (prec (CurTok s) + 1) (operand_of x) sn ts' l' rest r3 s3 Tn)
        as (l1' & l2' & ts2' & -> & -> & T3 & P3 & O3 & F3 & L3); auto; [lia | exact I|].
      intros H.
      destruct (IHbin ExprPrec
                  (group (to_char (CurTok s)) g (grouping prec (operand_of x) l1'))
                  s3 ts2' l2' rest r s' T3 HE O3 End P3)
        as (l1'' & l2'' & ts2'' & -> & -> & T4 & P4 & O4 & F4 & L4).
      { cbn [group_binds_before]. rewrite Ho', <- Co. lia. }
      { exact H. }
      exists ((tok o, x) :: l1' ++ l1'')%list, l2'', ts2''. repeat split; auto.
      * cbn [app]. rewrite <- app_assoc. reflexivity.
      * f_equal. f_equal.
        change (grouping prec g ((tok o, x) :: l1' ++ l1''))
          with (grouping prec (insert_operand prec g (tok o) x) (l1' ++ l1'')).
        rewrite Ins, grouping_app. f_equal. symmetry. apply grouping_right.
        rewrite Ho', <- Co. eapply Forall_impl; [exact F3|]. cbv beta. intros; lia.
      * constructor; [cbn [fst]; rewrite <- Co; exact L|].
        apply Forall_app. split; [|exact F4].
        eapply Forall_impl; [exact F3|]. cbv beta. intros; lia.
    + intros H.
      destruct (IHbin ExprPrec (group (to_char (CurTok s)) g (operand_of x))
                  sn ts' l' rest r s' Tn HE Ops' End Pnn)
        as (l1'' & l2'' & ts2'' & -> & -> & T4 & P4 & O4 & F4 & L4).
      { cbn [group_binds_before]. rewrite Ho', <- Co. subst sn. rewrite Cn. lia. }
      { exact H. }
      exists ((tok o, x) :: l1'')%list, l2'', ts2''. repeat split; auto.
      * f_equal. f_equal.
        change (grouping prec g ((tok o, x) :: l1''))
          with (grouping prec (insert_operand prec g (tok o) x) l1'').
        rewrite Ins. reflexivity.
      * constructor; [cbn [fst]; rewrite <- Co; exact L | exact F4].
  - (* ParseExpression *)
    intros s ts e rest r s' T S P. rewrite ParseExpression_S.
    inversion S as [ts0 e0 ts1 l n O Ops End]; subst.
    rewrite <- app_assoc in P.
    destruct (ParsePrimary fuel s) as [[r1 s1]|] eqn:PP; [|discriminate].
    destruct (IHp s ts0 e0 (ts1 ++ rest)%list r1 s1 T) as (-> & P1 & T1); auto.
    { rewrite head_tok_app. exact O. }
    intros H.
    destruct (IHbin 0 (operand_of e0) s1 ts1 l rest r s' T1)
      as (l1 & l2 & ts2 & -> & -> & T' & P' & O' & _ & L'); auto; [lia | exact I|].
    inversion O' as [n|o tx x ts' l' n Ho Ox Ops']; subst.
    + rewrite app_nil_r. auto.
    + exfalso. rewrite (CurTok_pending s'), P' in L'. cbn [app head_tok] in L'. lia.
Qed.

End Sentences_parsed.

(** ** Programs are accepted *)

Lemma pending_prompted s : pending (prompted s) = pending s.
Proof. apply pending_set_stderr. Qed.

Lemma pending_nil s : pending s = [] -> CurTok s = tok_eof.
Proof. intros H. rewrite (CurTok_pending s), H. reflexivity. Qed.

Lemma ParsePrototype_prototype prec s tp p rest :
  table_is prec s ->
  prototype_tokens tp p -> pending s = (tp ++ rest)%list ->
  (ParsePrototype s).1 = Some p /\ pending (ParsePrototype s).2 = rest /\
  stderr (ParsePrototype s).2 = stderr s /\ table_is prec (ParsePrototype s).2.
Proof.
  intros T G P. inversion G as [t lp params rp Ht Hl F Hr]; subst.
  cbn [app] in P. rewrite <- app_assoc in P. cbn [app] in P.
  pose proof (ParsePrototype_tokens s t lp params (rp :: rest) P Ht Hl F) as H.
  cbn [head_tok] in H. rewrite Hr in H.
  change (chr ")" =? chr ")") with true in H. cbv iota in H.
  destruct H as (H1 & H2 & H3 & H4); [discriminate|].
  repeat split; try assumption. intros k. rewrite H4. apply T.
Qed.

Lemma MainLoop_program prec ts out :
  program prec ts out ->
  forall fuel s r, table_is prec s -> pending s = ts ->
    MainLoop fuel s = Some r -> stderr r.2 = (stderr s ++ out)%list.
Proof.
  induction 1 as [|t ts out Ht _ IH|d tp p te e ts out Hd Gp Se _ IH
                  |x tp p ts out Hx Gp _ IH|te e ts out Se _ IH];
    intros fuel s r T P; (destruct fuel as [|fuel]; [discriminate|]); rewrite MainLoop_S;
    pose proof (pending_prompted s) as Pp; rewrite P in Pp;
    assert (table_is prec (prompted s)) as Tp by exact T;
    assert (stderr (prompted s) = (stderr s ++ ["ready> "])%list) as Ep by reflexivity.
  - rewrite (pending_nil s P). change (tok_eof =? tok_eof) with true. cbv iota.
    intros [= <-]. exact Ep.
  - destruct (pending_cons _ _ _ Pp) as (I & _ & Q).
    assert (CurTok s = chr ";") as C by (rewrite <- Ht, <- I; reflexivity).
    rewrite C. change (chr ";" =? tok_eof) with false.
    change (chr ";" =? chr ";") with true. cbv iota.
    intros H. rewrite (IH _ _ _ (table_is_getNextToken _ _ Tp) Q H).
    rewrite getNextToken_stderr, Ep, <- app_assoc. reflexivity.
  - destruct (pending_cons _ _ _ Pp) as (I & _ & Q).
    assert (CurTok s = tok_def) as C by (rewrite <- Hd, <- I; reflexivity).
    rewrite C. change (tok_def =? tok_eof) with false.
    change (tok_def =? chr ";") with false.
    change (tok_def =? tok_def) with true. cbv iota.
    rewrite HandleDefinition_eq, ParseDefinition_S.
    destruct (ParsePrototype_prototype prec _ tp p (te ++ ts)%list
                (table_is_getNextToken _ _ Tp) Gp Q) as (R1 & P1 & E1 & T1).
    destruct (ParsePrototype _) as [r1 s1]. cbn [fst snd] in *. subst r1.
    destruct (ParseExpression fuel s1) as [[r2 s2]|] eqn:PE; [|discriminate].
    destruct (parse_sentence prec fuel) as (_ & _ & _ & _ & _ & He).
    destruct (He s1 te e ts r2 s2 T1 Se P1 PE) as (-> & P2 & T2).
    apply parse_outcome in PE. cbn [outcome] in PE.
    intros H.
    rewrite (IH _ (fprintf_stderr status_definition s2).2 _ T2
               (eq_trans (pending_set_stderr s2 _) P2) H).
    cbn [fprintf_stderr snd stderr set_stderr].
    rewrite PE, E1, getNextToken_stderr, Ep, <- !app_assoc. reflexivity.
  - destruct (pending_cons _ _ _ Pp) as (I & _ & Q).
    assert (CurTok s = tok_extern) as C by (rewrite <- Hx, <- I; reflexivity).
    rewrite C. change (tok_extern =? tok_eof) with false.
    change (tok_extern =? chr ";") with false.
    change (tok_extern =? tok_def) with false.
    change (tok_extern =? tok_extern) with true. cbv iota.
    rewrite HandleExtern_eq. unfold ParseExtern.
    destruct (ParsePrototype_prototype prec _ tp p ts
                (table_is_getNextToken _ _ Tp) Gp Q) as (R1 & P1 & E1 & T1).
    destruct (ParsePrototype _) as [r1 s1]. cbn [fst snd] in *. subst r1.
    intros H.
    rewrite (IH _ (fprintf_stderr status_extern s1).2 _ T1
               (eq_trans (pending_set_stderr s1 _) P1) H).
    cbn [fprintf_stderr snd stderr set_stderr].
    rewrite E1, getNextToken_stderr, Ep, <- !app_assoc. reflexivity.
  - destruct (sentence_head prec _ _ _ Se) as (t & q & -> & Hh).
    cbn [app] in *.
    assert (CurTok s = tok t) as C by (rewrite (CurTok_pending s), P; reflexivity).
    rewrite C.
    assert ((tok t =? tok_eof) = false /\ (tok t =? chr ";") = false /\
            (tok t =? tok_def) = false /\ (tok t =? tok_extern) = false) as (-> & -> & -> & ->).
    { destruct Hh as [K|[K|K]]; rewrite K; repeat split; reflexivity. }
    rewrite HandleTopLevelExpression_eq, ParseTopLevelExpr_S.
    destruct (ParseExpression fuel (prompted s)) as [[r2 s2]|] eqn:PE; [|discriminate].
    destruct (parse_sentence prec fuel) as (_ & _ & _ & _ & _ & He).
    destruct (He (prompted s) (t :: q) e ts r2 s2 Tp Se Pp PE) as (-> & P2 & T2).
    apply parse_outcome in PE. cbn [outcome] in PE.
    intros H.
    rewrite (IH _ (fprintf_stderr status_toplevel s2).2 _ T2
               (eq_trans (pending_set_stderr s2 _) P2) H).
    cbn [fprintf_stderr snd stderr set_stderr].
    rewrite PE, Ep, <- !app_assoc. reflexivity.
Qed.

(** ** The names in the trees *)

Lemma lexer_ok_getNextToken s : char_or_EOF (LastChar s) -> lexer_ok (getNextToken s).2.
Proof.
  intros C. destruct (gettok_lexed s C) as [C' H].
  unfold lexer_ok, getNextToken. cbn [snd LastChar CurTok IdentifierStr set_CurTok].
  split; [exact C'|]. intros E. rewrite E in H.
  destruct H as [H|[[H _]|[[H _]|[[_ H]|[H|H]]]]]; try discriminate H.
  - exact H.
  - exfalso. destruct H as [[H _] _]. unfold tok_identifier in H. lia.
Qed.

Lemma lexer_ok_steps :
  (forall s, lexer_ok s -> lexer_ok (getNextToken s).2) /\
  (forall s, lexer_ok s -> lexer_ok (GetTokPrecedence s).2) /\
  (forall s v, lexer_ok s -> lexer_ok (set_stderr s v)).
Proof.
  repeat apply conj.
  - intros s [H _]. apply lexer_ok_getNextToken, H.
  - intros s H. destruct (GetTokPrecedence_frame s) as (_ & B & I & _ & C & _).
    unfold lexer_ok. rewrite B, I, C. exact H.
  - intros s v H. exact H.
Qed.

Lemma lexer_ok_main_init inp : lexer_ok (main_init inp).
Proof.
  apply lexer_ok_getNextToken. unfold char_or_EOF.
  cbn [LastChar set_BinopPrecedence initial_state]. change (chr " ") with 32. lia.
Qed.

Lemma names_ok_args_app a b :
  fold_right (fun a P => names_ok a /\ P) True (a ++ b)%list <->
  fold_right (fun a P => names_ok a /\ P) True a /\
  fold_right (fun a P => names_ok a /\ P) True b.
Proof.
  induction a as [|x a IH]; cbn [app fold_right]; [tauto|]. rewrite IH. tauto.
Qed.

Lemma parse_names fuel :
  (forall s e s', lexer_ok s -> ParsePrimary fuel s = Some (Some e, s') -> names_ok e) /\
  (forall s e s', lexer_ok s -> ParseParenExpr fuel s = Some (Some e, s') -> names_ok e) /\
  (forall s e s', lexer_ok s -> CurTok s = tok_identifier ->
     ParseIdentifierExpr fuel s = Some (Some e, s') -> names_ok e) /\
  (forall Acc s Args s', lexer_ok s ->
     fold_right (fun a P => names_ok a /\ P) True Acc ->
     ParseCallArgs fuel Acc s = Some (Some Args, s') ->
     fold_right (fun a P => names_ok a /\ P) True Args) /\
  (forall ExprPrec LHS s e s', lexer_ok s -> names_ok LHS ->
     ParseBinOpRHS fuel ExprPrec LHS s = Some (Some e, s') -> names_ok e) /\
  (forall s e s', lexer_ok s -> ParseExpression fuel s = Some (Some e, s') -> names_ok e).
Proof.
  destruct lexer_ok_steps as (A1 & A2 & A3).
  induction fuel as [|fuel (IHp & IHpar & IHid & IHargs & IHbin & IHe)].
  { repeat split; intros; discriminate. }
  destruct (parse_preserves lexer_ok A1 A2 A3 fuel) as (Kp & _ & _ & Kargs & Kbin & Ke).
  repeat apply conj.
  - intros s e s' I. rewrite ParsePrimary_S.
    destruct (Z.eqb_spec (CurTok s) tok_identifier) as [E|_]; [apply IHid; assumption|].
    destruct (_ =? _). { rewrite ParseNumberExpr_eq. intros [= <- _]. exact Logic.I. }
    destruct (_ =? _); [apply IHpar, I | discriminate].
  - intros s e s' I. rewrite ParseParenExpr_S.
    destruct (ParseExpression fuel _) as [[[V|] s1]|] eqn:P; try discriminate.
    apply (IHe _ _ _ (A1 _ I)) in P.
    destruct (negb _); [discriminate|]. intros [= <- _]. exact P.
  - intros s e s' I C. rewrite ParseIdentifierExpr_S. cbv zeta.
    destruct I as [I1 I2]. specialize (I2 C).
    pose proof (lexer_ok_getNextToken _ I1) as J1.
    destruct (negb _). { intros [= <- _]. exact I2. }
    destruct (negb _).
    + destruct (ParseCallArgs fuel _ _) as [[[A|] s3]|] eqn:P; try discriminate.
      apply (IHargs [] _ _ _ (A1 _ J1) Logic.I) in P.
      intros [= <- _]. split; assumption.
    + intros [= <- _]. split; [exact I2 | exact Logic.I].
  - intros Acc s Args s' I HA. rewrite ParseCallArgs_S.
    destruct (ParseExpression fuel s) as [[[Arg|] s1]|] eqn:P; try discriminate.
    pose proof (Ke _ _ _ I P) as I1. apply (IHe _ _ _ I) in P.
    assert (fold_right (fun a P => names_ok a /\ P) True (Acc ++ [Arg])%list) as HA'.
    { apply names_ok_args_app. cbn [fold_right]. tauto. }
    destruct (_ =? _). { intros [= <- _]. exact HA'. }
    destruct (negb _); [discriminate|].
    apply IHargs; [apply A1, I1 | exact HA'].
  - intros ExprPrec LHS s e s' I HL. rewrite ParseBinOpRHS_S. cbv zeta.
    destruct (_ <? ExprPrec). { intros [= <- _]. exact HL. }
    destruct (ParsePrimary fuel _) as [[[RHS|] s2]|] eqn:P; try discriminate.
    pose proof (Kp _ _ _ (A1 _ (A2 _ I)) P) as I2. apply (IHp _ _ _ (A1 _ (A2 _ I))) in P.
    destruct (_ <? _).
    + destruct (ParseBinOpRHS fuel _ RHS _) as [[[RHS'|] s3]|] eqn:B; try discriminate.
      pose proof (Kbin _ _ _ _ _ (A2 _ I2) B) as I3.
      apply (IHbin _ _ _ _ _ (A2 _ I2) P) in B.
      apply IHbin; [exact I3 | split; assumption].
    + apply IHbin; [exact (A2 _ I2) | split; assumption].
  - intros s e s' I. rewrite ParseExpression_S.
    destruct (ParsePrimary fuel s) as [[[LHS|] s1]|] eqn:P; try discriminate.
    pose proof (Kp _ _ _ I P) as I1. apply (IHp _ _ _ I) in P.
    apply IHbin; assumption.
Qed.

Lemma ParsePrototype_args_names s Acc :
  char_or_EOF (LastChar s) -> Forall name_ok Acc ->
  Forall name_ok (ParsePrototype_args s Acc).1.
Proof.
  apply (ParsePrototype_args_elim (fun s Acc r =>
    char_or_EOF (LastChar s) -> Forall name_ok Acc -> Forall name_ok r.1)).
  clear s Acc. intros s Acc IH C F.
  destruct (lexer_ok_getNextToken s C) as [C1 N1].
  destruct (getNextToken_frame s) as (E & _).
  destruct (decide _) as [H|H]; [|exact F].
  apply (IH H C1). apply Forall_app. split; [exact F|].
  constructor; [|constructor]. apply N1. rewrite E. exact H.
Qed.

Lemma ParsePrototype_names s p s' :
  lexer_ok s -> ParsePrototype s = (Some p, s') ->
  name_ok (Name p) /\ Forall name_ok (Args p).
Proof.
  intros [C N]. unfold ParsePrototype. cbv zeta.
  destruct (Z.eqb_spec (CurTok s) tok_identifier) as [E|E]; cbn [negb]; [|discriminate].
  destruct (negb _); [discriminate|].
  destruct (negb _); [discriminate|].
  intros [= <- _]. cbn [Name Args]. split; [exact (N E)|].
  apply ParsePrototype_args_names; [|constructor].
  apply (lexer_ok_getNextToken s C).
Qed.

(** ** The trees returned are the trees of sentences *)

Lemma head_or_app ts ts2 next : head_or (ts ++ ts2) next = head_or ts (head_or ts2 next).
Proof. destruct ts; reflexivity. Qed.

Lemma consumed_head s s' ts : consumed s s' ts -> CurTok s = head_or ts (CurTok s').
Proof.
  unfold consumed. intros H.
  rewrite (CurTok_pending s), H, head_tok_app, <- CurTok_pending. reflexivity.
Qed.

Lemma operands_app prec ts1 ts2 next l1 l2 :
  operands prec ts1 (head_or ts2 next) l1 -> operands prec ts2 next l2 ->
  operands prec (ts1 ++ ts2) next (l1 ++ l2).
Proof.
  intros O1 O2. remember (head_or ts2 next) as n eqn:En.
  induction O1 as [n|o tx x ts l n Ho Ox _ IH]; [exact O2|].
  specialize (IH En). subst n.
  cbn [app]. rewrite <- app_assoc. apply S_operand; [exact Ho | | exact IH].
  rewrite head_or_app. exact Ox.
Qed.

Section Sentences_returned.

Variable prec : Z -> Z.

Lemma parse_returns_sentence fuel :
  (forall s e s', table_is prec s ->
     ParsePrimary fuel s = Some (Some e, s') ->
     table_is prec s' /\
     exists ts, consumed s s' ts /\ operand prec ts (CurTok s') e) /\
  (forall s e s', table_is prec s -> CurTok s = chr "(" ->
     ParseParenExpr fuel s = Some (Some e, s') ->
     table_is prec s' /\
     exists ts, consumed s s' ts /\ operand prec ts (CurTok s') e) /\
  (forall s e s', table_is prec s -> CurTok s = tok_identifier ->
     ParseIdentifierExpr fuel s = Some (Some e, s') ->
     table_is prec s' /\
     exists ts, consumed s s' ts /\ operand prec ts (CurTok s') e) /\
  (forall Acc s Args s', table_is prec s ->
     ParseCallArgs fuel Acc s = Some (Some Args, s') ->
     table_is prec s' /\ CurTok s' = chr ")" /\
     exists ts new, consumed s s' ts /\ Args = (Acc ++ new)%list /\
                    arguments prec ts new) /\
  (forall ExprPrec g s e s', table_is prec s -> 0 <= ExprPrec ->
     group_binds_before prec g (CurTok s) ->
     ParseBinOpRHS fuel ExprPrec (ungroup g) s = Some (Some e, s') ->
     table_is prec s' /\ prec (CurTok s') < ExprPrec /\
     exists ts l, consumed s s' ts /\ operands prec ts (CurTok s') l /\
                  e = ungroup (grouping prec g l) /\
                  Forall (fun p => ExprPrec <= prec p.1) l) /\
  (forall s e s', table_is prec s ->
     ParseExpression fuel s = Some (Some e, s') ->
     table_is prec s' /\
     exists ts, consumed s s' ts /\ sentence prec ts (CurTok s') e).
Proof.
  induction fuel as [|fuel (IHp & IHpar & IHid & IHargs & IHbin & IHe)].
  { repeat split; intros; discriminate. }
  repeat apply conj.
  - (* ParsePrimary *)
    intros s e s' T. rewrite ParsePrimary_S.
    destruct (Z.eqb_spec (CurTok s) tok_identifier) as [E1|E1]; [apply IHid; assumption|].
    destruct (Z.eqb_spec (CurTok s) tok_number) as [E2|E2].
    { rewrite ParseNumberExpr_eq. intros [= <- <-]. fold_getNextToken.
      split; [apply table_is_getNextToken, T|].
      exists [current_item s]. split.
      - apply consumed_getNextToken. rewrite E2. discriminate.
      - apply (S_number prec (current_item s)). exact E2. }
    destruct (Z.eqb_spec (CurTok s) (chr "(")) as [E3|E3]; [apply IHpar; assumption|].
    discriminate.
  - (* ParseParenExpr *)
    intros s e s' T C. rewrite ParseParenExpr_S.
    destruct (ParseExpression fuel _) as [[[V|] s1]|] eqn:P; try discriminate.
    apply (IHe _ _ _ (table_is_getNextToken _ _ T)) in P as (T1 & ts & C1 & G1).
    destruct (Z.eqb_spec (CurTok s1) (chr ")")) as [E|E]; cbn [negb]; [|discriminate].
    intros [= <- <-]. fold_getNextToken.
    split; [apply table_is_getNextToken, T1|].
    exists (current_item s :: ts ++ [current_item s1]). split.
    + apply (consumed_app s (getNextToken s).2 _ [current_item s]).
      { apply consumed_getNextToken. rewrite C. discriminate. }
      apply (consumed_app _ s1 _ ts); [exact C1|].
      apply consumed_getNextToken. rewrite E. discriminate.
    + apply S_paren; [exact C | rewrite <- E; exact G1 | exact E].
  - (* ParseIdentifierExpr *)
    intros s e s' T C. rewrite ParseIdentifierExpr_S. cbv zeta.
    assert (consumed s (getNextToken s).2 [current_item s]) as C0.
    { apply consumed_getNextToken. rewrite C. discriminate. }
    destruct (Z.eqb_spec (CurTok (getNextToken s).2) (chr "(")) as [E|E]; cbn [negb].
    2:{ intros [= <- <-]. split; [apply table_is_getNextToken, T|].
        exists [current_item s]. split; [exact C0|].
        apply (S_variable prec (current_item s)); assumption. }
    set (s1 := (getNextToken s).2) in *.
    assert (consumed s1 (getNextToken s1).2 [current_item s1]) as C1.
    { apply consumed_getNextToken. rewrite E. discriminate. }
    assert (table_is prec (getNextToken s1).2) as T2.
    { apply table_is_getNextToken, table_is_getNextToken, T. }
    set (s2 := (getNextToken s1).2) in *.
    destruct (Z.eqb_spec (CurTok s2) (chr ")")) as [E2|E2]; cbn [negb].
    + intros [= <- <-]. fold_getNextToken.
      split; [apply table_is_getNextToken, T2|].
      exists [current_item s; current_item s1; current_item s2]. split.
      * apply (consumed_app s s1 _ [current_item s] [_; _] C0).
        apply (consumed_app s1 s2 _ [current_item s1] [_] C1).
        apply consumed_getNextToken. rewrite E2. discriminate.
      * apply (S_call_empty prec (current_item s) (current_item s1) (current_item s2));
          assumption.
    + destruct (ParseCallArgs fuel _ _) as [[[A|] s3]|] eqn:P; try discriminate.
      apply (IHargs _ _ _ _ T2) in P as (T3 & E3 & ts & new & C3 & -> & G3).
      intros [= <- <-]. fold_getNextToken.
      split; [apply table_is_getNextToken, T3|].
      exists (current_item s :: current_item s1 :: ts ++ [current_item s3]). split.
      * apply (consumed_app s s1 _ [current_item s] _ C0).
        apply (consumed_app s1 s2 _ [current_item s1] _ C1).
        apply (consumed_app s2 s3 _ ts _ C3).
        apply consumed_getNextToken. rewrite E3. discriminate.
      * apply S_call; assumption.
  - (* ParseCallArgs *)
    intros Acc s Args s' T. rewrite ParseCallArgs_S.
    destruct (ParseExpression fuel s) as [[[Arg|] s1]|] eqn:P; try discriminate.
    apply (IHe _ _ _ T) in P as (T1 & ts & C1 & G1).
    destruct (Z.eqb_spec (CurTok s1) (chr ")")) as [E|E].
    { intros [= <- <-]. split; [exact T1|]. split; [exact E|].
      exists ts, [Arg]. split; [exact C1|]. split; [reflexivity|].
      apply S_last_argument. rewrite <- E. exact G1. }
    destruct (Z.eqb_spec (CurTok s1) (chr ",")) as [E'|E']; cbn [negb]; [|discriminate].
    intros H.
    apply (IHargs _ _ _ _ (table_is_getNextToken _ _ T1)) in H
      as (T2 & E2 & ts' & new & C2 & -> & G2).
    split; [exact T2|]. split; [exact E2|].
    exists (ts ++ current_item s1 :: ts')%list, (Arg :: new). split; [|split].
    + apply (consumed_app s s1 _ ts _ C1).
      apply (consumed_app s1 (getNextToken s1).2 _ [current_item s1] _); [|exact C2].
      apply consumed_getNextToken. rewrite E'. discriminate.
    + rewrite <- app_assoc. reflexivity.
    + apply S_argument; [rewrite <- E'; exact G1 | exact E' | exact G2].
  - (* ParseBinOpRHS *)
    intros ExprPrec g s e s' T HE Pre. rewrite ParseBinOpRHS_S. cbv zeta.
    rewrite (GetTokPrecedence_table_is prec s T).
    pose proof (table_is_GetTokPrecedence _ _ T) as Tg.
    pose proof (GetTokPrecedence_CurTok s) as Cg.
    set (sg := (GetTokPrecedence s).2) in *. rewrite Cg.
    destruct (Z.ltb_spec (prec (CurTok s)) ExprPrec) as [L|L].
    { intros [= <- <-]. split; [exact Tg|]. rewrite Cg. split; [exact L|].
      exists [], []. split; [apply consumed_GetTokPrecedence|].
      split; [constructor|]. split; [reflexivity | constructor]. }
    assert (0 < prec (CurTok s)) as Hop.
    { rewrite <- (T (CurTok s)) in *.
      destruct (precedence_in_range (BinopPrecedence s) (CurTok s)); lia. }
    assert (CurTok s <> tok_eof) as Hne.
    { intros K. rewrite K, <- (T tok_eof), precedence_in_eof in Hop. lia. }
    assert (consumed s (getNextToken sg).2 [current_item s]) as C0.
    { apply (consumed_app s sg _ [] [_] (consumed_GetTokPrecedence s)).
      rewrite <- current_item_GetTokPrecedence. apply consumed_getNextToken.
      subst sg. rewrite Cg. exact Hne. }
    assert (chr (to_char (CurTok s)) = CurTok s) as Ho'.
    { apply (table_is_ascii prec s _ T). exact Hop. }
    assert (forall x, insert_operand prec g (CurTok s) x
                      = group (to_char (CurTok s)) g (operand_of x)) as Ins.
    { intros x. apply insert_operand_root. exact Pre. }
    destruct (ParsePrimary fuel _) as [[[RHS|] s2]|] eqn:P; try discriminate.
    apply (IHp _ _ _ (table_is_getNextToken _ _ Tg)) in P as (T2 & t2 & C2 & G2).
    rewrite (GetTokPrecedence_table_is prec s2 T2).
    pose proof (table_is_GetTokPrecedence _ _ T2) as Tn.
    pose proof (GetTokPrecedence_CurTok s2) as Cn.
    pose proof (consumed_GetTokPrecedence s2) as C2n.
    set (sn := (GetTokPrecedence s2).2) in *.
    destruct (Z.ltb_spec (prec (CurTok s)) (prec (CurTok s2))) as [L2|L2].
    + destruct (ParseBinOpRHS fuel _ RHS sn) as [[[RHS'|] s3]|] eqn:B; try discriminate.
      apply (IHbin (prec (CurTok s) + 1) (operand_of RHS) _ _ _ Tn) in B
        as (T3 & L3 & t3 & l3 & C3 & O3 & -> & F3); [|lia|exact I].
      intros H.
      change (BinaryExprAST (to_char (CurTok s)) (ungroup g)
                (ungroup (grouping prec (operand_of RHS) l3)))
        with (ungroup (group (to_char (CurTok s)) g (grouping prec (operand_of RHS) l3)))
        in H.
      apply (IHbin ExprPrec _ _ _ _ T3 HE) in H
        as (T4 & L4 & t4 & l4 & C4 & O4 & -> & F4).
      2:{ cbn [group_binds_before]. rewrite Ho'. lia. }
      split; [exact T4|]. split; [exact L4|].
      exists (current_item s :: t2 ++ t3 ++ t4)%list, ((CurTok s, RHS) :: l3 ++ l4)%list.
      split; [|split; [|split]].
      * apply (consumed_app s _ _ [current_item s] _ C0).
        apply (consumed_app _ s2 _ t2 _ C2).
        apply (consumed_app s2 sn _ [] _ C2n).
        apply (consumed_app sn s3 _ t3 _ C3 C4).
      * rewrite (consumed_head _ _ _ C4) in O3.
        apply (S_operand prec (current_item s) t2 RHS (t3 ++ t4)%list (l3 ++ l4)%list);
          [exact Hop | | apply operands_app; assumption].
        rewrite head_or_app, <- (consumed_head _ _ _ C4), <- (consumed_head _ _ _ C3).
        subst sn. rewrite Cn. exact G2.
      * f_equal.
        change (grouping prec g ((CurTok s, RHS) :: l3 ++ l4))
          with (grouping prec (insert_operand prec g (CurTok s) RHS) (l3 ++ l4)).
        rewrite Ins, grouping_app. f_equal. symmetry. apply grouping_right.
        rewrite Ho'. eapply Forall_impl; [exact F3|]. cbv beta. intros; lia.
      * constructor; [exact L|]. apply Forall_app. split; [|exact F4].
        eapply Forall_impl; [exact F3|]. cbv beta. intros; lia.
    + intros H.
      change (BinaryExprAST (to_char (CurTok s)) (ungroup g) RHS)
        with (ungroup (group (to_char (CurTok s)) g (operand_of RHS))) in H.
      apply (IHbin ExprPrec _ _ _ _ Tn HE) in H
        as (T4 & L4 & t4 & l4 & C4 & O4 & -> & F4).
      2:{ cbn [group_binds_before]. rewrite Ho'. subst sn. rewrite Cn. lia. }
      split; [exact T4|]. split; [exact L4|].
      exists (current_item s :: t2 ++ t4)%list, ((CurTok s, RHS) :: l4)%list.
      split; [|split; [|split]].
      * apply (consumed_app s _ _ [current_item s] _ C0).
        apply (consumed_app _ s2 _ t2 _ C2).
        apply (consumed_app s2 sn _ [] _ C2n). exact C4.
      * apply (S_operand prec (current_item s) t2 RHS t4 l4); [exact Hop | | exact O4].
        rewrite <- (consumed_head _ _ _ C4). subst sn. rewrite Cn. exact G2.
      * f_equal.
        change (grouping prec g ((CurTok s, RHS) :: l4))
          with (grouping prec (insert_operand prec g (CurTok s) RHS) l4).
        rewrite Ins. reflexivity.
      * constructor; [exact L | exact F4].
  - (* ParseExpression *)
    intros s e s' T. rewrite ParseExpression_S.
    destruct (ParsePrimary fuel s) as [[[LHS|] s1]|] eqn:P; try discriminate.
    apply (IHp _ _ _ T) in P as (T1 & t1 & C1 & G1).
    intros H.
    apply (IHbin 0 (operand_of LHS) _ _ _ T1) in H as (T2 & L2 & t2 & l & C2 & O2 & -> & _);
      [|lia|exact I].
    split; [exact T2|].
    exists (t1 ++ t2)%list. split; [apply (consumed_app s s1 _ t1 _ C1 C2)|].
    apply S_sentence; [|exact O2|exact L2].
    rewrite <- (consumed_head _ _ _ C2). exact G1.
Qed.

End Sentences_returned.

(** ** Output without error messages *)

Lemma status_no_error line :
  line = "ready> " \/ line = status_definition \/ line = status_extern \/
  line = status_toplevel ->
  ~ error_message line.
Proof.
  intros H (t & O). unfold offending in O.
  destruct H as [-> | [-> | [-> | ->]]];
    repeat (destruct O as [O|O]; [destruct O as [O _]; discriminate O|]);
    destruct O as [O _]; discriminate O.
Qed.

Lemma failed_at_error s s' :
  failed_at s s' -> exists msg, stderr s' = (stderr s ++ [msg])%list /\ error_message msg.
Proof. intros (msg & E & O). exists msg. split; [exact E|]. exists (CurTok s'). exact O. Qed.

Lemma table_is_steps prec :
  (forall s, table_is prec s -> table_is prec (getNextToken s).2) /\
  (forall s, table_is prec s -> table_is prec (GetTokPrecedence s).2) /\
  (forall s v, table_is prec s -> table_is prec (set_stderr s v)).
Proof.
  repeat split.
  - apply table_is_getNextToken.
  - apply table_is_GetTokPrecedence.
  - intros s v T. exact T.
Qed.

Lemma HandleDefinition_handled prec fuel s r :
  table_is prec s -> CurTok s = tok_def ->
  HandleDefinition fuel s = Some r -> handled prec s r.2.
Proof.
  intros T C H.
  destruct (table_is_steps prec) as (A1 & A2 & A3).
  split.
  { destruct r as [u s1]. exact (HandleDefinition_preserves _ A1 A2 A3 _ _ _ _ T H). }
  revert H. rewrite HandleDefinition_eq.
  destruct (ParseDefinition fuel s) as [[[f|] s1]|] eqn:PD; try discriminate.
  - intros [= <-]. left. revert PD. rewrite ParseDefinition_S.
    destruct (ParsePrototype _) as [[p|] sp] eqn:PP; [|discriminate].
    pose proof (ParsePrototype_outcome (getNextToken s).2) as Op.
    rewrite PP in Op. cbn [fst snd outcome] in Op. rewrite getNextToken_stderr in Op.
    apply (ParsePrototype_consumes prec) in PP as (Tp & tp & Cp & Gp); [|apply A1, T].
    destruct (ParseExpression fuel sp) as [[[E|] s2]|] eqn:PE; try discriminate.
    intros [= _ <-].
    pose proof PE as Oe. apply parse_outcome in Oe. cbn [outcome] in Oe.
    destruct (parse_returns_sentence prec fuel) as (_ & _ & _ & _ & _ & He).
    destruct (He _ _ _ Tp PE) as (_ & te & Ce & Se).
    assert (consumed s s2 (current_item s :: tp ++ te)) as Cs.
    { apply (consumed_app s (getNextToken s).2 s2 [current_item s] (tp ++ te)).
      { apply consumed_getNextToken. rewrite C. discriminate. }
      apply (consumed_app _ sp _ tp _ Cp Ce). }
    exists status_definition, (current_item s :: tp ++ te)%list.
    cbn [fprintf_stderr snd stderr set_stderr]. rewrite pending_set_stderr.
    split; [rewrite Oe, Op; reflexivity|]. split; [exact Cs|].
    intros out G. rewrite Cs. cbn [app]. rewrite <- app_assoc.
    apply (P_definition prec (current_item s) tp p te E); try assumption.
    rewrite <- CurTok_pending. exact Se.
  - intros [= <-]. right. apply ParseDefinition_outcome in PD.
    cbn [outcome] in PD. apply failed_at_error in PD as (msg & E & M).
    exists msg. cbn [snd]. fold_getNextToken. rewrite getNextToken_stderr. auto.
Qed.

Lemma HandleExtern_handled prec s r :
  table_is prec s -> CurTok s = tok_extern ->
  HandleExtern s = Some r -> handled prec s r.2.
Proof.
  intros T C H.
  destruct (table_is_steps prec) as (A1 & A2 & A3).
  split.
  { destruct r as [u s1]. exact (HandleExtern_preserves _ A1 A3 _ _ _ T H). }
  revert H. rewrite HandleExtern_eq.
  pose proof (ParseExtern_outcome s) as O.
  destruct (ParseExtern s) as [[p|] s1] eqn:PX; cbn [fst snd outcome] in O.
  - intros [= <-]. left. unfold ParseExtern in PX.
    apply (ParsePrototype_consumes prec) in PX as (Tp & tp & Cp & Gp); [|apply A1, T].
    assert (consumed s s1 (current_item s :: tp)) as Cs.
    { apply (consumed_app s (getNextToken s).2 s1 [current_item s] tp); [|exact Cp].
      apply consumed_getNextToken. rewrite C. discriminate. }
    exists status_extern, (current_item s :: tp)%list.
    cbn [fprintf_stderr snd stderr set_stderr]. rewrite pending_set_stderr.
    split; [rewrite O; reflexivity|]. split; [exact Cs|].
    intros out G. rewrite Cs. cbn [app].
    apply (P_extern prec (current_item s) tp p); assumption.
  - intros [= <-]. right. apply failed_at_error in O as (msg & E & M).
    exists msg. cbn [snd]. fold_getNextToken. rewrite getNextToken_stderr. auto.
Qed.

Lemma HandleTopLevelExpression_handled prec fuel s r :
  table_is prec s ->
  HandleTopLevelExpression fuel s = Some r -> handled prec s r.2.
Proof.
  intros T H.
  destruct (table_is_steps prec) as (A1 & A2 & A3).
  split.
  { destruct r as [u s1]. exact (HandleTopLevelExpression_preserves _ A1 A2 A3 _ _ _ _ T H). }
  revert H. rewrite HandleTopLevelExpression_eq, ParseTopLevelExpr_S.
  destruct (ParseExpression fuel s) as [[[E|] s1]|] eqn:PE; try discriminate.
  - intros [= <-]. left.
    pose proof PE as Oe. apply parse_outcome in Oe. cbn [outcome] in Oe.
    destruct (parse_returns_sentence prec fuel) as (_ & _ & _ & _ & _ & He).
    destruct (He _ _ _ T PE) as (_ & te & Ce & Se).
    exists status_toplevel, te.
    cbn [fprintf_stderr snd stderr set_stderr]. rewrite pending_set_stderr.
    split; [rewrite Oe; reflexivity|]. split; [exact Ce|].
    intros out G. rewrite Ce.
    apply (P_expression prec te E); [|exact G].
    rewrite <- CurTok_pending. exact Se.
  - intros [= <-]. right. apply parse_outcome in PE.
    cbn [outcome] in PE. apply failed_at_error in PE as (msg & E & M).
    exists msg. cbn [snd]. fold_getNextToken. rewrite getNextToken_stderr. auto.
Qed.

Lemma MainLoop_error_free prec fuel :
  forall s r, table_is prec s -> MainLoop fuel s = Some r ->
    exists out,
      stderr r.2 = (stderr s ++ out)%list /\
      (Forall (fun line => ~ error_message line) out -> program prec (pending s) out).
Proof.
  induction fuel as [|fuel IH]; intros s r T; [discriminate|].
  rewrite MainLoop_S.
  assert (stderr (prompted s) = (stderr s ++ ["ready> "])%list) as Ep by reflexivity.
  pose proof (pending_prompted s) as Pp.
  assert (table_is prec (prompted s)) as Tp by exact T.
  assert (forall s1, handled prec (prompted s) s1 ->
            MainLoop fuel s1 = Some r ->
            exists out,
              stderr r.2 = (stderr s ++ out)%list /\
              (Forall (fun line => ~ error_message line) out ->
               program prec (pending s) out)) as Step.
  { intros s1 [T1 Hd] H. apply (IH _ _ T1) in H as (out & Eo & G).
    destruct Hd as [(line & ts & E1 & _ & K)|(msg & E1 & M)].
    - exists ("ready> " :: line :: out). split.
      + rewrite Eo, E1, Ep, <- !app_assoc. reflexivity.
      + intros F. inversion F as [|? ? _ F1]; subst. inversion F1 as [|? ? _ F2]; subst.
        rewrite <- Pp. apply K, G, F2.
    - exists ("ready> " :: msg :: out). split.
      + rewrite Eo, E1, Ep, <- !app_assoc. reflexivity.
      + intros F. inversion F as [|? ? _ F1]; subst. inversion F1 as [|? ? N _]; subst.
        contradiction. }
  destruct (Z.eqb_spec (CurTok s) tok_eof) as [E|E].
  { intros [= <-]. exists ["ready> "]. split; [exact Ep|]. intros _.
    unfold pending. rewrite E. change (tok_eof =? tok_eof) with true. cbv iota.
    constructor. }
  destruct (Z.eqb_spec (CurTok s) (chr ";")) as [E1|E1].
  { intros H. apply (IH _ _ (table_is_getNextToken _ _ Tp)) in H as (out & Eo & G).
    exists ("ready> " :: out). split.
    - rewrite Eo, getNextToken_stderr, Ep, <- app_assoc. reflexivity.
    - intros F. inversion F as [|? ? _ F1]; subst.
      rewrite (pending_consume s E).
      apply P_semicolon; [exact E1|].
      rewrite <- (pending_prompted s) in Pp.
      assert (pending (getNextToken (prompted s)).2 = pending (getNextToken s).2) as <-.
      { rewrite !pending_getNextToken. apply unread_set_frame. }
      apply G, F1. }
  destruct (Z.eqb_spec (CurTok s) tok_def) as [E2|E2].
  { destruct (HandleDefinition fuel (prompted s)) as [r1|] eqn:H; [|discriminate].
    apply Step. exact (HandleDefinition_handled prec _ _ _ Tp E2 H). }
  destruct (Z.eqb_spec (CurTok s) tok_extern) as [E3|E3].
  { destruct (HandleExtern (prompted s)) as [r1|] eqn:H; [|discriminate].
    apply Step. exact (HandleExtern_handled prec _ _ Tp E3 H). }
  destruct (HandleTopLevelExpression fuel (prompted s)) as [r1|] eqn:H; [|discriminate].
  apply Step. exact (HandleTopLevelExpression_handled prec _ _ _ Tp H).
Qed.

(** * Further properties: the statements *)

(** X1: on every input the loop of the driver and the recursion of the
    parser come to an end: [main] returns 0, given fuel in proportion to
    the length of the input, with [tok_eof] current and the whole input
    read, however malformed the input is.  The fuel bounds the iterations
    of [MainLoop] and the depth of the calls of the parse functions; the
    model sets no limit of its own to that depth, as the source sets
    none. *)
Theorem main_reads_all_input (inp : string) (fuel : nat) :
  (3 * String.length inp + 9 <= fuel)%nat ->
  exists s',
    main fuel inp = Some (0, s') /\
    CurTok s' = tok_eof /\ LastChar s' = EOF /\ stdin s' = EmptyString.
Proof.
  intros F. rewrite main_eq.
  set (s0 := prompted (set_BinopPrecedence (initial_state inp) main_table)).
  assert (input_consistent (getNextToken s0).2) as I.
  { apply input_consistent_getNextToken. discriminate. }
  assert (tokens_left (getNextToken s0).2 <= String.length inp + 2)%nat as T.
  { destruct (getNextToken_left s0) as [N _].
    assert (tokens_left s0 = 2 + String.length inp)%nat as E by reflexivity. lia. }
  destruct (MainLoop_enough fuel (getNextToken s0).2) as (s' & H & C); [lia|].
  rewrite H. exists s'. split; [reflexivity|]. split; [exact C|].
  destruct input_consistent_steps as (A1 & A2 & A3).
  destruct (MainLoop_preserves input_consistent A1 A2 A3 _ _ _ _ I H) as [K1 K2].
  auto.
Qed.

Lemma main_reads_all_input_witness :
  exists s',
    main 120 "def foo(x y) x+y ); extern sin(a);" = Some (0, s') /\
    CurTok s' = tok_eof /\ LastChar s' = EOF /\ stdin s' = EmptyString.
Proof.
  apply (main_reads_all_input "def foo(x y) x+y ); extern sin(a);" 120).
  cbn [String.length]. lia.
Defined.

(** X2: a handler that is entered on a token other than [tok_eof] leaves
    fewer tokens than it found, whether the construct was parsed or not:
    a construct that fails costs its tokens read so far or the one token
    that the handler skips. *)
Theorem handler_makes_progress (fuel : nat) (s s' : state) :
  CurTok s <> tok_eof ->
  HandleDefinition fuel s = Some (tt, s') \/
  HandleExtern s = Some (tt, s') \/
  HandleTopLevelExpression fuel s = Some (tt, s') ->
  (tokens_left s' < tokens_left s)%nat.
Proof.
  intros C [H|[H|H]].
  - exact (HandleDefinition_progress _ _ _ C H).
  - exact (HandleExtern_progress _ _ C H).
  - exact (HandleTopLevelExpression_progress _ _ _ C H).
Qed.

Lemma handler_makes_progress_witness :
  (tokens_left (final_state (HandleTopLevelExpression 20) (main_init ") 1"))
   < tokens_left (main_init ") 1"))%nat.
Proof.
  apply (handler_makes_progress 20 (main_init ") 1")
           (final_state (HandleTopLevelExpression 20) (main_init ") 1"))).
  - vm_compute. discriminate.
  - right; right. vm_compute. reflexivity.
Defined.

(** X3: what [MainLoop] adds to standard error is a prompt for every
    iteration and, behind each prompt but the last, nothing when the
    current token is a ';', and otherwise exactly one line, that of the
    handler that the current token selects ([tok_def], [tok_extern], any
    other token): the status line of that handler when its parse returns a
    node, having logged nothing, and when the parse returns [nullptr] the
    one message it has logged, which complains about the token current at
    the failure, the token that the handler then skips.  The last prompt
    is written with [tok_eof] current. *)
Theorem MainLoop_writes_transcript (fuel : nat) (s s' : state) :
  MainLoop fuel s = Some (tt, s') ->
  exists out,
    stderr s' = (stderr s ++ out)%list /\ transcript out /\ run_transcript s out.
Proof.
  intros H. destruct (MainLoop_run_transcript fuel s (tt, s') H) as (out & E & R).
  exists out. split; [exact E|]. split; [exact (run_transcript_shape s out R) | exact R].
Qed.

Lemma MainLoop_writes_transcript_witness :
  exists out,
    stderr (final_state (MainLoop 50) (main_init "def f(x) x*; 2;"))
    = (stderr (main_init "def f(x) x*; 2;") ++ out)%list /\
    transcript out /\ run_transcript (main_init "def f(x) x*; 2;") out.
Proof.
  apply (MainLoop_writes_transcript 50 (main_init "def f(x) x*; 2;")
           (final_state (MainLoop 50) (main_init "def f(x) x*; 2;"))).
  vm_compute. reflexivity.
Defined.

(** X4: parsing changes the precedence table only by the zero entries
    that lookups of absent characters insert: every entry stays, every new
    key holds 0, and so the precedence of every token is what it was.
    This holds for each parse function and for the whole [MainLoop]. *)
Theorem parsing_keeps_precedences (fuel : nat) (s s' : state) :
  parser_run fuel s s' ->
  BinopPrecedence s ⊆ BinopPrecedence s' /\
  (forall k v, BinopPrecedence s !! k = None -> BinopPrecedence s' !! k = Some v -> v = 0) /\
  (forall t, precedence_in (BinopPrecedence s') t = precedence_in (BinopPrecedence s) t).
Proof.
  intros R.
  assert (table_grows (BinopPrecedence s) (BinopPrecedence s')) as G.
  { pose (Inv := fun x => table_grows (BinopPrecedence s) (BinopPrecedence x)).
    assert (forall x, Inv x -> Inv (getNextToken x).2) as A1
      by (intros x; apply table_grows_getNextToken).
    assert (forall x, Inv x -> Inv (GetTokPrecedence x).2) as A2
      by (intros x; apply table_grows_GetTokPrecedence).
    assert (forall x v, Inv x -> Inv (set_stderr x v)) as A3 by (intros x v H; exact H).
    assert (Inv s) as I0 by apply table_grows_refl.
    destruct (parse_preserves Inv A1 A2 A3 fuel) as (Pp & _ & _ & _ & Pb & Pe).
    destruct R as [r H|E L r H|r H|r H|r H|r H|r H|r H].
    - exact (Pe _ _ _ I0 H).
    - exact (Pb _ _ _ _ _ I0 H).
    - exact (Pp _ _ _ I0 H).
    - pose proof (ParsePrototype_preserves Inv A1 A3 s I0) as K. rewrite H in K. exact K.
    - exact (ParseDefinition_preserves Inv A1 A2 A3 _ _ _ _ I0 H).
    - pose proof (ParsePrototype_preserves Inv A1 A3 _ (A1 _ I0)) as K.
      fold (ParseExtern s) in K. rewrite H in K. exact K.
    - exact (ParseTopLevelExpr_preserves Inv A1 A2 A3 _ _ _ _ I0 H).
    - exact (MainLoop_preserves Inv A1 A2 A3 _ _ _ _ I0 H). }
  split; [apply G|]. split; [apply G|].
  intros t. apply table_grows_precedence, G.
Qed.

Lemma parsing_keeps_precedences_witness :
  BinopPrecedence (main_init "f(1,2);")
  ⊆ BinopPrecedence (final_state (MainLoop 50) (main_init "f(1,2);")).
Proof.
  apply (parsing_keeps_precedences 50 (main_init "f(1,2);")
           (final_state (MainLoop 50) (main_init "f(1,2);"))).
  apply (run_MainLoop _ _ _ tt). vm_compute. reflexivity.
Defined.

(** X5: [ParseExpression], [ParseDefinition], [ParseExtern] and
    [ParseTopLevelExpr] log nothing when they return a node; when they
    return [nullptr] they have logged exactly one message, that of the
    first failure, and the current token is the token that the message
    complains about. *)
Theorem construct_logs_first_failure (fuel : nat) (s s' : state) (ok : bool) :
  toplevel_run fuel s ok s' ->
  if ok then stderr s' = stderr s
  else exists msg,
         stderr s' = (stderr s ++ [msg])%list /\ offending msg (CurTok s').
Proof.
  intros [r x H|r x H|r x H|r x H]; apply outcome_bool.
  - exact (proj2 (proj2 (proj2 (proj2 (proj2 (parse_outcome fuel))))) _ _ _ H).
  - exact (ParseDefinition_outcome _ _ _ _ H).
  - pose proof (ParseExtern_outcome s) as O. rewrite H in O. exact O.
  - exact (ParseTopLevelExpr_outcome _ _ _ _ H).
Qed.

Lemma construct_logs_first_failure_witness :
  exists msg,
    stderr (final_state (ParseDefinition 30) (main_init "def f(x, y) x"))
    = (stderr (main_init "def f(x, y) x") ++ [msg])%list /\
    offending msg (CurTok (final_state (ParseDefinition 30) (main_init "def f(x, y) x"))).
Proof.
  apply (construct_logs_first_failure 30 (main_init "def f(x, y) x")
           (final_state (ParseDefinition 30) (main_init "def f(x, y) x")) false).
  apply (run_definition _ _ None). vm_compute. reflexivity.
Defined.

(** X6: a letter followed by a maximal run of letters and digits, behind
    any white space, is one token: [tok_def] when the name is "def",
    [tok_extern] when it is "extern", [tok_identifier] otherwise, with the
    whole name in [IdentifierStr]; the character behind the run is
    buffered and nothing further is read.  A keyword that goes on, as in
    "define", is an identifier. *)
Theorem gettok_identifier_run (s : state) (c a : ascii) (ws run rest : string) :
  LastChar s = chr c ->
  String c (stdin s) = ws +:+ String a run +:+ rest ->
  all_chars space ws = true ->
  isalpha (chr a) = true ->
  all_chars alnum run = true ->
  stops_at (fun x => negb (alnum x)) rest = true ->
  gettok s =
    (name_token (String a run),
     set_lexer (set_IdentifierStr s (String a run)) (getchar rest).2 (getchar rest).1) /\
  (name_token (String a run) = tok_identifier <->
   String a run <> "def" /\ String a run <> "extern").
Proof.
  intros HL Hin Hws Ha Hrun Hrest. split.
  - destruct (isalpha_class _ Ha) as (Hs & _ & _).
    rewrite append_cons in Hin.
    rewrite (gettok_lexer s (run +:+ rest) (chr a)).
    + rewrite (gettok_name (set_lexer s (run +:+ rest) (chr a)) a run rest);
        try assumption; reflexivity.
    + unfold skip_whitespace. rewrite HL.
      rewrite (skip_space_run c (stdin s) ws a (run +:+ rest) Hin Hws Hs). reflexivity.
  - unfold name_token.
    destruct (String.eqb_spec (String a run) "def") as [E1|E1].
    { split; [discriminate | intros [K _]; contradiction]. }
    destruct (String.eqb_spec (String a run) "extern") as [E2|E2].
    { split; [discriminate | intros [_ K]; contradiction]. }
    split; auto.
Qed.

Lemma gettok_identifier_run_witness :
  gettok (initial_state "  define(x)") =
    (name_token "define",
     set_lexer (set_IdentifierStr (initial_state "  define(x)") "define") "x)" (chr "(")) /\
  (name_token "define" = tok_identifier <-> "define" <> "def" /\ "define" <> "extern").
Proof.
  apply (gettok_identifier_run (initial_state "  define(x)") " " "d" "   " "efine" "(x)");
    reflexivity.
Defined.

(** X7: white space in front of a token is skipped and leaves no trace:
    [gettok] returns the token, and ends in the state, that it would
    without the white space; when only white space is left the token is
    [tok_eof]. *)
Theorem leading_whitespace_ignored (s : state) (c : ascii) (ws : string) :
  LastChar s = chr c ->
  all_chars space ws = true ->
  (forall a tail, String c (stdin s) = ws +:+ String a tail ->
     gettok s = gettok (set_lexer s tail (chr a))) /\
  (String c (stdin s) = ws -> gettok s = (tok_eof, set_lexer s EmptyString EOF)).
Proof.
  intros HL Hws. split.
  - intros a tail Hin. destruct (space a) eqn:Ea.
    + (* the white space goes on *)
      rewrite <- (gettok_skip_whitespace s),
              <- (gettok_skip_whitespace (set_lexer s tail (chr a))).
      f_equal. unfold skip_whitespace. cbn [LastChar stdin set_lexer]. rewrite HL.
      assert (skip_space (chr c) (stdin s) = skip_space (chr a) tail) as ->; [|reflexivity].
      clear HL. revert c Hin. generalize (stdin s) as inp.
      induction ws as [|w ws IH]; intros inp c Hin.
      * rewrite append_nil in Hin. injection Hin as -> ->. reflexivity.
      * rewrite append_cons in Hin. injection Hin as -> ->.
        cbn [all_chars] in Hws. apply andb_true_iff in Hws as [W1 W2].
        unfold space in W1.
        destruct ws as [|w' ws].
        -- rewrite append_nil. cbn [skip_space]. rewrite W1. reflexivity.
        -- rewrite append_cons. cbn [skip_space]. rewrite W1.
           apply (IH W2 (ws +:+ String a tail) w'). reflexivity.
    + apply gettok_lexer. unfold skip_whitespace. rewrite HL.
      rewrite (skip_space_run c (stdin s) ws a tail Hin Hws Ea). reflexivity.
  - intros Hin.
    rewrite (gettok_lexer s EmptyString EOF).
    + apply gettok_EOF. reflexivity.
    + unfold skip_whitespace. rewrite HL, (skip_space_all c (stdin s) ws Hin Hws).
      reflexivity.
Qed.

Lemma leading_whitespace_ignored_witness :
  (forall a tail, String " " (stdin (initial_state "  x+1")) = " " +:+ String a tail ->
     gettok (initial_state "  x+1") = gettok (set_lexer (initial_state "  x+1") tail (chr a))) /\
  (String " " (stdin (initial_state "  x+1")) = " " ->
   gettok (initial_state "  x+1")
   = (tok_eof, set_lexer (initial_state "  x+1") EmptyString EOF)).
Proof.
  apply (leading_whitespace_ignored (initial_state "  x+1") " " " "); reflexivity.
Defined.

(** X8: every token is one of the five token codes or a character code
    between 0 and 255 that is no white space, letter, digit, '.' or '#';
    with [tok_def] and [tok_extern] the name in [IdentifierStr] is the
    keyword, and with [tok_identifier] it is a letter followed by letters
    and digits and is neither keyword.  [LastChar] holds a character or
    [EOF], as it does at the start and after every call. *)
Theorem gettok_token_classes (s : state) :
  char_or_EOF (LastChar s) ->
  let t := (gettok s).1 in
  let s' := (gettok s).2 in
  char_or_EOF (LastChar s') /\
  (t = tok_eof \/
   t = tok_def /\ IdentifierStr s' = "def" \/
   t = tok_extern /\ IdentifierStr s' = "extern" \/
   t = tok_identifier /\ identifier_name (IdentifierStr s') = true /\
     IdentifierStr s' <> "def" /\ IdentifierStr s' <> "extern" \/
   t = tok_number \/
   symbol t).
Proof. exact (gettok_lexed s). Qed.

Lemma gettok_token_classes_witness :
  let t := (gettok (initial_state "extern f(x)")).1 in
  let s' := (gettok (initial_state "extern f(x)")).2 in
  char_or_EOF (LastChar s') /\
  (t = tok_eof \/
   t = tok_def /\ IdentifierStr s' = "def" \/
   t = tok_extern /\ IdentifierStr s' = "extern" \/
   t = tok_identifier /\ identifier_name (IdentifierStr s') = true /\
     IdentifierStr s' <> "def" /\ IdentifierStr s' <> "extern" \/
   t = tok_number \/
   symbol t).
Proof.
  apply (gettok_token_classes (initial_state "extern f(x)")).
  unfold char_or_EOF. cbn [LastChar initial_state]. change (chr " ") with 32. lia.
Defined.

(** X9: the tokens of any state are finitely many, no more than there
    are characters left to read, and [tok_eof] for ever behind them: [n]
    calls of [gettok] return the first [n] of the tokens that are still to
    come ([unread], none of them [tok_eof]) and [tok_eof] for the calls
    beyond them. *)
Theorem token_stream_finite (s : state) (n : nat) :
  (length (unread s) <= chars_left s)%nat /\
  Forall (fun t => tok t <> tok_eof) (unread s) /\
  (gettok_n n s).1
  = (firstn n (map tok (unread s)) ++ repeat tok_eof (n - length (unread s)))%list.
Proof.
  split; [apply unread_finite|]. split; [apply unread_finite|].
  revert s. induction n as [|n IH]; intros s; [reflexivity|].
  cbn [gettok_n fst]. rewrite (unread_equation_1 s).
  destruct (decide _) as [E|E].
  - rewrite (gettok_n_EOF n _ (gettok_eof_LastChar s E)), E. reflexivity.
  - cbn [map firstn length app Nat.sub tok]. rewrite IH. reflexivity.
Qed.

(** X10: [ParsePrototype] on an identifier, a '(' and a run of
    identifiers: when the token behind the run is ')' it returns the
    prototype with the name and all the parameters in order, has consumed
    the ')' and has logged nothing; on any other token it returns
    [nullptr] with the message "Expected ')' in prototype" and that token
    current.  Parameters are separated by white space only; a comma ends
    the run and is such a token. *)
Theorem ParsePrototype_accepts (s : state) (name lp : item) (params rest : list item) :
  pending s = (name :: lp :: params ++ rest)%list ->
  tok name = tok_identifier -> tok lp = chr "(" ->
  Forall (fun p => tok p = tok_identifier) params ->
  head_tok rest <> tok_identifier ->
  (head_tok rest = chr ")" ->
     (ParsePrototype s).1 = Some (mkPrototypeAST (ident name) (map ident params)) /\
     pending (ParsePrototype s).2 = tl rest /\
     stderr (ParsePrototype s).2 = stderr s) /\
  (head_tok rest <> chr ")" ->
     (ParsePrototype s).1 = None /\
     pending (ParsePrototype s).2 = rest /\
     stderr (ParsePrototype s).2 = (stderr s ++ ["Expected ')' in prototype"])%list) /\
  (head_tok rest = chr "," -> (ParsePrototype s).1 = None).
Proof.
  intros P Hn Hl F N.
  pose proof (ParsePrototype_tokens s name lp params rest P Hn Hl F N) as H.
  destruct (Z.eqb_spec (head_tok rest) (chr ")")) as [K|K];
    destruct H as (H1 & H2 & H3 & _).
  - split; [auto|]. split; [intros K'; contradiction|].
    rewrite K. intros K'. discriminate K'.
  - split; [intros K'; contradiction|]. split; [auto|]. intros _. exact H1.
Qed.

Lemma ParsePrototype_accepts_witness :
  (ParsePrototype (main_init "foo(x y z) x")).1 = Some (mkPrototypeAST "foo" ["x"; "y"; "z"]).
Proof.
  apply (ParsePrototype_accepts (main_init "foo(x y z) x")
           (mkItem tok_identifier "foo" 0) (mkItem (chr "(") "foo" 0)
           [mkItem tok_identifier "x" 0; mkItem tok_identifier "y" 0;
            mkItem tok_identifier "z" 0]
           [mkItem (chr ")") "z" 0; mkItem tok_identifier "x" 0]).
  - vm_compute. reflexivity.
  - reflexivity.
  - reflexivity.
  - repeat constructor.
  - vm_compute. discriminate.
  - reflexivity.
Defined.

(** X11: every name in a tree that the parser returns is an identifier
    as the lexer reads it, a letter followed by letters and digits, and is
    neither "def" nor "extern": the variables and callees of an
    expression, the name and the parameters of a prototype, and all of
    them in a definition.  The state is one that [getNextToken] has left,
    as in [main]. *)
Theorem parsed_names_are_identifiers (fuel : nat) (s s' : state) :
  lexer_ok s ->
  (forall e, ParseExpression fuel s = Some (Some e, s') -> names_ok e) /\
  (forall p, ParsePrototype s = (Some p, s') ->
     name_ok (Name p) /\ Forall name_ok (Args p)) /\
  (forall f, ParseDefinition fuel s = Some (Some f, s') ->
     name_ok (Name (Proto f)) /\ Forall name_ok (Args (Proto f)) /\ names_ok (Body f)).
Proof.
  intros I. destruct lexer_ok_steps as (A1 & A2 & A3).
  destruct (parse_names fuel) as (_ & _ & _ & _ & _ & He).
  repeat apply conj.
  - intros e H. exact (He _ _ _ I H).
  - intros p H. exact (ParsePrototype_names _ _ _ I H).
  - intros f. rewrite ParseDefinition_S.
    pose proof (ParsePrototype_preserves lexer_ok A1 A3 _ (A1 _ I)) as I1.
    destruct (ParsePrototype _) as [[p|] s1] eqn:P; [|discriminate].
    apply ParsePrototype_names in P as [P1 P2]; [|apply A1, I].
    destruct (ParseExpression fuel s1) as [[[E|] s2]|] eqn:PE; try discriminate.
    apply (He _ _ _ I1) in PE. intros [= <- _]. cbn [Proto Body]. auto.
Qed.

Lemma parsed_names_are_identifiers_witness :
  names_ok (CallExprAST "f" [VariableExprAST "x1"; NumberExprAST 2]).
Proof.
  apply (parsed_names_are_identifiers 20 (main_init "f(x1, 2)")
           (final_state (ParseExpression 20) (main_init "f(x1, 2)"))).
  - assert (main_init "f(x1, 2)"
            = mkState "x1, 2)" (chr "(") "f" 0 tok_identifier main_table []) as ->
      by (vm_compute; reflexivity).
    split.
    + unfold char_or_EOF. cbn [LastChar]. change (chr "(") with 40. lia.
    + intros _. repeat split; [discriminate | discriminate].
  - vm_compute. reflexivity.
Defined.

(** X12: [ParseExpression] accepts every sentence of the grammar and
    returns its tree.  When the pending tokens start with an operand
    (number, variable, call with arguments separated by commas, expression
    in parentheses) followed by operators of the table, each with its
    operand, and the token behind them is no operator, the result is the
    tree [climb] of the operands: the operators are nested by precedence,
    and an expression in parentheses is an operand like any other, with
    no node of its own.  Exactly the tokens of the sentence are consumed
    and nothing is logged.  With two operators the second is nested below
    the first exactly when it binds more, whatever the operands are. *)
Theorem sentence_parsed (s : state) (ts rest : list item) (e : ExprAST) :
  let prec := precedence_in (BinopPrecedence s) in
  pending s = (ts ++ rest)%list ->
  sentence prec ts (head_tok rest) e ->
  (exists s',
     ParseExpression (enough_fuel s) s = Some (Some e, s') /\
     pending s' = rest /\ stderr s' = stderr s) /\
  (forall e0 o1 x1 o2 x2, 0 < prec o1 ->
     climb prec e0 [(o1, x1); (o2, x2)] =
     if prec o1 <? prec o2
     then BinaryExprAST (to_char o1) e0 (BinaryExprAST (to_char o2) x1 x2)
     else BinaryExprAST (to_char o2) (BinaryExprAST (to_char o1) e0 x1) x2).
Proof.
  intros prec P S. split.
  - destruct (ParseExpression (enough_fuel s) s) as [[r s']|] eqn:E.
    + assert (table_is prec s) as T by (intros t; reflexivity).
      destruct (parse_sentence prec (enough_fuel s)) as (_ & _ & _ & _ & _ & He).
      destruct (He s ts e rest r s' T S P E) as (-> & Q & _).
      exists s'. split; [reflexivity|]. split; [exact Q|].
      exact (proj2 (proj2 (proj2 (proj2 (proj2 (parse_outcome _))))) _ _ _ E).
    + exfalso. revert E. apply parse_fuel_enough. unfold enough_fuel. lia.
  - intros e0 o1 x1 o2 x2 H1.
    assert (chr (to_char o1) = o1) as A.
    { apply (table_is_ascii prec s); [intros t; reflexivity | exact H1]. }
    unfold climb. cbn [grouping fold_left fst snd insert_operand]. rewrite A.
    destruct (prec o1 <? prec o2); reflexivity.
Qed.

Lemma sentence_parsed_witness :
  exists s',
    ParseExpression (enough_fuel (main_init "(a+b)*c")) (main_init "(a+b)*c")
    = Some (Some (BinaryExprAST "*"
                    (BinaryExprAST "+" (VariableExprAST "a") (VariableExprAST "b"))
                    (VariableExprAST "c")), s') /\
    pending s' = [] /\ stderr s' = stderr (main_init "(a+b)*c").
Proof.
  apply (sentence_parsed (main_init "(a+b)*c")
           [mkItem (chr "(") "" 0; mkItem tok_identifier "a" 0; mkItem (chr "+") "a" 0;
            mkItem tok_identifier "b" 0; mkItem (chr ")") "b" 0; mkItem (chr "*") "b" 0;
            mkItem tok_identifier "c" 0]
           []).
  - vm_compute. reflexivity.
  - assert (BinopPrecedence (main_init "(a+b)*c") = main_table) as -> by (vm_compute; reflexivity).
    apply (S_sentence (precedence_in main_table)
             [mkItem (chr "(") "" 0; mkItem tok_identifier "a" 0; mkItem (chr "+") "a" 0;
              mkItem tok_identifier "b" 0; mkItem (chr ")") "b" 0]
             (BinaryExprAST "+" (VariableExprAST "a") (VariableExprAST "b"))
             [mkItem (chr "*") "b" 0; mkItem tok_identifier "c" 0]
             [(chr "*", VariableExprAST "c")] tok_eof).
    + apply (S_paren (precedence_in main_table) (mkItem (chr "(") "" 0)
               [mkItem tok_identifier "a" 0; mkItem (chr "+") "a" 0;
                mkItem tok_identifier "b" 0]
               _ (mkItem (chr ")") "b" 0)); [reflexivity| |reflexivity].
      apply (S_sentence (precedence_in main_table)
               [mkItem tok_identifier "a" 0] (VariableExprAST "a")
               [mkItem (chr "+") "a" 0; mkItem tok_identifier "b" 0]
               [(chr "+", VariableExprAST "b")] (chr ")")).
      * apply (S_variable _ (mkItem tok_identifier "a" 0)); [reflexivity | discriminate].
      * apply (S_operand _ (mkItem (chr "+") "a" 0) [mkItem tok_identifier "b" 0]
                 (VariableExprAST "b") [] []); [reflexivity | | constructor].
        apply (S_variable _ (mkItem tok_identifier "b" 0)); [reflexivity | discriminate].
      * reflexivity.
    + apply (S_operand _ (mkItem (chr "*") "b" 0) [mkItem tok_identifier "c" 0]
               (VariableExprAST "c") [] []); [reflexivity | | constructor].
      apply (S_variable _ (mkItem tok_identifier "c" 0)); [reflexivity | discriminate].
    + reflexivity.
Defined.

(** X13: on a well-formed program [main] writes prompts and status lines
    only.  When the tokens of the input are a sequence of definitions
    ('def', prototype, expression), externs ('extern', prototype),
    expressions and semicolons, [main] returns 0 and standard error holds
    the prompt of [main] and then, for each of them in order, a prompt and
    the status line of its kind (nothing for a semicolon), and the prompt
    at the end of the input: no construct is reported as another, none is
    skipped, and no error is logged. *)
Theorem well_formed_program_accepted (inp : string) (out : list string) (fuel : nat) :
  program (precedence_in main_table) (pending (main_init inp)) out ->
  (3 * String.length inp + 9 <= fuel)%nat ->
  exists s', main fuel inp = Some (0, s') /\ stderr s' = "ready> " :: out.
Proof.
  intros G F. rewrite main_eq.
  set (s0 := prompted (set_BinopPrecedence (initial_state inp) main_table)).
  assert (pending (getNextToken s0).2 = pending (main_init inp)) as P.
  { unfold main_init. rewrite !pending_getNextToken. apply unread_set_frame. }
  assert (table_is (precedence_in main_table) (getNextToken s0).2) as T.
  { apply table_is_getNextToken. intros t. reflexivity. }
  assert (tokens_left (getNextToken s0).2 <= String.length inp + 2)%nat as L.
  { destruct (getNextToken_left s0) as [N _].
    assert (tokens_left s0 = 2 + String.length inp)%nat as E by reflexivity. lia. }
  destruct (MainLoop_enough fuel (getNextToken s0).2) as (s' & H & _); [lia|].
  rewrite H. exists s'. split; [reflexivity|].
  pose proof (MainLoop_program _ _ _ G _ _ _ T P H) as K. cbn [snd] in K.
  rewrite K, getNextToken_stderr. reflexivity.
Qed.

Lemma well_formed_program_accepted_witness :
  exists s',
    main 80 "extern sin(a); sin(1)" = Some (0, s') /\
    stderr s' = ["ready> "; "ready> "; status_extern; "ready> ";
                 "ready> "; status_toplevel; "ready> "].
Proof.
  apply (well_formed_program_accepted "extern sin(a); sin(1)"
           ["ready> "; status_extern; "ready> "; "ready> "; status_toplevel; "ready> "] 80).
  - assert (pending (main_init "extern sin(a); sin(1)") =
            [mkItem tok_extern "extern" 0; mkItem tok_identifier "sin" 0;
             mkItem (chr "(") "sin" 0; mkItem tok_identifier "a" 0;
             mkItem (chr ")") "a" 0; mkItem (chr ";") "a" 0;
             mkItem tok_identifier "sin" 0; mkItem (chr "(") "sin" 0;
             mkItem tok_number "sin" 1; mkItem (chr ")") "sin" 1]) as ->
      by (vm_compute; reflexivity).
    apply (P_extern _ (mkItem tok_extern "extern" 0)
             [mkItem tok_identifier "sin" 0; mkItem (chr "(") "sin" 0;
              mkItem tok_identifier "a" 0; mkItem (chr ")") "a" 0]
             (mkPrototypeAST "sin" ["a"])); [reflexivity | |].
    { apply (G_prototype (mkItem tok_identifier "sin" 0) (mkItem (chr "(") "sin" 0)
               [mkItem tok_identifier "a" 0] (mkItem (chr ")") "a" 0));
        [reflexivity | reflexivity | repeat constructor | reflexivity]. }
    apply P_semicolon; [reflexivity|].
    apply (P_expression _
             [mkItem tok_identifier "sin" 0; mkItem (chr "(") "sin" 0;
              mkItem tok_number "sin" 1; mkItem (chr ")") "sin" 1]
             (CallExprAST "sin" [NumberExprAST 1]) []); [|apply P_end].
    apply (S_sentence _
             [mkItem tok_identifier "sin" 0; mkItem (chr "(") "sin" 0;
              mkItem tok_number "sin" 1; mkItem (chr ")") "sin" 1]
             (CallExprAST "sin" [NumberExprAST 1]) [] [] tok_eof);
      [|constructor|reflexivity].
    apply (S_call _ (mkItem tok_identifier "sin" 0) (mkItem (chr "(") "sin" 0)
             [mkItem tok_number "sin" 1] [NumberExprAST 1] (mkItem (chr ")") "sin" 1));
      [reflexivity | reflexivity | | reflexivity].
    apply S_last_argument.
    apply (S_sentence _ [mkItem tok_number "sin" 1] (NumberExprAST 1) [] [] (chr ")"));
      [|constructor|reflexivity].
    apply (S_number _ (mkItem tok_number "sin" 1)). reflexivity.
  - cbn [String.length]. lia.
Defined.

(** X14: every tree that [ParseExpression] returns is the tree of the
    sentence it has consumed.  The tokens consumed are a prefix of the
    pending ones; they are an operand followed by operators of the table,
    each with its operand, up to a token that is no operator; and the tree
    is [climb] of these operands: the operators nested by precedence, with
    each call and each expression in parentheses as one operand. *)
Theorem parsed_tree_is_sentence (fuel : nat) (s s' : state) (e : ExprAST) :
  let prec := precedence_in (BinopPrecedence s) in
  ParseExpression fuel s = Some (Some e, s') ->
  exists ts,
    pending s = (ts ++ pending s')%list /\ sentence prec ts (CurTok s') e.
Proof.
  intros prec H.
  assert (table_is prec s) as T by (intros t; reflexivity).
  destruct (parse_returns_sentence prec fuel) as (_ & _ & _ & _ & _ & He).
  destruct (He s e s' T H) as (_ & ts & C & S). exists ts. split; assumption.
Qed.

Lemma parsed_tree_is_sentence_witness :
  exists ts,
    pending (main_init "a*(b+c) d")
    = (ts ++ pending (final_state (ParseExpression 20) (main_init "a*(b+c) d")))%list /\
    sentence (precedence_in (BinopPrecedence (main_init "a*(b+c) d"))) ts
      (CurTok (final_state (ParseExpression 20) (main_init "a*(b+c) d")))
      (BinaryExprAST "*" (VariableExprAST "a")
         (BinaryExprAST "+" (VariableExprAST "b") (VariableExprAST "c"))).
Proof.
  apply (parsed_tree_is_sentence 20 (main_init "a*(b+c) d")
           (final_state (ParseExpression 20) (main_init "a*(b+c) d"))).
  vm_compute. reflexivity.
Defined.

(** X15: no malformed input goes unreported.  When [main] has returned
    and no line on standard error is a message of [LogError], the tokens
    of the input are a well-formed program: a sequence of definitions,
    externs, expressions and semicolons, and standard error holds the
    prompts and status lines of exactly that sequence. *)
Theorem error_free_output_means_well_formed (inp : string) (fuel : nat) (s' : state) :
  main fuel inp = Some (0, s') ->
  Forall (fun line => ~ error_message line) (stderr s') ->
  program (precedence_in main_table) (pending (main_init inp)) (tl (stderr s')).
Proof.
  rewrite main_eq.
  set (s0 := prompted (set_BinopPrecedence (initial_state inp) main_table)).
  assert (pending (getNextToken s0).2 = pending (main_init inp)) as P.
  { unfold main_init. rewrite !pending_getNextToken. apply unread_set_frame. }
  assert (table_is (precedence_in main_table) (getNextToken s0).2) as T.
  { apply table_is_getNextToken. intros t. reflexivity. }
  destruct (MainLoop fuel _) as [r|] eqn:H; [|discriminate].
  intros [= <-].
  destruct (MainLoop_error_free _ _ _ _ T H) as (out & E & G).
  rewrite getNextToken_stderr in E. rewrite E. cbn [app tl stderr s0 prompted].
  change (stderr s0) with ["ready> "] in *. cbn [app tl].
  intros F. inversion F as [|? ? _ F1]; subst.
  rewrite <- P. exact (G F1).
Qed.

Lemma error_free_output_means_well_formed_witness :
  program (precedence_in main_table) (pending (main_init "extern f(); 1;"))
    (tl (stderr (main_state 60 "extern f(); 1;"))).
Proof.
  apply (error_free_output_means_well_formed "extern f(); 1;" 60).
  - vm_compute. reflexivity.
  - vm_compute. repeat constructor; intros (t & O); vm_compute in O;
      repeat (destruct O as [O|O]; [destruct O as [O _]; discriminate O|]);
      destruct O as [O _]; discriminate O.
Defined.
